(** * The agent orchestrator of [src/services/agent_orchestrator.py]

    A shallow embedding of the task-orchestration layer: the task and agent
    records, the worker selection policy [_select_agent], one iteration of
    the dispatcher loop [_task_processor], the execution activity
    [_execute_task], the four agent classes' [execute_task] and the polling
    reader [get_task_result].

    The program is a single-threaded asyncio application: control changes
    hands only at an [await] that really suspends.  Every piece of code
    between two suspension points is therefore one atomic transition of the
    orchestrator's state, and the embedding is a labelled transition
    function [step] whose labels are the scheduler's choices (which
    activity runs next) and the environment's answers (the clock, the drawn
    uuid, what the awaited collaborators returned). *)

From Stdlib Require Import SpecFloat.
From stdpp Require Import gmap strings list.

Open Scope string_scope.
Open Scope Z_scope.
Open Scope list_scope.

(** ** Enumerations *)

Inductive TaskPriority := CRITICAL | HIGH | MEDIUM | LOW.

Inductive TaskStatus := PENDING | IN_PROGRESS | COMPLETED | FAILED | CANCELLED.

(** The Python classes deriving from [Agent]. *)
Inductive AgentClass := TemplateAgent | ServerAgent | CoordinatorAgent | MonitorAgent.

#[global] Instance TaskStatus_eq_dec : EqDecision TaskStatus.
Proof. solve_decision. Defined.

#[global] Instance AgentClass_eq_dec : EqDecision AgentClass.
Proof. solve_decision. Defined.

(** What a call may do: return a value or raise an exception (whose
    [str(e)] is kept). *)
Inductive outcome (A : Type) :=
  | Returned (a : A)
  | Raised (msg : string).
Arguments Returned {A} a.
Arguments Raised {A} msg.

(** ** Records *)

(** The result dict of an agent.  [success] is the value of
    [result.get('success', False)]; the remaining keys are payload that the
    orchestrator never reads. *)
Record Result := mkResult {
  success : bool;
  res_error : option string
}.

(** The task dict.  A key that the code adds later ([assigned_agent],
    [started_at], [result], [completed_at], [execution_time], [error]) is an
    option that is [None] while the key is absent.  [task_id] is the uuid4
    that [submit_task] draws (the 128-bit number; [str] renders it
    injectively).  Timestamps are clock readings in microseconds. *)
Record Task := mkTask {
  task_id : N;
  task_type : string;
  data : list (string * string);
  priority : TaskPriority;
  required_agent : option string;
  created_at : Z;
  status : TaskStatus;
  assigned_agent : option string;
  started_at : option Z;
  result : option Result;
  completed_at : option Z;
  execution_time : option Z;
  error : option string
}.

(** The mutable part of an [Agent] object together with its class and its
    [name]; [tasks_completed], [tasks_failed] and [last_activity] are the
    entries of [performance_metrics]. *)
Record Agent := mkAgent {
  agent_class : AgentClass;
  name : string;
  capabilities : list string;
  current_task : option Task;
  tasks_completed : nat;
  tasks_failed : nat;
  last_activity : option Z;
  is_busy : bool
}.

(** [system_metrics] of the orchestrator. *)
Record Metrics := mkMetrics {
  total_tasks : nat;
  completed_count : nat;   (* system_metrics['completed_tasks'] *)
  failed_count : nat       (* system_metrics['failed_tasks'] *)
}.

(** An execution activity created by
    [asyncio.create_task(self._execute_task(agent, task))].  It holds a
    reference to the agent (its key in the pool, which never changes) and to
    the task.  It is either not yet started, or suspended inside the agent's
    [execute_task] at an [await], remembering [start_time]. *)
Inductive Phase := Spawned | Awaiting (start_time : Z).

Record Coroutine := mkCoroutine {
  co_agent : string;
  co_task : Task;
  co_phase : Phase
}.

(** The orchestrator object, and the execution activities that the event
    loop holds for it.  [agents] is the dict built by [__init__], kept in
    insertion order because [_select_agent] iterates over [values()]. *)
Record Orchestrator := mkOrchestrator {
  agents : list (string * Agent);
  task_queue : list Task;
  active_tasks : gmap N Task;
  completed_tasks : list Task;
  system_metrics : Metrics;
  coroutines : list Coroutine
}.

(** ** Field updates *)

Definition set_status (s : TaskStatus) (t : Task) : Task :=
  mkTask (task_id t) (task_type t) (data t) (priority t) (required_agent t)
         (created_at t) s (assigned_agent t) (started_at t) (result t)
         (completed_at t) (execution_time t) (error t).

Definition set_error (e : string) (t : Task) : Task :=
  mkTask (task_id t) (task_type t) (data t) (priority t) (required_agent t)
         (created_at t) (status t) (assigned_agent t) (started_at t) (result t)
         (completed_at t) (execution_time t) (Some e).

Definition set_assigned_agent (a : string) (t : Task) : Task :=
  mkTask (task_id t) (task_type t) (data t) (priority t) (required_agent t)
         (created_at t) (status t) (Some a) (started_at t) (result t)
         (completed_at t) (execution_time t) (error t).

Definition set_started_at (now : Z) (t : Task) : Task :=
  mkTask (task_id t) (task_type t) (data t) (priority t) (required_agent t)
         (created_at t) (status t) (assigned_agent t) (Some now) (result t)
         (completed_at t) (execution_time t) (error t).

Definition set_result (r : Result) (t : Task) : Task :=
  mkTask (task_id t) (task_type t) (data t) (priority t) (required_agent t)
         (created_at t) (status t) (assigned_agent t) (started_at t) (Some r)
         (completed_at t) (execution_time t) (error t).

Definition set_completed_at (now : Z) (t : Task) : Task :=
  mkTask (task_id t) (task_type t) (data t) (priority t) (required_agent t)
         (created_at t) (status t) (assigned_agent t) (started_at t) (result t)
         (Some now) (execution_time t) (error t).

Definition set_execution_time (d : Z) (t : Task) : Task :=
  mkTask (task_id t) (task_type t) (data t) (priority t) (required_agent t)
         (created_at t) (status t) (assigned_agent t) (started_at t) (result t)
         (completed_at t) (Some d) (error t).

Definition set_agents (ags : list (string * Agent)) (o : Orchestrator) : Orchestrator :=
  mkOrchestrator ags (task_queue o) (active_tasks o) (completed_tasks o)
                 (system_metrics o) (coroutines o).

Definition set_task_queue (q : list Task) (o : Orchestrator) : Orchestrator :=
  mkOrchestrator (agents o) q (active_tasks o) (completed_tasks o)
                 (system_metrics o) (coroutines o).

Definition set_active_tasks (m : gmap N Task) (o : Orchestrator) : Orchestrator :=
  mkOrchestrator (agents o) (task_queue o) m (completed_tasks o)
                 (system_metrics o) (coroutines o).

Definition set_completed_tasks (l : list Task) (o : Orchestrator) : Orchestrator :=
  mkOrchestrator (agents o) (task_queue o) (active_tasks o) l
                 (system_metrics o) (coroutines o).

Definition set_system_metrics (m : Metrics) (o : Orchestrator) : Orchestrator :=
  mkOrchestrator (agents o) (task_queue o) (active_tasks o) (completed_tasks o)
                 m (coroutines o).

Definition set_coroutines (cs : list Coroutine) (o : Orchestrator) : Orchestrator :=
  mkOrchestrator (agents o) (task_queue o) (active_tasks o) (completed_tasks o)
                 (system_metrics o) cs.

(** ** The agent pool *)

(** [self.agents.get(key)]. *)
Fixpoint agents_get (ags : list (string * Agent)) (key : string) : option Agent :=
  match ags with
  | [] => None
  | (k, a) :: rest => if String.eqb k key then Some a else agents_get rest key
  end.

(** Writing through a reference to the agent object stored under [key]. *)
Fixpoint agents_set (ags : list (string * Agent)) (key : string) (a' : Agent)
  : list (string * Agent) :=
  match ags with
  | [] => []
  | (k, a) :: rest =>
      if String.eqb k key then (k, a') :: rest else (k, a) :: agents_set rest key a'
  end.

Definition new_agent (c : AgentClass) (n : string) (caps : list string) : Agent :=
  mkAgent c n caps None 0%nat 0%nat None false.

(** The pool of [AgentOrchestrator.__init__]. *)
Definition init_agents : list (string * Agent) :=
  [ ("template", new_agent TemplateAgent "TemplateAgent"
       ["search_templates"; "analyze_templates"; "categorize_templates";
        "recommend_templates"; "validate_templates"]);
    ("server", new_agent ServerAgent "ServerAgent"
       ["import_templates"; "export_workflows"; "activate_workflows";
        "deactivate_workflows"; "monitor_executions"; "manage_credentials"]);
    ("coordinator", new_agent CoordinatorAgent "CoordinatorAgent"
       ["coordinate_agents"; "plan_execution"; "resolve_conflicts";
        "optimize_workflow"; "delegate_tasks"]);
    ("monitor", new_agent MonitorAgent "MonitorAgent"
       ["system_health"; "performance_analysis"; "error_detection";
        "resource_monitoring"; "alert_management"]) ].

Definition init_orchestrator : Orchestrator :=
  mkOrchestrator init_agents [] ∅ [] (mkMetrics 0 0 0) [].

(** ** Worker selection: [AgentOrchestrator._select_agent] *)

(** Truth value of [task.get('required_agent')]: [None] and the empty string
    are false. *)
Definition pinned (t : Task) : option string :=
  match required_agent t with
  | Some (String c s) => Some (String c s)
  | _ => None
  end.

(** [x in [s1, ..., sn]] on strings. *)
Definition in_list (x : string) (l : list string) : bool :=
  existsb (String.eqb x) l.

(** [self.agents[key]], which raises [KeyError] on a missing key.  The agent
    object is returned as a reference: its key together with its state. *)
Definition agents_index (ags : list (string * Agent)) (key : string)
  : outcome (option (string * Agent)) :=
  match agents_get ags key with
  | Some a => Returned (Some (key, a))
  | None => Raised (String.append "KeyError: " key)
  end.

(** [max(first :: rest, key=key)]: the first item whose key is maximal. *)
Fixpoint max_by {A : Type} (key : A → nat) (best : A) (rest : list A) : A :=
  match rest with
  | [] => best
  | x :: rest' => max_by key (if (key best <? key x)%nat then x else best) rest'
  end.

Definition template_types : list string :=
  ["search_templates"; "analyze_template"; "recommend_templates"; "categorize_templates"].
Definition server_types : list string :=
  ["import_template"; "export_workflow"; "activate_workflow"; "deactivate_workflow";
   "get_workflows"; "monitor_system"].
Definition coordinator_types : list string := ["coordinate_agents"; "plan_execution"].
Definition monitor_types : list string := ["system_health"; "performance_analysis"].

Definition _select_agent (ags : list (string * Agent)) (task : Task)
  : outcome (option (string * Agent)) :=
  match pinned task with
  | Some pin => Returned (pair pin <$> agents_get ags pin)
  | None =>
      let ty := task_type task in
      if in_list ty template_types then agents_index ags "template"
      else if in_list ty server_types then agents_index ags "server"
      else if in_list ty coordinator_types then agents_index ags "coordinator"
      else if in_list ty monitor_types then agents_index ags "monitor"
      else
        let available_agents := List.filter (λ ka, negb (is_busy ka.2)) ags in
        match available_agents with
        | [] => Returned None
        | first :: rest =>
            Returned (Some (max_by (λ ka, tasks_completed ka.2) first rest))
        end
  end.

(** ** The agents' [execute_task] *)

(** [Agent.update_performance]. *)
Definition update_performance (now : Z) (task_result : Result) (a : Agent) : Agent :=
  if success task_result
  then mkAgent (agent_class a) (name a) (capabilities a) (current_task a)
               (S (tasks_completed a)) (tasks_failed a) (Some now) (is_busy a)
  else mkAgent (agent_class a) (name a) (capabilities a) (current_task a)
               (tasks_completed a) (S (tasks_failed a)) (Some now) (is_busy a).

(** Does the class's [execute_task] contain an [await]?  [TemplateAgent] and
    [ServerAgent] await the thinking service and their collaborators;
    [CoordinatorAgent] and [MonitorAgent] return a constant dict.  The
    transitions let an activity suspend at an [await] whether or not the
    awaited collaborator really yields to the event loop: resuming it at
    once gives the run in which it did not. *)
Definition suspends (c : AgentClass) : bool :=
  match c with
  | TemplateAgent | ServerAgent => true
  | CoordinatorAgent | MonitorAgent => false
  end.

(** The task types in the [if]/[elif] chain of the class's [execute_task]. *)
Definition handled_types (c : AgentClass) : list string :=
  match c with
  | TemplateAgent => template_types
  | ServerAgent => server_types
  | CoordinatorAgent | MonitorAgent => []
  end.

(** [TemplateAgent.execute_task] and [ServerAgent.execute_task] from entry to
    the first [await]: [self.is_busy = True; self.current_task = task]. *)
Definition execute_task_enter (task : Task) (a : Agent) : Agent :=
  mkAgent (agent_class a) (name a) (capabilities a) (Some task)
          (tasks_completed a) (tasks_failed a) (last_activity a) true.

(** The [finally] block: [self.is_busy = False; self.current_task = None]. *)
Definition execute_task_finally (a : Agent) : Agent :=
  mkAgent (agent_class a) (name a) (capabilities a) None
          (tasks_completed a) (tasks_failed a) (last_activity a) false.

(** The result that [TemplateAgent.execute_task] / [ServerAgent.execute_task]
    builds once its awaits have answered.  [answer] is what the awaited
    collaborators did: [Returned r] when thinking succeeded and the handler
    of the task's type (if there is one) returned [r], [Raised msg] when one
    of them raised, which the [except Exception] clause turns into a failure
    result. *)
Definition execute_task_result (a : Agent) (task : Task) (answer : outcome Result)
  : Result :=
  match answer with
  | Returned r =>
      if in_list (task_type task) (handled_types (agent_class a)) then r
      else mkResult false (Some (String.append "Unknown task type: " (task_type task)))
  | Raised msg => mkResult false (Some msg)
  end.

(** From the last [await] to the return of [execute_task], for the two
    classes that suspend. *)
Definition execute_task_exit (now : Z) (task : Task) (answer : outcome Result)
  (a : Agent) : Agent * outcome Result :=
  let result := execute_task_result a task answer in
  (execute_task_finally (update_performance now result a), Returned result).

(** [CoordinatorAgent.execute_task] and [MonitorAgent.execute_task]: a
    constant success dict, no field of the agent is written. *)
Definition execute_task_constant (a : Agent) : Agent * outcome Result :=
  (a, Returned (mkResult true None)).

(** ** The orchestrator's operations *)

Definition incr_total (m : Metrics) : Metrics :=
  mkMetrics (S (total_tasks m)) (completed_count m) (failed_count m).
Definition incr_completed (m : Metrics) : Metrics :=
  mkMetrics (total_tasks m) (S (completed_count m)) (failed_count m).
Definition incr_failed (m : Metrics) : Metrics :=
  mkMetrics (total_tasks m) (completed_count m) (S (failed_count m)).

(** [AgentOrchestrator.submit_task]; [uuid] is the value drawn by
    [uuid.uuid4()], [now] the clock. *)
Definition submit_task (uuid : N) (now : Z) (ty : string)
  (d : list (string * string)) (prio : TaskPriority) (pin : option string)
  (o : Orchestrator) : N * Orchestrator :=
  let task := mkTask uuid ty d prio pin now PENDING None None None None None None in
  (uuid,
   set_system_metrics (incr_total (system_metrics o))
     (set_task_queue (task_queue o ++ [task]) o)).

(** The history bound of [_execute_task]. *)
Definition history_cap : nat := 1000.

(** The slice [l[-n:]] for a positive [n]. *)
Definition last_n {A : Type} (n : nat) (l : list A) : list A :=
  drop (length l - n) l.

(** One iteration of [AgentOrchestrator._task_processor].  With an empty
    queue [wait_for] times out and the loop continues.  An exception raised
    by [_select_agent] is logged by the [except Exception] clause and the
    dequeued task is dropped. *)
Definition _task_processor (now : Z) (o : Orchestrator) : Orchestrator :=
  match task_queue o with
  | [] => o
  | task :: queue =>
      let o := set_task_queue queue o in
      match _select_agent (agents o) task with
      | Raised _ => o
      | Returned None =>
          let task := set_error "No suitable agent found" (set_status FAILED task) in
          set_completed_tasks (completed_tasks o ++ [task]) o
      | Returned (Some (key, agent)) =>
          let task :=
            set_started_at now
              (set_assigned_agent (name agent) (set_status IN_PROGRESS task)) in
          set_coroutines (coroutines o ++ [mkCoroutine key task Spawned])
            (set_active_tasks (<[task_id task := task]> (active_tasks o)) o)
      end
  end.

(** [AgentOrchestrator._execute_task] after [agent.execute_task] has
    answered with [out].  The task dict is shared with [active_tasks]; the
    entry is deleted in the same atomic piece of code that writes the dict,
    so the copy held here is the only one that is read afterwards. *)
Definition _execute_task_finish (start_time now : Z) (task : Task)
  (out : outcome Result) (o : Orchestrator) : Orchestrator :=
  match out with
  | Returned r =>
      let task := set_result r task in
      let task := set_completed_at now task in
      let task := set_execution_time (now - start_time) task in
      let task := set_status (if success r then COMPLETED else FAILED) task in
      let metrics :=
        if success r then incr_completed (system_metrics o)
        else incr_failed (system_metrics o) in
      let completed := completed_tasks o ++ [task] in
      let completed :=
        if (history_cap <? length completed)%nat
        then last_n history_cap completed else completed in
      set_completed_tasks completed
        (set_active_tasks (delete (task_id task) (active_tasks o))
           (set_system_metrics metrics o))
  | Raised msg =>
      let task := set_status FAILED task in
      let task := set_error msg task in
      let task := set_completed_at now task in
      set_system_metrics (incr_failed (system_metrics o))
        (set_completed_tasks (completed_tasks o ++ [task])
           (set_active_tasks (delete (task_id task) (active_tasks o)) o))
  end.

(** ** Transitions *)

(** The labels: a caller submits a task; the dispatcher loop runs one
    iteration; the event loop resumes the [i]-th execution activity, whose
    pending awaits (if any) have been answered by [answer].  The dispatcher
    loop runs while [self.running] is set; the flag is left out and an
    iteration is allowed at any time, which only adds runs. *)
Inductive Event :=
  | Submit (uuid : N) (now : Z) (ty : string) (d : list (string * string))
           (prio : TaskPriority) (pin : option string)
  | Dispatch (now : Z)
  | Resume (i : nat) (now : Z) (answer : outcome Result).

(** Resuming an execution activity.  A fresh activity enters
    [agent.execute_task]: a class that awaits sets its busy flag and
    suspends; a class that does not runs [_execute_task] to its end.  A
    suspended activity leaves [execute_task] through its [finally] block and
    runs the rest of [_execute_task]. *)
Definition resume (i : nat) (now : Z) (answer : outcome Result) (o : Orchestrator)
  : option Orchestrator :=
  c ← coroutines o !! i;
  a ← agents_get (agents o) (co_agent c);
  match co_phase c with
  | Spawned =>
      if suspends (agent_class a) then
        Some (set_coroutines
                (<[i := mkCoroutine (co_agent c) (co_task c) (Awaiting now)]> (coroutines o))
                (set_agents
                   (agents_set (agents o) (co_agent c) (execute_task_enter (co_task c) a))
                   o))
      else
        let '(a', out) := execute_task_constant a in
        Some (_execute_task_finish now now (co_task c) out
                (set_coroutines (delete i (coroutines o))
                   (set_agents (agents_set (agents o) (co_agent c) a') o)))
  | Awaiting start_time =>
      let '(a', out) := execute_task_exit now (co_task c) answer a in
      Some (_execute_task_finish start_time now (co_task c) out
              (set_coroutines (delete i (coroutines o))
                 (set_agents (agents_set (agents o) (co_agent c) a') o)))
  end.

Definition step (o : Orchestrator) (ev : Event) : option Orchestrator :=
  match ev with
  | Submit uuid now ty d prio pin => Some (submit_task uuid now ty d prio pin o).2
  | Dispatch now => Some (_task_processor now o)
  | Resume i now answer => resume i now answer o
  end.

(** A run: the events in order; [None] when an event names an activity that
    does not exist. *)
Fixpoint run (evs : list Event) (o : Orchestrator) : option Orchestrator :=
  match evs with
  | [] => Some o
  | ev :: evs' => o' ← step o ev; run evs' o'
  end.

(** The uuids drawn along a run. *)
Fixpoint submitted (evs : list Event) : list N :=
  match evs with
  | [] => []
  | Submit uuid _ _ _ _ _ :: evs' => uuid :: submitted evs'
  | _ :: evs' => submitted evs'
  end.

(** States of the orchestrator that a run from [__init__] reaches, uuid4
    never drawing the same value twice. *)
Definition reachable (o : Orchestrator) : Prop :=
  ∃ evs, NoDup (submitted evs) ∧ run evs init_orchestrator = Some o.

(** ** Result retrieval: [AgentOrchestrator.get_task_result] *)

Definition terminal (s : TaskStatus) : bool :=
  match s with
  | COMPLETED | FAILED => true
  | _ => false
  end.

(** [for task in l: if task['id'] == task_id: return task]. *)
Definition find_task (task_id' : N) (l : list Task) : option Task :=
  List.find (λ t, N.eqb (task_id t) task_id') l.

(** The body of one iteration of the polling loop, before the sleep. *)
Definition poll_once (task_id' : N) (o : Orchestrator) : option Task :=
  match find_task task_id' (completed_tasks o) with
  | Some t => Some t
  | None =>
      match active_tasks o !! task_id' with
      | Some t => if terminal (status t) then Some t else None
      | None => None
      end
  end.

(** What the caller of [get_task_result] has got so far. *)
Inductive Polled :=
  | Found (t : Task)      (* [return task] *)
  | Absent                (* [return None] *)
  | StillPolling.         (* suspended in [asyncio.sleep(0.1)] *)

(** The delay of the [asyncio.sleep(0.1)] that ends an iteration of the
    loop, in microseconds. *)
Definition poll_interval : Z := 100000.

(** What one turn of the loop does: [return], or suspend in
    [asyncio.sleep] for the delay given. *)
Inductive Turn :=
  | Return (r : option Task)
  | Sleep (delay : Z).

(** One turn of the loop of [get_task_result]: the loop condition on the
    elapsed time and, when it holds, the loop body on the orchestrator as
    it is at that moment.  [elapsed] is the difference of the two clock
    readings, in microseconds.  The code compares its quotient by 10^6, the
    float [total_seconds()], with the float [timeout]; [timeout] is here
    the least number of microseconds whose quotient is not below the
    timeout of the call, 30000000 for the default of 30.0. *)
Definition get_task_result_turn (task_id' : N) (timeout elapsed : Z) (o : Orchestrator)
  : Turn :=
  if elapsed <? timeout then
    match poll_once task_id' o with
    | Some t => Return (Some t)
    | None => Sleep poll_interval
    end
  else Return None.

(** [get_task_result] along the sequence of its turns: each entry is the
    elapsed time read by the loop condition and the orchestrator as it is
    at that moment; between two entries the caller is suspended in the
    sleep of the turn before.  The function only reads the orchestrator. *)
Fixpoint get_task_result (task_id' : N) (timeout : Z)
  (observations : list (Z * Orchestrator)) : Polled :=
  match observations with
  | [] => StillPolling
  | (elapsed, o) :: later =>
      match get_task_result_turn task_id' timeout elapsed o with
      | Return (Some t) => Found t
      | Return None => Absent
      | Sleep _ => get_task_result task_id' timeout later
      end
  end.

(** The turns of a caller whose sleeps last at least as long as asked: the
    first reading of the elapsed time is at least [from], and each later
    one is at least [poll_interval] after the one before. *)
Fixpoint slept (from : Z) (observations : list (Z * Orchestrator)) : Prop :=
  match observations with
  | [] => True
  | (elapsed, _) :: later => from ≤ elapsed ∧ slept (elapsed + poll_interval) later
  end.

(** ** Specification-side vocabulary *)

(** The static task-type table of [_select_agent], read off its
    [if]/[elif] chain: the pool key a known type is routed to. *)
Definition routing_table (ty : string) : option string :=
  if in_list ty template_types then Some "template"
  else if in_list ty server_types then Some "server"
  else if in_list ty coordinator_types then Some "coordinator"
  else if in_list ty monitor_types then Some "monitor"
  else None.

Definition ids (l : list Task) : list N := task_id <$> l.

(** Membership of an id in the two partitions of the registry. *)
Definition in_active (o : Orchestrator) (i : N) : Prop := is_Some (active_tasks o !! i).
Definition in_completed (o : Orchestrator) (i : N) : Prop := i ∈ ids (completed_tasks o).

(** In exactly one of the two partitions. *)
Definition in_one_partition (o : Orchestrator) (i : N) : Prop :=
  (in_active o i ∧ ¬ in_completed o i) ∨ (¬ in_active o i ∧ in_completed o i).

(** An activity is executing on the agent stored under [key]: it is
    suspended inside that agent's [execute_task]. *)
Definition executing (o : Orchestrator) (key : string) : Prop :=
  ∃ c start_time, c ∈ coroutines o ∧ co_agent c = key ∧ co_phase c = Awaiting start_time.

(** The order of the life cycle: PENDING, then IN_PROGRESS, then a terminal
    status. *)
Definition status_rank (s : TaskStatus) : nat :=
  match s with
  | PENDING => 0
  | IN_PROGRESS => 1
  | COMPLETED | FAILED | CANCELLED => 2
  end.

(** The record of the task with a given id, wherever the orchestrator
    holds it: history, active registry or queue. *)
Definition lookup_task (o : Orchestrator) (i : N) : option Task :=
  match find_task i (completed_tasks o) with
  | Some t => Some t
  | None =>
      match active_tasks o !! i with
      | Some t => Some t
      | None => find_task i (task_queue o)
      end
  end.

(** ** The records that the operations build *)

(** The record that the routing-failure path of [_task_processor] appends
    to the history. *)
Definition routing_failed (t : Task) : Task :=
  set_error "No suitable agent found" (set_status FAILED t).

(** The record that [_task_processor] stores in [active_tasks] and hands to
    the execution activity. *)
Definition dispatched (now : Z) (a : Agent) (t : Task) : Task :=
  set_started_at now (set_assigned_agent (name a) (set_status IN_PROGRESS t)).

(** The record that [_execute_task] appends to the history. *)
Definition finished_task (start_time now : Z) (t : Task) (out : outcome Result) : Task :=
  match out with
  | Returned r =>
      set_status (if success r then COMPLETED else FAILED)
        (set_execution_time (now - start_time) (set_completed_at now (set_result r t)))
  | Raised msg => set_completed_at now (set_error msg (set_status FAILED t))
  end.

(** ** The invariant of reachable states *)

(** The ids of the tasks held by execution activities. *)
Definition co_ids (o : Orchestrator) : list N := ids (co_task <$> coroutines o).

(** Every task id the orchestrator holds: queue, execution activities and
    history. *)
Definition all_ids (o : Orchestrator) : list N :=
  ids (task_queue o) ++ co_ids o ++ ids (completed_tasks o).

(** What never changes of an agent of the pool. *)
Definition agent_ident (ka : string * Agent) : string * AgentClass * string :=
  (ka.1, agent_class ka.2, name ka.2).

(** [used] is the list of the uuids drawn so far.  The pool keeps its keys,
    classes and names; queued tasks are untouched, tasks of activities are
    IN_PROGRESS on an agent of the pool, tasks of the history are terminal;
    no id occurs twice among queue, activities and history; [active_tasks]
    holds exactly the tasks of the activities, under their ids; a busy agent
    has an activity suspended in its [execute_task]. *)
Record Inv (used : list N) (o : Orchestrator) : Prop := mkInv {
  inv_pool : agent_ident <$> agents o = agent_ident <$> init_agents;
  inv_queue : ∀ t, t ∈ task_queue o →
    status t = PENDING ∧ assigned_agent t = None ∧ started_at t = None;
  inv_running : ∀ c, c ∈ coroutines o →
    status (co_task c) = IN_PROGRESS ∧ is_Some (agents_get (agents o) (co_agent c));
  inv_history : ∀ t, t ∈ completed_tasks o → terminal (status t) = true;
  inv_nodup : NoDup (all_ids o);
  inv_used : ∀ i, i ∈ all_ids o → i ∈ used;
  inv_active : ∀ i t, active_tasks o !! i = Some t ↔
    ∃ c, c ∈ coroutines o ∧ co_task c = t ∧ task_id t = i;
  inv_busy : ∀ k a, agents_get (agents o) k = Some a → is_busy a = true → executing o k
}.

(** Only agents of a class whose [execute_task] awaits are ever busy. *)
Definition busy_only_awaiting_classes (o : Orchestrator) : Prop :=
  ∀ k a, agents_get (agents o) k = Some a → is_busy a = true →
         suspends (agent_class a) = true.

(** What one step may do to the record found under an id: nothing, drop it
    (eviction from the history), or move a task that is not yet terminal
    to a later stage. *)
Definition lookup_advance (o o' : Orchestrator) (i : N) : Prop :=
  lookup_task o' i = lookup_task o i
  ∨ (∃ t, lookup_task o i = Some t ∧ lookup_task o' i = None)
  ∨ (∃ t t', lookup_task o i = Some t ∧ lookup_task o' i = Some t' ∧
             terminal (status t) = false ∧
             (status_rank (status t) < status_rank (status t'))%nat).

(** ** Sample tasks and runs *)

(** The state at the end of a run from [__init__]. *)
Definition state_after (evs : list Event) : Orchestrator :=
  default init_orchestrator (run evs init_orchestrator).

(** A task as [submit_task] builds it. *)
Definition task_of (ty : string) (pin : option string) : Task :=
  mkTask 1 ty [] MEDIUM pin 0 PENDING None None None None None None.

(** The awaited collaborators answered with a success result. *)
Definition answer_ok : outcome Result := Returned (mkResult true None).

(** One task submitted, still in the queue. *)
Definition trace_pending : list Event :=
  [Submit 7 100 "search_templates" [] MEDIUM None].

(** One task submitted and dispatched to the template agent. *)
Definition trace_dispatched : list Event :=
  [Submit 7 100 "search_templates" [] MEDIUM None; Dispatch 101].

(** That task completed by the template agent. *)
Definition trace_completed : list Event :=
  trace_dispatched ++ [Resume 0 102 answer_ok; Resume 0 103 answer_ok].

(** Its record in the history. *)
Definition completed_sample : Task :=
  mkTask 7 "search_templates" [] MEDIUM None 100 COMPLETED (Some "TemplateAgent")
         (Some 101) (Some (mkResult true None)) (Some 103) (Some 1) None.

(** A second task, of an unknown type, submitted afterwards and run to its
    end. *)
Definition trace_more : list Event :=
  [Submit 8 104 "bogus_type" [] LOW None; Dispatch 105;
   Resume 0 106 answer_ok; Resume 0 107 answer_ok].

(** One task pinned to a name that is no key of the pool, in the queue. *)
Definition trace_ghost : list Event :=
  [Submit 9 100 "search_templates" [] MEDIUM (Some "ghost")].

(** Two tasks of the same type are dispatched to the server agent and
    both activities start; the first one then finishes. *)
Definition trace_overlap : list Event :=
  [Submit 1 10 "activate_workflow" [] MEDIUM None;
   Submit 2 11 "activate_workflow" [] MEDIUM None;
   Dispatch 12; Dispatch 13;
   Resume 0 14 answer_ok; Resume 1 15 answer_ok; Resume 0 16 answer_ok].

(** The activity of the second task of [trace_overlap]. *)
Definition overlap_second : Coroutine :=
  mkCoroutine "server"
    (mkTask 2 "activate_workflow" [] MEDIUM None 11 IN_PROGRESS (Some "ServerAgent")
            (Some 13) None None None None)
    (Awaiting 15).

(** A coordination task, dispatched to the coordinator agent. *)
Definition trace_coordinator : list Event :=
  [Submit 3 10 "coordinate_agents" [] MEDIUM None; Dispatch 11].

(** [n] tasks pinned to a name that is no key of the pool, each one
    submitted and then dequeued by the dispatcher. *)
Fixpoint ghost_rounds (n : nat) : list Event :=
  match n with
  | O => []
  | S k =>
      ghost_rounds k ++
      [Submit (N.of_nat k) 0 "search_templates" [] MEDIUM (Some "ghost"); Dispatch 1]
  end.

(** The task submitted in round [k] of [ghost_rounds]. *)
Definition ghost_task (k : nat) : Task :=
  mkTask (N.of_nat k) "search_templates" [] MEDIUM (Some "ghost") 0 PENDING
         None None None None None None.

(** A caller polls for task 7 with a timeout of 30 s: at 0 s the task is
    in the queue, at 0.1 s it is active, at 0.2 s it is in the history. *)
Definition observations_found : list (Z * Orchestrator) :=
  [(0, state_after trace_pending); (100000, state_after trace_dispatched);
   (200000, state_after trace_completed)].

(** ** Further vocabulary: counters of the pool and of the system *)

(** The work the orchestrator still holds or has counted in an outcome
    counter: queued tasks, execution activities, completed and failed
    executions. *)
Definition accounted (o : Orchestrator) : nat :=
  (length (task_queue o) + length (coroutines o) +
   completed_count (system_metrics o) + failed_count (system_metrics o))%nat.

(** The sum of a performance counter over the pool. *)
Definition pool_sum (f : Agent → nat) (ags : list (string * Agent)) : nat :=
  sum_list_with (λ ka, f ka.2) ags.

(** An agent is as [Agent.__init__] left its performance metrics until its
    first call of [update_performance]. *)
Definition never_ran (a : Agent) : Prop :=
  tasks_completed a = 0%nat ∧ tasks_failed a = 0%nat ∧ last_activity a = None.

(** The class of the agent that [__init__] stores under a key. *)
Definition pool_class (key : string) : option AgentClass :=
  agent_class <$> agents_get init_agents key.

(** Activities are suspended only in an [execute_task] that awaits. *)
Definition awaiting_only_in_awaiting_classes (o : Orchestrator) : Prop :=
  ∀ c s, c ∈ coroutines o → co_phase c = Awaiting s →
         ∃ cls, pool_class (co_agent c) = Some cls ∧ suspends cls = true.

(** The agents whose [execute_task] is a constant are as [__init__] built
    them. *)
Definition constant_agents_untouched (o : Orchestrator) : Prop :=
  ∀ k a0, agents_get init_agents k = Some a0 → suspends (agent_class a0) = false →
          agents_get (agents o) k = Some a0.

(** ** The health sweep: [AgentOrchestrator._agent_monitor] *)

(** The test of one agent in the sweep: [last_activity] is set and lies
    more than 3600 s (in microseconds here) before [now]. *)
Definition inactive_over_an_hour (now : Z) (a : Agent) : bool :=
  match last_activity a with
  | Some last => 3600000000 <? now - last
  | None => false
  end.

(** One sweep of [_agent_monitor] over [self.agents.values()]: the names
    for which a warning is logged, in the order of the pool.  The sweep
    writes nothing. *)
Definition _agent_monitor (now : Z) (ags : list (string * Agent)) : list string :=
  name <$> List.filter (inactive_over_an_hour now) ags.*2.

(** ** [ThinkingService._store_thought] of [src/services/thinking_service.py] *)

(** The bound on an agent's thinking history. *)
Definition thinking_history_cap : nat := 100.

(** [thinking_history] maps an agent name to the list of its stored
    thoughts, each one a dict with the keys ['id'] and ['thought'].
    [_store_thought] creates the list when the name is new, appends the
    entry and keeps the last 100 entries.  The thought itself is a dict
    that the function does not read. *)
Definition _store_thought {Thought : Type} (agent_name thought_id : string)
  (thought : Thought) (history : gmap string (list (string * Thought)))
  : gmap string (list (string * Thought)) :=
  let entries := default [] (history !! agent_name) ++ [(thought_id, thought)] in
  <[agent_name :=
      if (thinking_history_cap <? length entries)%nat
      then last_n thinking_history_cap entries else entries]> history.

(** A sequence of calls of [_store_thought], each with its agent name, its
    thought id and its thought. *)
Definition store_thoughts {Thought : Type} (calls : list (string * string * Thought))
  (history : gmap string (list (string * Thought)))
  : gmap string (list (string * Thought)) :=
  foldl (λ h call, _store_thought call.1.1 call.1.2 call.2 h) history calls.

(** The entries that a sequence of calls stores for one agent, in order. *)
Definition entries_of {Thought : Type} (agent_name : string)
  (calls : list (string * string * Thought)) : list (string * Thought) :=
  (λ call, (call.1.2, call.2)) <$>
    List.filter (λ call, String.eqb call.1.1 agent_name) calls.

(** ** [MemoryService] of [src/services/voice_service.py], without redis

    [AgentOrchestrator.__init__] builds [MemoryService()] with no redis
    client, so every method takes its [else] branch and works on
    [local_memory], a dict from user id to a dict from key to an item with
    the keys ['data'] and ['expires'].  A clock reading is, as elsewhere,
    what [datetime.now()] read, in microseconds since the epoch; the
    service turns it into a [float] with [timestamp()] and computes and
    compares the expiry of an item in floating point. *)

(** *** Python's [float]

    The IEEE 754 binary64 format with rounding to nearest even, as the
    Standard Library specifies it. *)
Definition float_of_int (z : Z) : spec_float := binary_normalize 53 1024 z 0 false.
Definition float_add : spec_float → spec_float → spec_float := SFadd 53 1024.
Definition float_div : spec_float → spec_float → spec_float := SFdiv 53 1024.
Definition float_lt : spec_float → spec_float → bool := SFltb.

(** [datetime.timestamp()] of the naive datetime that [datetime.now()]
    returned: the whole seconds since the epoch, an integer, plus
    [microsecond / 1e6]. *)
Definition timestamp (clock : Z) : spec_float :=
  float_add (float_of_int (clock / 1000000))
            (float_div (float_of_int (clock mod 1000000)) (float_of_int 1000000)).

(** *** Values and objects

    The values that the callers store and get back ([Any] in the source).
    A dict is a mutable object and is held by the address of the object; a
    list is held by value, since the service changes no list but the fresh
    ones it builds itself. *)
#[warnings="-register-all"] Inductive PyVal :=
  | PyNone
  | PyBool (b : bool)
  | PyInt (z : Z)
  | PyStr (s : string)
  | PyList (l : list PyVal)
  | PyRef (a : N).

(** The dict objects, by address: each one an association list in insertion
    order. *)
Definition Heap : Type := gmap N (list (string * PyVal)).

(** The truth value of a value, as [if v] and [v or w] test it. *)
Definition truthy (h : Heap) (v : PyVal) : bool :=
  match v with
  | PyNone => false
  | PyBool b => b
  | PyInt z => negb (z =? 0)
  | PyStr s => negb (String.eqb s EmptyString)
  | PyList l => negb (bool_decide (l = []))
  | PyRef a => match h !! a with Some [] => false | _ => true end
  end.

(** The slice [l[-limit:]] of a list, for every integer [limit]: the last
    [limit] items when [limit] is positive, the whole list when it is zero
    ([-0] is [0]), the list without its first [-limit] items when it is
    negative. *)
Definition slice_last {A : Type} (limit : Z) (l : list A) : list A :=
  if 0 <? limit then drop (length l - Z.to_nat limit) l
  else drop (Z.to_nat (- limit)) l.

(** [d[key] = v] on a dict: the value of an existing key is replaced in
    place, a new key goes last. *)
Fixpoint dict_set (key : string) (v : PyVal) (d : list (string * PyVal))
  : list (string * PyVal) :=
  match d with
  | [] => [(key, v)]
  | (k, w) :: rest =>
      if String.eqb k key then (k, v) :: rest else (k, w) :: dict_set key v rest
  end.

(** [d.get(key)]. *)
Fixpoint dict_get (key : string) (d : list (string * PyVal)) : option PyVal :=
  match d with
  | [] => None
  | (k, w) :: rest => if String.eqb k key then Some w else dict_get key rest
  end.

Record MemoryItem := mkMemoryItem {
  item_data : PyVal;
  item_expires : spec_float
}.

(** The times to live set by [__init__], in seconds. *)
Definition short_term_ttl : Z := 3600.
Definition long_term_ttl : Z := 86400 * 30.
Definition conversation_ttl : Z := 86400 * 7.

(** [datetime.now().timestamp() + ttl]: the int is converted and the sum is
    a float sum. *)
Definition expiry (now ttl : Z) : spec_float :=
  float_add (timestamp now) (float_of_int ttl).

(** [memory_item['expires'] > datetime.now().timestamp()]. *)
Definition live (item : MemoryItem) (now : Z) : bool :=
  float_lt (timestamp now) (item_expires item).

(** The assignment [self.local_memory[user_id][key] = {...}], after the
    user's dict has been created if it was missing. *)
Definition memory_put (user_id : Z) (key : string) (item : MemoryItem)
  (mem : gmap Z (gmap string MemoryItem)) : gmap Z (gmap string MemoryItem) :=
  <[user_id := <[key := item]> (default ∅ (mem !! user_id))]> mem.

(** [MemoryService.store_short_term]. *)
Definition store_short_term (user_id : Z) (key : string) (data : PyVal) (now : Z)
  (mem : gmap Z (gmap string MemoryItem)) : bool * gmap Z (gmap string MemoryItem) :=
  (true, memory_put user_id key (mkMemoryItem data (expiry now short_term_ttl)) mem).

(** The reading shared by [get_short_term] and [get_long_term]: a live item
    gives its data, an expired item is deleted from the user's dict and
    gives [None], as does a missing one. *)
Definition memory_get (user_id : Z) (key : string) (now : Z)
  (mem : gmap Z (gmap string MemoryItem)) : PyVal * gmap Z (gmap string MemoryItem) :=
  let user_memory := default ∅ (mem !! user_id) in
  match user_memory !! key with
  | Some item =>
      if live item now then (item_data item, mem)
      else (PyNone, <[user_id := delete key user_memory]> mem)
  | None => (PyNone, mem)
  end.

(** [MemoryService.get_short_term]. *)
Definition get_short_term (user_id : Z) (key : string) (now : Z)
  (mem : gmap Z (gmap string MemoryItem)) : PyVal * gmap Z (gmap string MemoryItem) :=
  memory_get user_id key now mem.

(** [MemoryService.store_long_term]: the slot is the key prefixed with
    ['long_'], in the same dict. *)
Definition store_long_term (user_id : Z) (key : string) (data : PyVal) (now : Z)
  (mem : gmap Z (gmap string MemoryItem)) : bool * gmap Z (gmap string MemoryItem) :=
  (true, memory_put user_id (String.append "long_" key)
           (mkMemoryItem data (expiry now long_term_ttl)) mem).

(** [MemoryService.get_long_term]. *)
Definition get_long_term (user_id : Z) (key : string) (now : Z)
  (mem : gmap Z (gmap string MemoryItem)) : PyVal * gmap Z (gmap string MemoryItem) :=
  memory_get user_id (String.append "long_" key) now mem.

(** [conversation[-limit:]], which raises [TypeError] ([None] here) on a
    value that cannot be sliced.  A string is sliced by characters. *)
Definition py_slice_last (limit : Z) (v : PyVal) : option PyVal :=
  match v with
  | PyList l => Some (PyList (slice_last limit l))
  | PyStr s =>
      Some (PyStr (String.string_of_list_ascii
                     (slice_last limit (String.list_ascii_of_string s))))
  | _ => None
  end.

(** [MemoryService.get_conversation_history]; it writes nothing, and every
    exception gives the empty list.  The slice is a new list of the same
    objects. *)
Definition get_conversation_history (user_id : Z) (limit : Z) (now : Z) (h : Heap)
  (mem : gmap Z (gmap string MemoryItem)) : PyVal :=
  let user_memory := default ∅ (mem !! user_id) in
  let conversation :=
    match user_memory !! "conversation" with
    | Some item => if live item now then item_data item else PyList []
    | None => PyList []
    end in
  if truthy h conversation then default (PyList []) (py_slice_last limit conversation)
  else PyList [].

(** [MemoryService.store_conversation].  The method reads the clock three
    times: in [get_conversation_history] ([read]), for the timestamp of the
    message ([stamp], rendered by [isoformat]) and for the expiry of the
    item ([now]).  The history is read with the default [limit] of
    [get_conversation_history], which is 10.

    [message['timestamp'] = ...] writes into the caller's dict, and
    [conversation.append(message)] appends that same object: the message is
    the address [a] of a dict of the heap, the heap is updated at [a], and
    the stored list holds [a].  A message that is no dict raises at the
    assignment; a history that is no list raises at [append], after the
    message has been stamped.  Either way the [try] block is left: the
    method returns [False] and has written nothing to [local_memory].  An
    address outside the heap is no object, and is treated as no dict. *)
Definition store_conversation (isoformat : Z → string) (user_id : Z) (message : PyVal)
  (read stamp now : Z) (h : Heap) (mem : gmap Z (gmap string MemoryItem))
  : bool * Heap * gmap Z (gmap string MemoryItem) :=
  let history := get_conversation_history user_id 10 read h mem in
  let conversation := if truthy h history then history else PyList [] in
  match message with
  | PyRef a =>
      match h !! a with
      | Some d =>
          let h := <[a := dict_set "timestamp" (PyStr (isoformat stamp)) d]> h in
          match conversation with
          | PyList l =>
              let conversation := l ++ [PyRef a] in
              let conversation :=
                if (50 <? length conversation)%nat then slice_last 50 conversation
                else conversation in
              (true, h, memory_put user_id "conversation"
                          (mkMemoryItem (PyList conversation) (expiry now conversation_ttl))
                          mem)
          | _ => (false, h, mem)
          end
      | None => (false, h, mem)
      end
  | _ => (false, h, mem)
  end.

(** ** The caller: [orchestrate_agents] of [src/telegram_bot.py] *)

(** The dict [intent_to_task], from the intent that the language model
    reports to the task type that is submitted. *)
Definition intent_to_task : list (string * string) :=
  [ ("search_template", "search_templates");
    ("get_categories", "categorize_templates");
    ("show_stats", "categorize_templates");
    ("import_template", "import_template");
    ("export_template", "export_workflow");
    ("activate_workflow", "activate_workflow");
    ("deactivate_workflow", "deactivate_workflow");
    ("list_workflows", "get_workflows");
    ("analyze_data", "system_health") ].

(** [intent_to_task.get(intent)]. *)
Fixpoint intent_get (d : list (string * string)) (intent : string) : option string :=
  match d with
  | [] => None
  | (k, v) :: rest => if String.eqb k intent then Some v else intent_get rest intent
  end.

(** The task that [orchestrate_agents] submits for an intent, as
    [submit_task] builds it: no pinned agent, priority MEDIUM.  [None] when
    nothing is submitted: the intent is not in the dict and the help
    message is returned instead, or it is ['set_api_key'], which is handled
    before the dict is read and is no key of it. *)
Definition orchestrated_task (intent : string) (uuid : N) (now : Z)
  (d : list (string * string)) : option Task :=
  ty ← intent_get intent_to_task intent;
  Some (mkTask uuid ty d MEDIUM None now PENDING None None None None None None).

(** ** The shape of the task records *)

(** A task as [submit_task] leaves it in the queue. *)
Definition queued_shape (t : Task) : Prop :=
  status t = PENDING ∧ assigned_agent t = None ∧ started_at t = None ∧
  result t = None ∧ completed_at t = None ∧ execution_time t = None ∧ error t = None.

(** A task as the dispatcher hands it to an execution activity. *)
Definition running_shape (t : Task) : Prop :=
  status t = IN_PROGRESS ∧ is_Some (assigned_agent t) ∧ is_Some (started_at t) ∧
  result t = None ∧ completed_at t = None ∧ execution_time t = None ∧ error t = None.

(** A task of the history: either an agent executed it, and its status
    follows the success flag of the result, or it failed at routing. *)
Definition history_shape (t : Task) : Prop :=
  (∃ r, result t = Some r ∧
        status t = (if success r then COMPLETED else FAILED) ∧
        is_Some (assigned_agent t) ∧ is_Some (started_at t) ∧
        is_Some (completed_at t) ∧ is_Some (execution_time t) ∧ error t = None)
  ∨ (status t = FAILED ∧ error t = Some "No suitable agent found" ∧ result t = None ∧
     assigned_agent t = None ∧ started_at t = None ∧ completed_at t = None).

Definition task_shapes (o : Orchestrator) : Prop :=
  (∀ t, t ∈ task_queue o → queued_shape t) ∧
  (∀ c, c ∈ coroutines o → running_shape (co_task c)) ∧
  (∀ t, t ∈ completed_tasks o → history_shape t).

(** The busy flag and [current_task] of every agent go together, and the
    current task of a busy agent is the task of an activity suspended in
    that agent's [execute_task]. *)
Definition current_tasks_are_executing (o : Orchestrator) : Prop :=
  ∀ k a, agents_get (agents o) k = Some a →
    (is_busy a = false ∧ current_task a = None) ∨
    (is_busy a = true ∧
     ∃ c s, c ∈ coroutines o ∧ co_agent c = k ∧ co_phase c = Awaiting s ∧
            current_task a = Some (co_task c)).

(** The history is within the cap up to the routing failures recorded
    since the last time [_execute_task] trimmed it. *)
Definition history_within_cap_up_to_routing_failures (o : Orchestrator) : Prop :=
  ∃ pre tail, completed_tasks o = pre ++ tail ∧ (length pre ≤ history_cap)%nat ∧
    ∀ t, t ∈ tail → status t = FAILED ∧ error t = Some "No suitable agent found".

(** * Properties *)

(** ** The agent pool *)

Lemma agents_get_set_eq ags key a a' :
  agents_get ags key = Some a → agents_get (agents_set ags key a') key = Some a'.
Proof.
  induction ags as [|[k b] rest IH]; simpl; [done|].
  destruct (String.eqb k key) eqn:E; simpl; rewrite E; auto.
Qed.

Lemma agents_get_set_ne ags key key' a' :
  key ≠ key' → agents_get (agents_set ags key a') key' = agents_get ags key'.
Proof.
  intros Hne. induction ags as [|[k b] rest IH]; simpl; [done|].
  destruct (String.eqb k key) eqn:E; simpl.
  - apply String.eqb_eq in E. subst k.
    destruct (String.eqb key key') eqn:E'; [|done].
    apply String.eqb_eq in E'. contradiction.
  - destruct (String.eqb k key'); auto.
Qed.

Lemma agents_set_keys ags key a' : (agents_set ags key a').*1 = ags.*1.
Proof.
  induction ags as [|[k b] rest IH]; simpl; [done|].
  destruct (String.eqb k key); csimpl; congruence.
Qed.

Lemma agents_get_elem_of ags key a : agents_get ags key = Some a → (key, a) ∈ ags.
Proof.
  induction ags as [|[k b] rest IH]; simpl; [done|].
  destruct (String.eqb k key) eqn:E.
  - apply String.eqb_eq in E. intros [= ->]. subst. left.
  - intros H. right. auto.
Qed.

Lemma agents_get_is_Some ags key : is_Some (agents_get ags key) ↔ key ∈ ags.*1.
Proof.
  induction ags as [|[k b] rest IH]; simpl.
  - split; [intros [? [=]]|intros H; inversion H].
  - destruct (String.eqb k key) eqn:E.
    + apply String.eqb_eq in E. subst. split; [intros _; left|eauto].
    + apply String.eqb_neq in E. rewrite IH. split; [right; done|].
      intros H. inversion H; subst; [done|done].
Qed.

(** ** Selection *)


Lemma pinned_None t : required_agent t = None → pinned t = None.
Proof. unfold pinned. by intros ->. Qed.

Lemma max_by_spec {A : Type} (key : A → nat) (rest : list A) : ∀ best,
  max_by key best rest ∈ best :: rest ∧
  ∀ x, x ∈ best :: rest → (key x ≤ key (max_by key best rest))%nat.
Proof.
  induction rest as [|y rest IH]; intros best; simpl.
  - split; [left|]. intros x Hx. apply list_elem_of_singleton in Hx. by subst.
  - destruct (IH (if (key best <? key y)%nat then y else best)) as [Hin Hmax].
    split.
    + destruct (key best <? key y)%nat.
      * by right.
      * apply elem_of_cons in Hin as [->|Hin]; [left|right; by right].
    + intros x Hx.
      assert (Hb : (key (if (key best <? key y)%nat then y else best) ≤
                    key (max_by key (if (key best <? key y)%nat then y else best) rest))%nat)
        by (apply Hmax; left).
      destruct (Nat.ltb_spec (key best) (key y)) as [Hlt|Hge].
      * apply elem_of_cons in Hx as [->|Hx]; [lia|].
        apply elem_of_cons in Hx as [->|Hx]; [lia|]. apply Hmax. by right.
      * apply elem_of_cons in Hx as [->|Hx]; [lia|].
        apply elem_of_cons in Hx as [->|Hx]; [lia|]. apply Hmax. by right.
Qed.

Lemma select_unknown_unpinned ags t :
  pinned t = None → routing_table (task_type t) = None →
  _select_agent ags t =
    match List.filter (λ ka, negb (is_busy ka.2)) ags with
    | [] => Returned None
    | first :: rest => Returned (Some (max_by (λ ka, tasks_completed ka.2) first rest))
    end.
Proof.
  unfold _select_agent, routing_table. intros -> H.
  destruct (in_list (task_type t) template_types); [done|].
  destruct (in_list (task_type t) server_types); [done|].
  destruct (in_list (task_type t) coordinator_types); [done|].
  destruct (in_list (task_type t) monitor_types); [done|]. done.
Qed.

Lemma filter_idle_elem_of (ags : list (string * Agent)) ka :
  ka ∈ List.filter (λ ka, negb (is_busy ka.2)) ags ↔ ka ∈ ags ∧ is_busy ka.2 = false.
Proof.
  rewrite !list_elem_of_In, filter_In. by rewrite negb_true_iff.
Qed.

(** ** The dispatcher iteration, case by case *)

Lemma task_processor_empty now o : task_queue o = [] → _task_processor now o = o.
Proof. unfold _task_processor. by intros ->. Qed.

Lemma task_processor_raised now o t queue msg :
  task_queue o = t :: queue → _select_agent (agents o) t = Raised msg →
  _task_processor now o = set_task_queue queue o.
Proof. unfold _task_processor. intros -> Hsel. simpl. by rewrite Hsel. Qed.

Lemma task_processor_no_agent now o t queue :
  task_queue o = t :: queue → _select_agent (agents o) t = Returned None →
  _task_processor now o =
    set_completed_tasks (completed_tasks o ++ [routing_failed t]) (set_task_queue queue o).
Proof. unfold _task_processor. intros -> Hsel. simpl. by rewrite Hsel. Qed.

Lemma task_processor_agent now o t queue key a :
  task_queue o = t :: queue → _select_agent (agents o) t = Returned (Some (key, a)) →
  _task_processor now o =
    set_coroutines (coroutines o ++ [mkCoroutine key (dispatched now a t) Spawned])
      (set_active_tasks (<[task_id t := dispatched now a t]> (active_tasks o))
         (set_task_queue queue o)).
Proof. unfold _task_processor. intros -> Hsel. simpl. by rewrite Hsel. Qed.

(** ** Claims about the selection policy *)

(** C7.  A task of an unknown type with no pinned worker: when some worker
    is idle, [_select_agent] returns an idle worker of the pool whose
    [tasks_completed] counter is maximal among the idle workers; when every
    worker is busy it returns no worker, and the dispatcher iteration then
    fails the task (FAILED, in the history, no activity launched). *)
Theorem select_unknown_type_idle_max (ags : list (string * Agent)) (t : Task) :
  pinned t = None →
  routing_table (task_type t) = None →
  ((∃ ka, ka ∈ ags ∧ is_busy ka.2 = false) →
     ∃ k a, _select_agent ags t = Returned (Some (k, a)) ∧
            (k, a) ∈ ags ∧ is_busy a = false ∧
            ∀ k' a', (k', a') ∈ ags → is_busy a' = false →
                     (tasks_completed a' ≤ tasks_completed a)%nat)
  ∧
  ((∀ ka, ka ∈ ags → is_busy ka.2 = true) →
     _select_agent ags t = Returned None ∧
     ∀ now o queue, agents o = ags → task_queue o = t :: queue →
       completed_tasks (_task_processor now o) = completed_tasks o ++ [routing_failed t] ∧
       status (routing_failed t) = FAILED ∧
       active_tasks (_task_processor now o) = active_tasks o ∧
       coroutines (_task_processor now o) = coroutines o).
Proof.
  intros Hpin Hty. rewrite (select_unknown_unpinned ags t Hpin Hty). split.
  - intros [ka0 Hka0]. apply filter_idle_elem_of in Hka0.
    destruct (List.filter _ ags) as [|first rest] eqn:Hf; [inversion Hka0|].
    destruct (max_by_spec (λ ka : string * Agent, tasks_completed ka.2) rest first)
      as [Hin Hmax].
    destruct (max_by _ first rest) as [k a] eqn:Hm.
    exists k, a. rewrite <- Hf in Hin. apply filter_idle_elem_of in Hin as [Hin Hidle].
    split; [done|]. split; [done|]. split; [done|].
    intros k' a' Hin' Hidle'.
    apply (Hmax (k', a')). rewrite <- Hf. by apply filter_idle_elem_of.
  - intros Hbusy.
    assert (Hf : List.filter (λ ka : string * Agent, negb (is_busy ka.2)) ags = []).
    { destruct (List.filter _ ags) as [|ka rest] eqn:Hf; [done|].
      assert (Hka : ka ∈ List.filter (λ ka, negb (is_busy ka.2)) ags)
        by (rewrite Hf; left).
      apply filter_idle_elem_of in Hka as [Hin Hidle].
      rewrite (Hbusy ka Hin) in Hidle. discriminate. }
    rewrite Hf. split; [done|].
    intros now o queue Hags Hq.
    rewrite (task_processor_no_agent now o t queue Hq); [done|].
    rewrite Hags, (select_unknown_unpinned ags t Hpin Hty), Hf. done.
Qed.

(** C6.  A task of a known type with no pinned worker is given to the
    worker that the static type table names, whatever the busy flags and
    the counters of the pool are. *)
Theorem select_known_type_by_table (ags : list (string * Agent)) (t : Task)
  (key : string) (a : Agent) :
  pinned t = None →
  routing_table (task_type t) = Some key →
  agents_get ags key = Some a →
  _select_agent ags t = Returned (Some (key, a))
  ∧ routing_table "search_templates" = Some "template"
  ∧ routing_table "analyze_template" = Some "template"
  ∧ routing_table "import_template" = Some "server"
  ∧ routing_table "activate_workflow" = Some "server"
  ∧ routing_table "system_health" = Some "monitor".
Proof.
  intros Hpin Hty Hget. split; [|by repeat split].
  unfold _select_agent, routing_table, agents_index in *. rewrite Hpin.
  destruct (in_list (task_type t) template_types);
    [injection Hty as <-; by rewrite Hget|].
  destruct (in_list (task_type t) server_types);
    [injection Hty as <-; by rewrite Hget|].
  destruct (in_list (task_type t) coordinator_types);
    [injection Hty as <-; by rewrite Hget|].
  destruct (in_list (task_type t) monitor_types);
    [injection Hty as <-; by rewrite Hget|].
  discriminate.
Qed.


(** ** The execution activity, case by case *)

Lemma finished_task_id s n t out : task_id (finished_task s n t out) = task_id t.
Proof. by destruct out. Qed.

Lemma finished_task_terminal s n t out : terminal (status (finished_task s n t out)) = true.
Proof. destruct out as [r|msg]; simpl; [by destruct (success r)|done]. Qed.

Lemma finish_agents s n t out o : agents (_execute_task_finish s n t out o) = agents o.
Proof. by destruct out. Qed.

Lemma finish_task_queue s n t out o :
  task_queue (_execute_task_finish s n t out o) = task_queue o.
Proof. by destruct out. Qed.

Lemma finish_coroutines s n t out o :
  coroutines (_execute_task_finish s n t out o) = coroutines o.
Proof. by destruct out. Qed.

Lemma finish_active_tasks s n t out o :
  active_tasks (_execute_task_finish s n t out o) = delete (task_id t) (active_tasks o).
Proof. by destruct out. Qed.

Lemma finish_completed_tasks s n t out o :
  completed_tasks (_execute_task_finish s n t out o) =
    match out with
    | Returned _ =>
        if (history_cap <? length (completed_tasks o ++ [finished_task s n t out]))%nat
        then last_n history_cap (completed_tasks o ++ [finished_task s n t out])
        else completed_tasks o ++ [finished_task s n t out]
    | Raised _ => completed_tasks o ++ [finished_task s n t out]
    end.
Proof. by destruct out. Qed.

Lemma last_n_suffix {A : Type} (n : nat) (l : list A) : last_n n l `suffix_of` l.
Proof. apply suffix_drop. Qed.

Lemma last_n_length {A : Type} (n : nat) (l : list A) :
  (n ≤ length l)%nat → length (last_n n l) = n.
Proof. intros H. unfold last_n. rewrite length_drop. lia. Qed.

Lemma last_n_snoc {A : Type} (n : nat) (l : list A) (x : A) :
  last (last_n (S n) (l ++ [x])) = Some x.
Proof.
  unfold last_n. rewrite length_app. simpl.
  replace (length l + 1 - S n)%nat with (length l - n)%nat by lia.
  rewrite drop_app_le by lia. apply last_snoc.
Qed.

(** The history after [_execute_task]: a suffix of the old history extended
    by the finished task, which is its last entry. *)
Lemma finish_completed_suffix s n t out o :
  completed_tasks (_execute_task_finish s n t out o)
    `suffix_of` (completed_tasks o ++ [finished_task s n t out]) ∧
  last (completed_tasks (_execute_task_finish s n t out o)) = Some (finished_task s n t out).
Proof.
  rewrite finish_completed_tasks. destruct out as [r|msg].
  - destruct (history_cap <? _)%nat.
    + split; [apply last_n_suffix|apply (last_n_snoc 999)].
    + split; [done|apply last_snoc].
  - split; [done|apply last_snoc].
Qed.

(** ** Resuming an activity, case by case *)

Lemma lookup_split {A : Type} (l : list A) (i : nat) (x : A) :
  l !! i = Some x →
  ∃ l1 l2, l = l1 ++ x :: l2 ∧ delete i l = l1 ++ l2 ∧ ∀ y, <[i:=y]> l = l1 ++ y :: l2.
Proof.
  intros H. exists (take i l), (drop (S i) l). split; [|split].
  - by rewrite take_drop_middle.
  - apply delete_take_drop.
  - intros y. apply insert_take_drop. by eapply lookup_lt_Some.
Qed.

Lemma resume_inv i now answer o o' :
  resume i now answer o = Some o' →
  ∃ c a, coroutines o !! i = Some c ∧ agents_get (agents o) (co_agent c) = Some a ∧
    ((co_phase c = Spawned ∧ suspends (agent_class a) = true ∧
      o' = set_coroutines
             (<[i := mkCoroutine (co_agent c) (co_task c) (Awaiting now)]> (coroutines o))
             (set_agents
                (agents_set (agents o) (co_agent c) (execute_task_enter (co_task c) a)) o))
     ∨
     (∃ start_time a' r,
        ((co_phase c = Spawned ∧ suspends (agent_class a) = false ∧ start_time = now ∧
          a' = a ∧ r = mkResult true None)
         ∨
         (co_phase c = Awaiting start_time ∧
          a' = execute_task_finally
                 (update_performance now (execute_task_result a (co_task c) answer) a) ∧
          r = execute_task_result a (co_task c) answer)) ∧
        o' = _execute_task_finish start_time now (co_task c) (Returned r)
               (set_coroutines (delete i (coroutines o))
                  (set_agents (agents_set (agents o) (co_agent c) a') o)))).
Proof.
  unfold resume. intros H.
  destruct (coroutines o !! i) as [c|] eqn:Hc; [|done]. simpl in H.
  destruct (agents_get (agents o) (co_agent c)) as [a|] eqn:Ha; [|done]. simpl in H.
  exists c, a. split; [done|]. split; [done|].
  destruct (co_phase c) as [|start_time] eqn:Hph.
  - destruct (suspends (agent_class a)) eqn:Hs.
    + left. injection H as <-. done.
    + right. exists now, a, (mkResult true None). injection H as <-.
      split; [left; done|done].
  - right. injection H as <-. eexists start_time, _, _. split; [right; done|done].
Qed.

Lemma execute_task_exit_agent now r a :
  agent_class (execute_task_finally (update_performance now r a)) = agent_class a ∧
  name (execute_task_finally (update_performance now r a)) = name a ∧
  is_busy (execute_task_finally (update_performance now r a)) = false.
Proof. unfold update_performance. by destruct (success r). Qed.

(** Case analysis on a resumption: either the activity enters an awaiting
    [execute_task], or [_execute_task] runs to its end; in the second case
    the agent keeps its class and name, and it is left busy only if it was
    busy before and the activity never suspended. *)
Lemma resume_cases (P : Orchestrator → Prop) i now answer o o' :
  resume i now answer o = Some o' →
  (∀ c a, coroutines o !! i = Some c → agents_get (agents o) (co_agent c) = Some a →
     co_phase c = Spawned → suspends (agent_class a) = true →
     P (set_coroutines
          (<[i := mkCoroutine (co_agent c) (co_task c) (Awaiting now)]> (coroutines o))
          (set_agents
             (agents_set (agents o) (co_agent c) (execute_task_enter (co_task c) a)) o))) →
  (∀ c a a' s r, coroutines o !! i = Some c → agents_get (agents o) (co_agent c) = Some a →
     agent_class a' = agent_class a → name a' = name a →
     (is_busy a' = true → a' = a ∧ co_phase c = Spawned) →
     P (_execute_task_finish s now (co_task c) (Returned r)
          (set_coroutines (delete i (coroutines o))
             (set_agents (agents_set (agents o) (co_agent c) a') o)))) →
  P o'.
Proof.
  intros Hres Henter Hfinish.
  apply resume_inv in Hres as (c & a & Hc & Ha & [(Hph & Hs & ->)|Hfin]).
  - by apply Henter.
  - destruct Hfin as (s & a' & r & [(Hph & Hs & -> & -> & ->)|(Hph & -> & ->)] & ->).
    + by apply (Hfinish c a).
    + destruct (execute_task_exit_agent now (execute_task_result a (co_task c) answer) a)
        as (Hcls & Hname & Hidle).
      apply (Hfinish c a); try done.
Qed.

(** ** The invariant of reachable states *)

Lemma Inv_init : Inv [] init_orchestrator.
Proof.
  split; simpl; try done.
  - intros t H. inversion H.
  - intros c H. inversion H.
  - intros t H. inversion H.
  - constructor.
  - intros i t. rewrite lookup_empty. split; [done|]. intros (c & H & _). inversion H.
  - intros k a Hget Hbusy. exfalso.
    unfold init_agents, new_agent in Hget. simpl in Hget.
    repeat (match type of Hget with
            | (if ?b then _ else _) = _ => destruct b
            end; [injection Hget as <-; discriminate|]).
    discriminate.
Qed.

Lemma pool_keys o used : Inv used o → (agents o).*1 = init_agents.*1.
Proof.
  intros HI. pose proof (inv_pool _ _ HI) as H.
  apply (f_equal (fmap (λ x : string * AgentClass * string, x.1.1))) in H.
  by rewrite <- !list_fmap_compose in H.
Qed.

Lemma NoDup_of_submseteq {A : Type} (l k : list A) : l ⊆+ k → NoDup k → NoDup l.
Proof.
  intros Hs Hk. apply submseteq_Permutation in Hs as [k' Hk'].
  rewrite Hk' in Hk. by apply NoDup_app in Hk as [? _].
Qed.

Lemma Inv_submit used o uuid now ty d prio pin :
  Inv used o → uuid ∉ used →
  Inv (used ++ [uuid]) (submit_task uuid now ty d prio pin o).2.
Proof.
  intros HI Hfresh.
  assert (Hperm : all_ids (submit_task uuid now ty d prio pin o).2 ≡ₚ uuid :: all_ids o).
  { unfold all_ids, co_ids, ids. simpl. rewrite fmap_app. simpl. solve_Permutation. }
  split; simpl.
  - apply HI.
  - intros t Ht. apply elem_of_app in Ht as [Ht|Ht]; [by apply HI|].
    apply list_elem_of_singleton in Ht. by subst.
  - apply HI.
  - apply HI.
  - rewrite Hperm. apply NoDup_cons. split; [|apply HI].
    intros Hin. apply Hfresh. by apply (inv_used _ _ HI).
  - intros i Hi. rewrite Hperm in Hi. apply elem_of_app.
    apply elem_of_cons in Hi as [->|Hi]; [right; left|left; by apply (inv_used _ _ HI)].
  - apply HI.
  - apply HI.
Qed.

Lemma elem_of_agents_get ags k a :
  NoDup ags.*1 → (k, a) ∈ ags → agents_get ags k = Some a.
Proof.
  induction ags as [|[k' b] rest IH]; csimpl; intros Hnd Hin; [inversion Hin|].
  apply NoDup_cons in Hnd as [Hk' Hnd].
  apply elem_of_cons in Hin as [[= -> ->]|Hin].
  - by rewrite String.eqb_refl.
  - destruct (String.eqb k' k) eqn:E; [|auto].
    apply String.eqb_eq in E. subst k'. exfalso. apply Hk'.
    apply list_elem_of_fmap. by exists (k, a).
Qed.

Lemma agents_index_Some ags key k a :
  agents_index ags key = Returned (Some (k, a)) → agents_get ags k = Some a.
Proof.
  unfold agents_index. destruct (agents_get ags key) eqn:E; [|done].
  by intros [= <- <-].
Qed.

Lemma select_Some_get ags t k a :
  NoDup ags.*1 → _select_agent ags t = Returned (Some (k, a)) →
  agents_get ags k = Some a.
Proof.
  intros Hnd. unfold _select_agent.
  destruct (pinned t) as [pin|].
  { destruct (agents_get ags pin) eqn:E; simpl; [|done]. by intros [= <- <-]. }
  destruct (in_list _ template_types); [apply agents_index_Some|].
  destruct (in_list _ server_types); [apply agents_index_Some|].
  destruct (in_list _ coordinator_types); [apply agents_index_Some|].
  destruct (in_list _ monitor_types); [apply agents_index_Some|].
  destruct (List.filter _ ags) as [|first rest] eqn:Hf; [done|].
  intros [= Hm].
  destruct (max_by_spec (λ ka : string * Agent, tasks_completed ka.2) rest first)
    as [Hin _].
  rewrite Hm, <- Hf in Hin. apply filter_idle_elem_of in Hin as [Hin _].
  by apply elem_of_agents_get.
Qed.

Lemma init_keys_NoDup : NoDup init_agents.*1.
Proof. apply (bool_decide_unpack _). by vm_compute. Qed.

Lemma agents_index_pool ags key :
  ags.*1 = init_agents.*1 → key ∈ init_agents.*1 →
  ∃ a, agents_index ags key = Returned (Some (key, a)).
Proof.
  intros Hk Hin. rewrite <- Hk in Hin. apply agents_get_is_Some in Hin as [a Ha].
  exists a. unfold agents_index. by rewrite Ha.
Qed.

(** With the pool of [__init__], [_select_agent] raises no [KeyError]. *)
Lemma select_pool_returns ags t :
  ags.*1 = init_agents.*1 → ∃ r, _select_agent ags t = Returned r.
Proof.
  intros Hk. unfold _select_agent.
  destruct (pinned t) as [pin|]; [eauto|].
  destruct (in_list _ template_types).
  { destruct (agents_index_pool ags "template" Hk) as [a ->]; [|eauto].
    apply (bool_decide_unpack _). by vm_compute. }
  destruct (in_list _ server_types).
  { destruct (agents_index_pool ags "server" Hk) as [a ->]; [|eauto].
    apply (bool_decide_unpack _). by vm_compute. }
  destruct (in_list _ coordinator_types).
  { destruct (agents_index_pool ags "coordinator" Hk) as [a ->]; [|eauto].
    apply (bool_decide_unpack _). by vm_compute. }
  destruct (in_list _ monitor_types).
  { destruct (agents_index_pool ags "monitor" Hk) as [a ->]; [|eauto].
    apply (bool_decide_unpack _). by vm_compute. }
  destruct (List.filter _ ags); eauto.
Qed.

Lemma dispatched_id now a t : task_id (dispatched now a t) = task_id t.
Proof. done. Qed.

Lemma Inv_dispatch used o now : Inv used o → Inv used (_task_processor now o).
Proof.
  intros HI.
  destruct (task_queue o) as [|t queue] eqn:Hq.
  { by rewrite task_processor_empty. }
  pose proof (pool_keys _ _ HI) as Hkeys.
  assert (Hnd : NoDup (agents o).*1) by (rewrite Hkeys; apply init_keys_NoDup).
  destruct (select_pool_returns (agents o) t Hkeys) as [[[key a]|] Hsel].
  - (* an agent was found *)
    rewrite (task_processor_agent now o t queue key a Hq Hsel).
    pose proof (select_Some_get _ _ _ _ Hnd Hsel) as Hget.
    assert (Hperm : all_ids
      (set_coroutines (coroutines o ++ [mkCoroutine key (dispatched now a t) Spawned])
         (set_active_tasks (<[task_id t := dispatched now a t]> (active_tasks o))
            (set_task_queue queue o))) ≡ₚ all_ids o).
    { unfold all_ids, co_ids, ids. simpl. rewrite Hq, !fmap_app. simpl. solve_Permutation. }
    pose proof (inv_nodup _ _ HI) as Hnodup.
    assert (Hnew : ∀ c, c ∈ coroutines o → task_id (co_task c) ≠ task_id t).
    { intros c Hc Heq. unfold all_ids in Hnodup. rewrite Hq in Hnodup.
      unfold ids in Hnodup at 1. rewrite fmap_cons in Hnodup.
      apply NoDup_cons in Hnodup as [Hnotin _]. apply Hnotin.
      apply elem_of_app. right. apply elem_of_app. left.
      unfold co_ids, ids. rewrite <- Heq.
      apply list_elem_of_fmap_2, list_elem_of_fmap_2. done. }
    split; simpl.
    + apply HI.
    + intros t' Ht'. apply (inv_queue _ _ HI). rewrite Hq. by right.
    + intros c Hc. apply elem_of_app in Hc as [Hc|Hc]; [by apply HI|].
      apply list_elem_of_singleton in Hc. subst c. simpl. split; [done|eauto].
    + apply HI.
    + by rewrite Hperm.
    + intros i Hi. rewrite Hperm in Hi. by apply (inv_used _ _ HI).
    + intros i t'. destruct (decide (i = task_id t)) as [->|Hne].
      * rewrite lookup_insert_eq. split.
        -- intros [= <-]. eexists. split; [apply elem_of_app; right; left|done].
        -- intros (c & Hc & Hct & Hid).
           apply elem_of_app in Hc as [Hc|Hc]; [by destruct (Hnew c Hc); rewrite Hct|].
           apply list_elem_of_singleton in Hc. subst c. simpl in Hct. by subst.
      * rewrite lookup_insert_ne by done. rewrite (inv_active _ _ HI). split.
        -- intros (c & Hc & Hct & Hid). exists c. split; [apply elem_of_app; by left|done].
        -- intros (c & Hc & Hct & Hid).
           apply elem_of_app in Hc as [Hc|Hc]; [by exists c|].
           apply list_elem_of_singleton in Hc. subst c. simpl in Hct. subst t'.
           by destruct Hne.
    + intros k b Hk Hb. destruct (inv_busy _ _ HI k b Hk Hb) as (c & s & Hc & Hck & Hph).
      exists c, s. split; [apply elem_of_app; by left|done].
  - (* routing failure *)
    rewrite (task_processor_no_agent now o t queue Hq Hsel).
    assert (Hperm : all_ids
      (set_completed_tasks (completed_tasks o ++ [routing_failed t])
         (set_task_queue queue o)) ≡ₚ all_ids o).
    { unfold all_ids, co_ids, ids. simpl. rewrite Hq, !fmap_app. simpl. solve_Permutation. }
    split; simpl.
    + apply HI.
    + intros t' Ht'. apply (inv_queue _ _ HI). rewrite Hq. by right.
    + apply HI.
    + intros t' Ht'. apply elem_of_app in Ht' as [Ht'|Ht']; [by apply HI|].
      apply list_elem_of_singleton in Ht'. by subst.
    + rewrite Hperm. apply HI.
    + intros i Hi. rewrite Hperm in Hi. by apply (inv_used _ _ HI).
    + apply HI.
    + apply HI.
Qed.

Lemma agents_set_ident ags key a a' :
  agents_get ags key = Some a →
  agent_class a' = agent_class a → name a' = name a →
  agent_ident <$> agents_set ags key a' = agent_ident <$> ags.
Proof.
  intros Hget Hc Hn. induction ags as [|[k b] rest IH]; simpl in *; [done|].
  destruct (String.eqb k key) eqn:E; csimpl.
  - injection Hget as ->. unfold agent_ident. simpl. by rewrite Hc, Hn.
  - f_equal. auto.
Qed.

Lemma agents_get_set_is_Some ags key a' key' :
  is_Some (agents_get (agents_set ags key a') key') ↔ is_Some (agents_get ags key').
Proof. by rewrite !agents_get_is_Some, agents_set_keys. Qed.

Lemma Inv_enter used o i c a now :
  Inv used o →
  coroutines o !! i = Some c →
  agents_get (agents o) (co_agent c) = Some a →
  co_phase c = Spawned →
  Inv used
    (set_coroutines
       (<[i := mkCoroutine (co_agent c) (co_task c) (Awaiting now)]> (coroutines o))
       (set_agents
          (agents_set (agents o) (co_agent c) (execute_task_enter (co_task c) a)) o)).
Proof.
  intros HI Hc Ha Hph.
  destruct (lookup_split _ _ _ Hc) as (l1 & l2 & Hco & _ & Hins).
  rewrite Hins.
  assert (Hmem : ∀ c', c' ∈ l1 ++ mkCoroutine (co_agent c) (co_task c) (Awaiting now) :: l2 →
                 ∃ c0, c0 ∈ coroutines o ∧ co_task c0 = co_task c' ∧ co_agent c0 = co_agent c').
  { intros c' Hc'. rewrite Hco. apply elem_of_app in Hc' as [Hc'|Hc'].
    - exists c'. split; [apply elem_of_app; by left|done].
    - apply elem_of_cons in Hc' as [->|Hc'].
      + exists c. split; [apply elem_of_app; right; left|done].
      + exists c'. split; [apply elem_of_app; right; by right|done]. }
  assert (Hmem' : ∀ c0, c0 ∈ coroutines o →
                  c0 = c ∨ c0 ∈ l1 ++ mkCoroutine (co_agent c) (co_task c) (Awaiting now) :: l2).
  { intros c0 Hc0. rewrite Hco in Hc0. apply elem_of_app in Hc0 as [Hc0|Hc0].
    - right. apply elem_of_app; by left.
    - apply elem_of_cons in Hc0 as [->|Hc0]; [by left|].
      right. apply elem_of_app; right; by right. }
  assert (Hids : all_ids
    (set_coroutines (l1 ++ mkCoroutine (co_agent c) (co_task c) (Awaiting now) :: l2)
       (set_agents
          (agents_set (agents o) (co_agent c) (execute_task_enter (co_task c) a)) o))
    = all_ids o).
  { unfold all_ids, co_ids. simpl. rewrite Hco, !fmap_app. done. }
  split; simpl.
  - rewrite (agents_set_ident _ _ a); [apply HI|done..].
  - apply HI.
  - intros c' Hc'. destruct (Hmem c' Hc') as (c0 & Hc0 & Ht & Hk).
    rewrite agents_get_set_is_Some, <- Ht, <- Hk. by apply HI.
  - apply HI.
  - rewrite Hids. apply HI.
  - intros j Hj. rewrite Hids in Hj. by apply (inv_used _ _ HI).
  - intros j t. rewrite (inv_active _ _ HI). split.
    + intros (c0 & Hc0 & Ht & Hid). destruct (Hmem' c0 Hc0) as [->|Hin].
      * eexists. split; [apply elem_of_app; right; left|done].
      * by exists c0.
    + intros (c' & Hc' & Ht & Hid). destruct (Hmem c' Hc') as (c0 & Hc0 & Ht0 & _).
      exists c0. split; [done|]. by rewrite Ht0.
  - intros k b Hk Hb. destruct (decide (k = co_agent c)) as [->|Hne].
    + eexists _, now. split; [apply elem_of_app; right; left|done].
    + rewrite agents_get_set_ne in Hk by done.
      destruct (inv_busy _ _ HI k b Hk Hb) as (c0 & s & Hc0 & Hck & Hph0).
      exists c0, s. split; [|done]. destruct (Hmem' c0 Hc0) as [->|Hin]; [congruence|done].
Qed.

Lemma Inv_finish used o i c a a' s now r :
  Inv used o →
  coroutines o !! i = Some c →
  agents_get (agents o) (co_agent c) = Some a →
  agent_class a' = agent_class a → name a' = name a →
  (is_busy a' = true → a' = a ∧ co_phase c = Spawned) →
  Inv used
    (_execute_task_finish s now (co_task c) (Returned r)
       (set_coroutines (delete i (coroutines o))
          (set_agents (agents_set (agents o) (co_agent c) a') o))).
Proof.
  intros HI Hc Ha Hcls Hname Hbusy.
  destruct (lookup_split _ _ _ Hc) as (l1 & l2 & Hco & Hdel & _).
  rewrite Hdel.
  set (o1 := set_coroutines (l1 ++ l2)
               (set_agents (agents_set (agents o) (co_agent c) a') o)).
  destruct (finish_completed_suffix s now (co_task c) (Returned r) o1)
    as [[old Hsuf] Hlast].
  set (ft := finished_task s now (co_task c) (Returned r)) in *.
  set (o' := _execute_task_finish s now (co_task c) (Returned r) o1) in *.
  change (completed_tasks o1) with (completed_tasks o) in Hsuf.
  assert (Hags : agents o' = agents_set (agents o) (co_agent c) a')
    by (unfold o'; by rewrite finish_agents).
  assert (Hqueue : task_queue o' = task_queue o)
    by (unfold o'; by rewrite finish_task_queue).
  assert (Hcos : coroutines o' = l1 ++ l2)
    by (unfold o'; by rewrite finish_coroutines).
  assert (Hact : active_tasks o' = delete (task_id (co_task c)) (active_tasks o))
    by (unfold o'; by rewrite finish_active_tasks).
  assert (Hftid : task_id ft = task_id (co_task c)) by apply finished_task_id.
  assert (Hftst : terminal (status ft) = true) by apply finished_task_terminal.
  clearbody o' ft. clear o1.
  assert (Hsub : all_ids o' ⊆+ all_ids o).
  { unfold all_ids, co_ids. rewrite Hqueue, Hcos, Hco.
    apply (f_equal ids) in Hsuf. unfold ids in *. rewrite !fmap_app in Hsuf.
    rewrite !fmap_app. simpl in *. rewrite Hftid in Hsuf.
    transitivity ((task_id <$> task_queue o) ++
                  ((task_id <$> (co_task <$> l1)) ++ (task_id <$> (co_task <$> l2))) ++
                  (task_id <$> old) ++ (task_id <$> completed_tasks o')).
    - apply submseteq_skips_l, submseteq_skips_l, submseteq_inserts_l. done.
    - rewrite <- Hsuf. apply Permutation_submseteq. solve_Permutation. }
  pose proof (inv_nodup _ _ HI) as Hnodup.
  assert (Hothers : ∀ c', c' ∈ l1 ++ l2 → task_id (co_task c') ≠ task_id (co_task c)).
  { intros c' Hc' Heq. unfold all_ids, co_ids, ids in Hnodup.
    rewrite Hco, !fmap_app, !fmap_cons in Hnodup.
    apply NoDup_app in Hnodup as (_ & _ & Hnodup).
    apply NoDup_app in Hnodup as (Hnodup & _ & _).
    apply NoDup_app in Hnodup as (_ & H1 & H2).
    apply NoDup_cons in H2 as [H2 _].
    apply elem_of_app in Hc' as [Hc'|Hc'].
    - apply (H1 (task_id (co_task c'))).
      + apply list_elem_of_fmap_2, list_elem_of_fmap_2. done.
      + rewrite Heq. left.
    - apply H2. rewrite <- Heq. apply list_elem_of_fmap_2, list_elem_of_fmap_2. done. }
  assert (Hin : ∀ c', c' ∈ l1 ++ l2 → c' ∈ coroutines o).
  { intros c' Hc'. rewrite Hco. apply elem_of_app in Hc' as [?|?];
      apply elem_of_app; [by left|right; by right]. }
  split.
  - rewrite Hags, (agents_set_ident _ _ a); [apply HI|done..].
  - rewrite Hqueue. apply HI.
  - rewrite Hcos, Hags. intros c' Hc'. rewrite agents_get_set_is_Some.
    apply HI. by apply Hin.
  - intros t Ht.
    assert (Ht' : t ∈ completed_tasks o ++ [ft])
      by (rewrite Hsuf; apply elem_of_app; by right).
    apply elem_of_app in Ht' as [Ht'|Ht']; [by apply HI|].
    apply list_elem_of_singleton in Ht'. by subst t.
  - by apply (NoDup_of_submseteq _ _ Hsub).
  - intros j Hj. apply (inv_used _ _ HI). by apply (elem_of_submseteq _ _ _ Hj).
  - intros j t. rewrite Hact, Hcos. destruct (decide (j = task_id (co_task c))) as [->|Hne].
    + rewrite lookup_delete_eq. split; [done|].
      intros (c' & Hc' & Ht & Hid). destruct (Hothers c' Hc'). by rewrite Ht.
    + rewrite lookup_delete_ne by done. rewrite (inv_active _ _ HI). split.
      * intros (c0 & Hc0 & Ht & Hid). exists c0. split; [|done].
        rewrite Hco in Hc0. apply elem_of_app in Hc0 as [?|Hc0]; [apply elem_of_app; by left|].
        apply elem_of_cons in Hc0 as [->|?]; [|apply elem_of_app; by right].
        destruct Hne. by rewrite <- Hid, Ht.
      * intros (c' & Hc' & Ht & Hid). exists c'. split; [by apply Hin|done].
  - rewrite Hags. intros k b Hk Hb. unfold executing. rewrite Hcos.
    assert (Hold : ∃ b0, agents_get (agents o) k = Some b0 ∧ is_busy b0 = true ∧
                         (k = co_agent c → co_phase c = Spawned)).
    { destruct (decide (k = co_agent c)) as [->|Hne].
      - rewrite (agents_get_set_eq _ _ a) in Hk by done. injection Hk as <-.
        destruct (Hbusy Hb) as [-> Hsp]. by exists a.
      - rewrite agents_get_set_ne in Hk by done. exists b. done. }
    destruct Hold as (b0 & Hk0 & Hb0 & Hsp).
    destruct (inv_busy _ _ HI k b0 Hk0 Hb0) as (c0 & s0 & Hc0 & Hck & Hph0).
    exists c0, s0. split; [|done].
    rewrite Hco in Hc0. apply elem_of_app in Hc0 as [?|Hc0]; [apply elem_of_app; by left|].
    apply elem_of_cons in Hc0 as [->|?]; [|apply elem_of_app; by right].
    rewrite Hsp in Hph0 by done. discriminate.
Qed.

Lemma Inv_step used o ev o' :
  Inv used o → step o ev = Some o' →
  (∀ i, i ∈ submitted [ev] → i ∉ used) →
  Inv (used ++ submitted [ev]) o'.
Proof.
  intros HI Hstep Hfresh. destruct ev as [uuid now ty d prio pin|now|i now answer]; simpl in *.
  - injection Hstep as <-. apply Inv_submit; [done|]. apply Hfresh. left.
  - injection Hstep as <-. rewrite app_nil_r. by apply Inv_dispatch.
  - rewrite app_nil_r. pattern o'. apply (resume_cases _ _ _ _ _ _ Hstep).
    + intros c a Hc Ha Hph _. by apply Inv_enter.
    + intros c a a' s r Hc Ha Hcls Hname Hb. by apply (Inv_finish _ _ _ _ a).
Qed.

Lemma run_app evs1 evs2 o : run (evs1 ++ evs2) o = run evs1 o ≫= run evs2.
Proof.
  revert o. induction evs1 as [|ev evs1 IH]; intros o; simpl; [done|].
  destruct (step o ev); simpl; [apply IH|done].
Qed.

Lemma submitted_app evs1 evs2 : submitted (evs1 ++ evs2) = submitted evs1 ++ submitted evs2.
Proof.
  induction evs1 as [|[] evs1 IH]; simpl; [done| |done|done]. by rewrite IH.
Qed.

Lemma submitted_cons ev evs : submitted (ev :: evs) = submitted [ev] ++ submitted evs.
Proof. apply (submitted_app [ev] evs). Qed.

Lemma Inv_run evs : ∀ used o o',
  Inv used o → NoDup (used ++ submitted evs) → run evs o = Some o' →
  Inv (used ++ submitted evs) o'.
Proof.
  induction evs as [|ev evs IH]; intros used o o' HI Hnd Hrun.
  - simpl in *. injection Hrun as <-. by rewrite app_nil_r.
  - simpl in Hrun. destruct (step o ev) as [o1|] eqn:Hstep; [|done]. simpl in Hrun.
    rewrite submitted_cons in *. rewrite app_assoc in *.
    apply (IH _ o1); [|done|done].
    apply (Inv_step _ o); [done|done|].
    intros i Hi Hu. apply NoDup_app in Hnd as (Hnd & _ & _).
    apply NoDup_app in Hnd as (_ & Hdis & _). by apply (Hdis i).
Qed.

Lemma reachable_Inv o : reachable o → ∃ used, Inv used o.
Proof.
  intros (evs & Hnd & Hrun). exists ([] ++ submitted evs).
  apply (Inv_run evs [] init_orchestrator); [apply Inv_init|done|done].
Qed.

(** ** Looking a task up by id *)

Lemma find_task_app i l k :
  find_task i (l ++ k) =
    match find_task i l with Some t => Some t | None => find_task i k end.
Proof.
  unfold find_task. induction l as [|t l IH]; simpl; [done|].
  by destruct (N.eqb (task_id t) i).
Qed.

Lemma find_task_Some i l t : find_task i l = Some t → t ∈ l ∧ task_id t = i.
Proof.
  unfold find_task. intros H. apply find_some in H as [Hin Heq].
  split; [by apply list_elem_of_In|by apply N.eqb_eq].
Qed.

Lemma find_task_None i l : find_task i l = None ↔ i ∉ ids l.
Proof.
  unfold find_task, ids. induction l as [|t l IH]; simpl.
  - split; [intros _ H; inversion H|done].
  - rewrite ?fmap_cons, not_elem_of_cons. destruct (N.eqb_spec (task_id t) i) as [<-|Hne].
    + split; [done|]. by intros [? _].
    + rewrite IH. split; [by split|by intros [_ ?]].
Qed.

Lemma find_task_unique l t : NoDup (ids l) → t ∈ l → find_task (task_id t) l = Some t.
Proof.
  unfold find_task, ids. induction l as [|t' l IH]; simpl; intros Hnd Hin; [inversion Hin|].
  rewrite ?fmap_cons in Hnd. apply NoDup_cons in Hnd as [Hnotin Hnd].
  apply elem_of_cons in Hin as [->|Hin]; [by rewrite N.eqb_refl|].
  destruct (N.eqb_spec (task_id t') (task_id t)) as [Heq|Hne]; [|auto].
  exfalso. apply Hnotin. rewrite Heq. by apply list_elem_of_fmap_2.
Qed.

(** ** Where the ids are *)

Lemma in_active_co_ids used o i : Inv used o → in_active o i ↔ i ∈ co_ids o.
Proof.
  intros HI. unfold in_active, co_ids, ids. split.
  - intros [t Ht]. apply (inv_active _ _ HI) in Ht. destruct Ht as (c & Hc & <- & <-).
    apply list_elem_of_fmap_2, list_elem_of_fmap_2. done.
  - intros Hi. apply list_elem_of_fmap in Hi as (t & -> & Ht).
    apply list_elem_of_fmap in Ht as (c & -> & Hc).
    exists (co_task c). apply (inv_active _ _ HI). by exists c.
Qed.

Lemma Inv_disjoint used o i :
  Inv used o →
  (i ∈ ids (task_queue o) → (i ∉ co_ids o) ∧ (i ∉ ids (completed_tasks o))) ∧
  (i ∈ co_ids o → i ∉ ids (completed_tasks o)).
Proof.
  intros HI. pose proof (inv_nodup _ _ HI) as Hnd. unfold all_ids in Hnd.
  apply NoDup_app in Hnd as (_ & Hq & Hnd). apply NoDup_app in Hnd as (_ & Hc & _).
  split.
  - intros Hi. specialize (Hq i Hi). rewrite elem_of_app in Hq. split; intros ?; apply Hq; auto.
  - intros Hi. by apply Hc.
Qed.

Lemma Inv_partition used o i :
  Inv used o →
  ¬ (in_active o i ∧ in_completed o i) ∧
  (i ∈ ids (task_queue o) → ¬ in_active o i ∧ ¬ in_completed o i).
Proof.
  intros HI. destruct (Inv_disjoint used o i HI) as [Hq Hc]. unfold in_completed. split.
  - intros [Ha Hcomp]. apply (in_active_co_ids _ _ _ HI) in Ha. exact (Hc Ha Hcomp).
  - intros Hi. destruct (Hq Hi) as [H1 H2]. split; [|done].
    intros Ha. apply (in_active_co_ids _ _ _ HI) in Ha. exact (H1 Ha).
Qed.

Lemma in_one_partition_intro used o i :
  Inv used o → in_active o i ∨ in_completed o i → in_one_partition o i.
Proof.
  intros HI H. destruct (Inv_partition used o i HI) as [Hnb _]. unfold in_one_partition.
  destruct H as [Ha|Hc].
  - left. split; [done|]. intros Hc. apply Hnb. by split.
  - right. split; [|done]. intros Ha. apply Hnb. by split.
Qed.

Lemma dispatch_registers used o now t queue :
  Inv used o → task_queue o = t :: queue →
  in_one_partition (_task_processor now o) (task_id t).
Proof.
  intros HI Hq. apply (in_one_partition_intro used); [by apply Inv_dispatch|].
  destruct (select_pool_returns (agents o) t (pool_keys _ _ HI)) as [[[key a]|] Hsel].
  - left. rewrite (task_processor_agent now o t queue key a Hq Hsel).
    unfold in_active. simpl. rewrite lookup_insert_eq. eauto.
  - right. rewrite (task_processor_no_agent now o t queue Hq Hsel).
    unfold in_completed, ids. simpl. rewrite fmap_app. apply elem_of_app. right. left.
Qed.

Lemma partition_finish used o i c a a' s now r j :
  Inv used o →
  coroutines o !! i = Some c →
  agents_get (agents o) (co_agent c) = Some a →
  agent_class a' = agent_class a → name a' = name a →
  (is_busy a' = true → a' = a ∧ co_phase c = Spawned) →
  let o' := _execute_task_finish s now (co_task c) (Returned r)
              (set_coroutines (delete i (coroutines o))
                 (set_agents (agents_set (agents o) (co_agent c) a') o)) in
  in_one_partition o j →
  in_one_partition o' j ∨
  (in_completed o j ∧ ¬ in_active o' j ∧ ¬ in_completed o' j ∧
   (history_cap ≤ length (completed_tasks o))%nat).
Proof.
  intros HI Hc Ha Hcls Hname Hbusy o' Hone.
  assert (HI' : Inv used o') by (by apply (Inv_finish _ _ _ _ a)).
  assert (Hact : active_tasks o' = delete (task_id (co_task c)) (active_tasks o))
    by (unfold o'; by rewrite finish_active_tasks).
  destruct (finish_completed_suffix s now (co_task c) (Returned r)
              (set_coroutines (delete i (coroutines o))
                 (set_agents (agents_set (agents o) (co_agent c) a') o)))
    as [_ Hlast].
  fold o' in Hlast.
  assert (Hcomp : completed_tasks o' =
            if (history_cap <? length (completed_tasks o ++
                   [finished_task s now (co_task c) (Returned r)]))%nat
            then last_n history_cap (completed_tasks o ++
                   [finished_task s now (co_task c) (Returned r)])
            else completed_tasks o ++ [finished_task s now (co_task c) (Returned r)])
    by (unfold o'; by rewrite finish_completed_tasks).
  assert (Hftid : task_id (finished_task s now (co_task c) (Returned r))
                  = task_id (co_task c)) by apply finished_task_id.
  set (ft := finished_task s now (co_task c) (Returned r)) in *.
  clearbody o' ft.
  destruct (decide (j = task_id (co_task c))) as [->|Hne].
  { left. apply (in_one_partition_intro used); [done|]. right.
    unfold in_completed, ids. rewrite <- Hftid. apply list_elem_of_fmap_2.
    by apply last_Some_elem_of. }
  destruct Hone as [[Hja Hjc]|[Hja Hjc]].
  - left. apply (in_one_partition_intro used); [done|]. left.
    unfold in_active in *. rewrite Hact. by rewrite lookup_delete_ne.
  - assert (Hja' : ¬ in_active o' j).
    { unfold in_active in *. rewrite Hact. by rewrite lookup_delete_ne. }
    destruct (decide (j ∈ ids (completed_tasks o'))) as [Hin|Hout].
    + left. by apply (in_one_partition_intro used); [|right].
    + right. split; [done|]. split; [done|]. split; [done|].
      destruct (Nat.ltb_spec history_cap (length (completed_tasks o ++ [ft]))) as [Hlt|Hge].
      * rewrite length_app in Hlt. simpl in Hlt. lia.
      * exfalso. apply Hout. rewrite Hcomp. unfold ids. rewrite fmap_app.
        apply elem_of_app. by left.
Qed.

Lemma partition_step used o ev o' j :
  Inv used o → step o ev = Some o' →
  in_one_partition o j →
  in_one_partition o' j ∨
  (in_completed o j ∧ ¬ in_active o' j ∧ ¬ in_completed o' j ∧
   (history_cap ≤ length (completed_tasks o))%nat).
Proof.
  intros HI Hstep Hone.
  destruct ev as [uuid now ty d prio pin|now|i now answer]; simpl in Hstep.
  - injection Hstep as <-. by left.
  - injection Hstep as <-. left.
    apply (in_one_partition_intro used); [by apply Inv_dispatch|].
    destruct (task_queue o) as [|t queue] eqn:Hq.
    { rewrite task_processor_empty by done. destruct Hone as [[? _]|[_ ?]]; auto. }
    destruct (select_pool_returns (agents o) t (pool_keys _ _ HI)) as [[[key a]|] Hsel].
    + rewrite (task_processor_agent now o t queue key a Hq Hsel).
      destruct Hone as [[Hja _]|[_ Hjc]]; [left|by right].
      unfold in_active in *. simpl. rewrite lookup_insert_is_Some. 
      destruct (decide (task_id t = j)); auto.
    + rewrite (task_processor_no_agent now o t queue Hq Hsel).
      destruct Hone as [[Hja _]|[_ Hjc]]; [by left|right].
      unfold in_completed, ids in *. simpl. rewrite fmap_app. apply elem_of_app. by left.
  - pattern o'. apply (resume_cases _ _ _ _ _ _ Hstep).
    + intros c a Hc Ha Hph _. by left.
    + intros c a a' s r Hc Ha Hcls Hname Hb. by apply (partition_finish used o i c a).
Qed.

(** ** Reaching the sample states *)

Lemma reachable_state_after evs :
  bool_decide (NoDup (submitted evs)) = true →
  run evs init_orchestrator = Some (state_after evs) →
  reachable (state_after evs).
Proof.
  intros Hnd Hrun. exists evs. split; [by apply bool_decide_eq_true in Hnd|done].
Qed.

(** ** Claims about the registry *)

(** C1, as amended.  In every reachable state no task id is in both
    [active_tasks] and [completed_tasks], and the id of a task that waits in
    the queue is in neither.  The dispatcher iteration that dequeues a task
    puts its id in exactly one of the two, and every later step keeps it in
    exactly one of them unless the step is the trimming of a full history
    that evicts it. *)
Theorem registry_partition_from_dispatch (o : Orchestrator) :
  reachable o →
  (∀ i, ¬ (in_active o i ∧ in_completed o i)) ∧
  (∀ i, i ∈ ids (task_queue o) → ¬ in_active o i ∧ ¬ in_completed o i) ∧
  (∀ now t queue, task_queue o = t :: queue →
     in_one_partition (_task_processor now o) (task_id t)) ∧
  (∀ ev o' i, step o ev = Some o' → in_one_partition o i →
     in_one_partition o' i ∨
     (in_completed o i ∧ ¬ in_active o' i ∧ ¬ in_completed o' i ∧
      (history_cap ≤ length (completed_tasks o))%nat)).
Proof.
  intros Hr. destruct (reachable_Inv o Hr) as [used HI].
  split; [|split; [|split]].
  - intros i. apply (Inv_partition used o i HI).
  - intros i. apply (Inv_partition used o i HI).
  - intros now t queue. by apply (dispatch_registers used).
  - intros ev o' i. by apply (partition_step used).
Qed.

Lemma registry_partition_from_dispatch_witness :
  reachable (state_after trace_dispatched) ∧
  in_one_partition (state_after trace_dispatched) 7%N.
Proof.
  assert (Hr : reachable (state_after trace_pending))
    by (apply reachable_state_after; [vm_compute; reflexivity|vm_compute; reflexivity]).
  assert (Hr' : reachable (state_after trace_dispatched))
    by (apply reachable_state_after; [vm_compute; reflexivity|vm_compute; reflexivity]).
  split; [exact Hr'|].
  destruct (registry_partition_from_dispatch (state_after trace_pending) Hr)
    as (_ & _ & Hdisp & _).
  exact (Hdisp 101 _ _ eq_refl).
Defined.

(** C1 as stated fails: right after [submit_task] has returned the id, the
    task is PENDING in the queue and its id is in neither partition. *)
Lemma submitted_task_in_neither_partition :
  (submit_task 7 100 "search_templates" [] MEDIUM None init_orchestrator).1 = 7%N ∧
  state_after trace_pending =
    (submit_task 7 100 "search_templates" [] MEDIUM None init_orchestrator).2 ∧
  reachable (state_after trace_pending) ∧
  status <$> task_queue (state_after trace_pending) = [PENDING] ∧
  7%N ∈ ids (task_queue (state_after trace_pending)) ∧
  ¬ in_active (state_after trace_pending) 7%N ∧
  ¬ in_completed (state_after trace_pending) 7%N ∧
  ¬ in_one_partition (state_after trace_pending) 7%N.
Proof.
  assert (Ha : ¬ in_active (state_after trace_pending) 7%N).
  { unfold in_active. vm_compute. by intros [? [=]]. }
  assert (Hc : ¬ in_completed (state_after trace_pending) 7%N).
  { unfold in_completed. vm_compute. intros H. inversion H. }
  split; [done|]. split; [done|].
  split; [apply reachable_state_after; [vm_compute; reflexivity|vm_compute; reflexivity]|].
  split; [done|]. split; [left|]. split; [done|]. split; [done|].
  intros [[? _]|[_ ?]]; auto.
Qed.

(** C8.  When [_select_agent] finds no worker for the dequeued task, the
    task goes from PENDING straight to FAILED with the error
    'No suitable agent found' and is appended to the history; it has no
    assigned agent and no [started_at], it is not put in [active_tasks] and
    no execution activity is launched for it. *)
Theorem routing_failure_goes_to_history (o : Orchestrator) (now : Z) (t : Task)
  (queue : list Task) :
  reachable o →
  task_queue o = t :: queue →
  _select_agent (agents o) t = Returned None →
  status t = PENDING ∧
  _task_processor now o =
    set_completed_tasks (completed_tasks o ++ [routing_failed t]) (set_task_queue queue o) ∧
  status (routing_failed t) = FAILED ∧
  error (routing_failed t) = Some "No suitable agent found" ∧
  assigned_agent (routing_failed t) = None ∧
  started_at (routing_failed t) = None ∧
  active_tasks (_task_processor now o) = active_tasks o ∧
  ¬ in_active (_task_processor now o) (task_id t) ∧
  coroutines (_task_processor now o) = coroutines o.
Proof.
  intros Hr Hq Hsel. destruct (reachable_Inv o Hr) as [used HI].
  destruct (inv_queue _ _ HI t) as (Hst & Has & Hsa); [rewrite Hq; left|].
  rewrite (task_processor_no_agent now o t queue Hq Hsel). simpl.
  repeat (split; [done|]). split; [|done].
  apply (Inv_partition used o (task_id t) HI). rewrite Hq. left.
Qed.

Lemma routing_failure_goes_to_history_witness :
  status <$> completed_tasks (_task_processor 101 (state_after trace_ghost)) = [FAILED] ∧
  active_tasks (_task_processor 101 (state_after trace_ghost)) = ∅.
Proof.
  assert (Hr : reachable (state_after trace_ghost))
    by (apply reachable_state_after; [vm_compute; reflexivity|vm_compute; reflexivity]).
  destruct (routing_failure_goes_to_history (state_after trace_ghost) 101 _ _ Hr
              eq_refl eq_refl) as (_ & -> & _).
  split; reflexivity.
Defined.

Lemma task_processor_metrics now o :
  system_metrics (_task_processor now o) = system_metrics o.
Proof.
  unfold _task_processor. destruct (task_queue o) as [|t queue]; [done|]. simpl.
  by destruct (_select_agent (agents o) t) as [[[key a]|]|].
Qed.

(** C10.  A routing failure leaves [system_metrics] as it is: the task was
    counted in [total_tasks] when it was submitted, and the counters
    [completed_tasks] and [failed_tasks] are changed by no step other than
    the resumption of an execution activity, which exists only for a task
    that was dispatched to a worker. *)
Theorem outcome_counters_only_by_execution (o : Orchestrator) (ev : Event)
  (o' : Orchestrator) :
  step o ev = Some o' →
  (∀ now t queue, ev = Dispatch now → task_queue o = t :: queue →
     _select_agent (agents o) t = Returned None →
     system_metrics o' = system_metrics o ∧
     completed_tasks o' = completed_tasks o ++ [routing_failed t]) ∧
  (∀ uuid now ty d prio pin, ev = Submit uuid now ty d prio pin →
     system_metrics o' = incr_total (system_metrics o)) ∧
  (completed_count (system_metrics o') ≠ completed_count (system_metrics o) ∨
   failed_count (system_metrics o') ≠ failed_count (system_metrics o) →
   ∃ i now answer c, ev = Resume i now answer ∧ coroutines o !! i = Some c ∧
                     is_Some (agents_get (agents o) (co_agent c))).
Proof.
  intros Hstep. split; [|split].
  - intros now t queue -> Hq Hsel. simpl in Hstep. injection Hstep as <-.
    split; [apply task_processor_metrics|].
    by rewrite (task_processor_no_agent now o t queue Hq Hsel).
  - intros uuid now ty d prio pin ->. simpl in Hstep. by injection Hstep as <-.
  - intros Hch. destruct ev as [uuid now ty d prio pin|now|i now answer]; simpl in Hstep.
    + injection Hstep as <-. simpl in Hch. by destruct Hch.
    + injection Hstep as <-. rewrite task_processor_metrics in Hch. by destruct Hch.
    + apply resume_inv in Hstep as (c & a & Hc & Ha & _).
      exists i, now, answer, c. by rewrite Ha.
Qed.

Lemma outcome_counters_only_by_execution_witness :
  system_metrics (_task_processor 101 (state_after trace_ghost)) = mkMetrics 1 0 0 ∧
  status <$> completed_tasks (_task_processor 101 (state_after trace_ghost)) = [FAILED].
Proof.
  destruct (outcome_counters_only_by_execution (state_after trace_ghost) (Dispatch 101)
              _ eq_refl) as (H & _ & _).
  destruct (H 101 _ _ eq_refl eq_refl eq_refl) as [-> ->]. split; reflexivity.
Defined.

(** ** The busy flag *)

Lemma task_processor_agents now o : agents (_task_processor now o) = agents o.
Proof.
  unfold _task_processor. destruct (task_queue o) as [|t queue]; [done|]. simpl.
  by destruct (_select_agent (agents o) t) as [[[key a]|]|].
Qed.

Lemma busy_class_step o ev o' :
  busy_only_awaiting_classes o → step o ev = Some o' → busy_only_awaiting_classes o'.
Proof.
  intros HP Hstep k b.
  destruct ev as [uuid now ty d prio pin|now|i now answer]; simpl in Hstep.
  - injection Hstep as <-. apply HP.
  - injection Hstep as <-. rewrite task_processor_agents. apply HP.
  - apply resume_inv in Hstep as (c & a & Hc & Ha & [(Hph & Hs & ->)|Hfin]).
    + simpl. destruct (decide (co_agent c = k)) as [<-|Hne].
      * rewrite (agents_get_set_eq _ _ a) by done. by intros [= <-] _.
      * rewrite agents_get_set_ne by done. apply HP.
    + destruct Hfin as (s & a' & r & Hcase & ->). rewrite finish_agents. simpl.
      destruct (decide (co_agent c = k)) as [<-|Hne].
      * rewrite (agents_get_set_eq _ _ a) by done. intros [= <-] Hb.
        destruct Hcase as [(_ & _ & _ & -> & _)|(_ & -> & _)]; [by apply (HP (co_agent c))|].
        unfold update_performance in Hb. by destruct (success _).
      * rewrite agents_get_set_ne by done. apply HP.
Qed.

Lemma busy_class_reachable o : reachable o → busy_only_awaiting_classes o.
Proof.
  intros (evs & _ & Hrun).
  assert (Hinit : busy_only_awaiting_classes init_orchestrator).
  { intros k a Hget Hbusy. exfalso. simpl in Hget.
    repeat (match type of Hget with
            | (if ?b then _ else _) = _ => destruct b
            end; [injection Hget as <-; discriminate|]).
    discriminate. }
  revert Hinit Hrun. generalize init_orchestrator.
  induction evs as [|ev evs IH]; intros o0 HP Hrun; simpl in Hrun.
  - by injection Hrun as <-.
  - destruct (step o0 ev) as [o1|] eqn:Hstep; [|done]. simpl in Hrun.
    apply (IH o1); [|done]. by apply (busy_class_step o0 ev).
Qed.

(** C4, as amended.  Resuming a fresh activity on a [TemplateAgent] or a
    [ServerAgent] sets that agent's busy flag, and resuming the suspended
    activity clears it, whatever the awaited calls answered (a success, a
    failure result or an exception); an activity on a [CoordinatorAgent] or
    a [MonitorAgent] leaves the agent untouched.  In every reachable state
    a busy agent is a [TemplateAgent] or [ServerAgent] on which an activity
    is executing. *)
Theorem busy_flag_set_and_cleared (o : Orchestrator) :
  reachable o →
  (∀ k a, agents_get (agents o) k = Some a → is_busy a = true →
     executing o k ∧ suspends (agent_class a) = true) ∧
  (∀ i now answer c a o',
     coroutines o !! i = Some c →
     agents_get (agents o) (co_agent c) = Some a →
     resume i now answer o = Some o' →
     ∃ a', agents_get (agents o') (co_agent c) = Some a' ∧
       match co_phase c with
       | Spawned =>
           if suspends (agent_class a)
           then is_busy a' = true ∧ current_task a' = Some (co_task c)
           else a' = a
       | Awaiting _ => is_busy a' = false ∧ current_task a' = None
       end).
Proof.
  intros Hr. destruct (reachable_Inv o Hr) as [used HI]. split.
  - intros k a Hget Hb. split; [by apply (inv_busy _ _ HI k a)|].
    by apply (busy_class_reachable o Hr k a).
  - intros i now answer c a o' Hc Ha Hres.
    apply resume_inv in Hres as (c' & a0 & Hc' & Ha' & Hcase).
    rewrite Hc in Hc'. injection Hc' as <-. rewrite Ha in Ha'. injection Ha' as <-.
    destruct Hcase as [(Hph & Hs & ->)|(s & a' & r & Hcase & ->)].
    + eexists. simpl. split; [by apply (agents_get_set_eq _ _ a)|].
      by rewrite Hph, Hs.
    + exists a'. rewrite finish_agents. simpl.
      split; [by apply (agents_get_set_eq _ _ a)|].
      destruct Hcase as [(Hph & Hs & _ & -> & _)|(Hph & -> & _)].
      * by rewrite Hph, Hs.
      * by rewrite Hph.
Qed.

Lemma busy_flag_set_and_cleared_witness :
  ∃ a', agents_get
          (agents (state_after (trace_dispatched ++ [Resume 0 102 answer_ok]))) "template"
        = Some a' ∧ is_busy a' = true.
Proof.
  assert (Hr : reachable (state_after trace_dispatched))
    by (apply reachable_state_after; [vm_compute; reflexivity|vm_compute; reflexivity]).
  destruct (busy_flag_set_and_cleared (state_after trace_dispatched) Hr) as [_ H].
  destruct (H 0%nat 102 answer_ok _ _
              (state_after (trace_dispatched ++ [Resume 0 102 answer_ok]))
              eq_refl eq_refl eq_refl) as (a' & Hget & Hbusy & _).
  by exists a'.
Defined.

(** C4 as stated fails.  After both activities on the server agent have
    started and the first has finished, the second is still executing
    while the agent's busy flag is false; and the coordinator agent
    executes a task to its end without its busy flag ever being set. *)
Lemma busy_flag_not_exactly_while_executing :
  (reachable (state_after trace_overlap) ∧
   coroutines (state_after trace_overlap) = [overlap_second] ∧
   executing (state_after trace_overlap) "server" ∧
   is_busy <$> agents_get (agents (state_after trace_overlap)) "server" = Some false)
  ∧
  (co_agent <$> coroutines (state_after trace_coordinator) = ["coordinator"] ∧
   is_busy <$> agents_get (agents (state_after trace_coordinator)) "coordinator"
     = Some false ∧
   resume 0 12 answer_ok (state_after trace_coordinator)
     = Some (state_after (trace_coordinator ++ [Resume 0 12 answer_ok])) ∧
   agents (state_after (trace_coordinator ++ [Resume 0 12 answer_ok]))
     = agents (state_after trace_coordinator) ∧
   status <$> completed_tasks (state_after (trace_coordinator ++ [Resume 0 12 answer_ok]))
     = [COMPLETED]).
Proof.
  assert (Hcs : coroutines (state_after trace_overlap) = [overlap_second])
    by (vm_compute; reflexivity).
  split.
  - split; [apply reachable_state_after; [vm_compute; reflexivity|vm_compute; reflexivity]|].
    split; [exact Hcs|]. split; [|vm_compute; reflexivity].
    exists overlap_second, 15. rewrite Hcs. split; [left|split; reflexivity].
  - repeat split; vm_compute; reflexivity.
Qed.

(** ** The history bound *)

(** The trimming path of [_execute_task] keeps the history within the cap
    and evicts the oldest entries. *)
Lemma finish_returned_within_cap s now t r o :
  (length (completed_tasks (_execute_task_finish s now t (Returned r) o)) ≤ history_cap)%nat ∧
  completed_tasks (_execute_task_finish s now t (Returned r) o)
    `suffix_of` (completed_tasks o ++ [finished_task s now t (Returned r)]).
Proof.
  split; [|apply finish_completed_suffix].
  rewrite finish_completed_tasks.
  destruct (Nat.ltb_spec history_cap
              (length (completed_tasks o ++ [finished_task s now t (Returned r)])))
    as [Hlt|Hge]; [|done].
  rewrite last_n_length; [done|lia].
Qed.

Lemma ghost_rounds_submitted n :
  ∀ x, x ∈ submitted (ghost_rounds n) → (x < N.of_nat n)%N.
Proof.
  induction n as [|k IH]; intros x Hx; [inversion Hx|].
  change (ghost_rounds (S k)) with
    (ghost_rounds k ++
     [Submit (N.of_nat k) 0 "search_templates" [] MEDIUM (Some "ghost"); Dispatch 1]) in Hx.
  rewrite submitted_app in Hx. apply elem_of_app in Hx as [Hx|Hx].
  - specialize (IH x Hx). lia.
  - cbn [submitted] in Hx. apply list_elem_of_singleton in Hx. lia.
Qed.

Lemma ghost_rounds_NoDup n : NoDup (submitted (ghost_rounds n)).
Proof.
  induction n as [|k IH]; [constructor|].
  change (ghost_rounds (S k)) with
    (ghost_rounds k ++
     [Submit (N.of_nat k) 0 "search_templates" [] MEDIUM (Some "ghost"); Dispatch 1]).
  rewrite submitted_app. apply NoDup_app. split; [done|]. split.
  - intros x Hx Hx'. apply ghost_rounds_submitted in Hx. cbn [submitted] in Hx'.
    apply list_elem_of_singleton in Hx'. lia.
  - cbn [submitted]. apply NoDup_singleton.
Qed.

Lemma ghost_select k : _select_agent init_agents (ghost_task k) = Returned None.
Proof. reflexivity. Qed.

(** Every round of [ghost_rounds] adds one entry to the history. *)
Lemma ghost_rounds_history n :
  ∃ o, run (ghost_rounds n) init_orchestrator = Some o ∧
       agents o = init_agents ∧ task_queue o = [] ∧
       completed_tasks o = (λ k, routing_failed (ghost_task k)) <$> seq 0 n.
Proof.
  induction n as [|k (o & Hrun & Hags & Hq & Hcomp)].
  { by exists init_orchestrator. }
  change (ghost_rounds (S k)) with
    (ghost_rounds k ++
     [Submit (N.of_nat k) 0 "search_templates" [] MEDIUM (Some "ghost"); Dispatch 1]).
  rewrite run_app, Hrun. cbn [mbind option_bind run step].
  eexists. split; [reflexivity|].
  assert (Hq' : task_queue
            (submit_task (N.of_nat k) 0 "search_templates" [] MEDIUM (Some "ghost") o).2
          = [ghost_task k]) by (simpl; by rewrite Hq).
  rewrite (task_processor_no_agent 1 _ _ _ Hq')
    by (simpl; rewrite Hags; apply ghost_select).
  rewrite seq_S, fmap_app. simpl. split; [done|]. split; [done|].
  by rewrite Hcomp.
Qed.

(** C3, the code at the failing input.  1001 tasks that fail at routing
    leave 1001 entries in the history: the routing-failure path of
    [_task_processor] appends without trimming, and so does the [except]
    path of [_execute_task]. *)
Theorem history_cap_missed_on_routing_failure :
  NoDup (submitted (ghost_rounds (S history_cap))) ∧
  (∃ o, run (ghost_rounds (S history_cap)) init_orchestrator = Some o ∧
        length (completed_tasks o) = S history_cap) ∧
  (∀ s now t msg o,
     length (completed_tasks (_execute_task_finish s now t (Raised msg) o))
     = S (length (completed_tasks o))).
Proof.
  split; [apply ghost_rounds_NoDup|]. split.
  - destruct (ghost_rounds_history (S history_cap)) as (o & Hrun & _ & _ & Hcomp).
    exists o. split; [done|]. by rewrite Hcomp, length_fmap, length_seq.
  - intros s now t msg o. cbn [_execute_task_finish completed_tasks set_system_metrics
      set_completed_tasks]. rewrite length_app. simpl. lia.
Qed.

(** ** The selection policy on the pool of [__init__] *)

Lemma select_unknown_type_idle_max_witness :
  ∃ k a, _select_agent init_agents (task_of "bogus_type" None) = Returned (Some (k, a)) ∧
         is_busy a = false.
Proof.
  destruct (select_unknown_type_idle_max init_agents (task_of "bogus_type" None)
              eq_refl eq_refl) as [H _].
  destruct H as (k & a & Hsel & _ & Hidle & _).
  - eexists. split; [left|reflexivity].
  - by exists k, a.
Defined.

Lemma select_known_type_by_table_witness :
  ∃ a, _select_agent init_agents (task_of "search_templates" None)
       = Returned (Some ("template", a)) ∧ agent_class a = TemplateAgent.
Proof.
  eexists. split.
  - exact (proj1 (select_known_type_by_table init_agents
                    (task_of "search_templates" None) "template" _
                    eq_refl eq_refl eq_refl)).
  - reflexivity.
Defined.



(** ** The life cycle of a task *)

Lemma Inv_NoDup_parts used o :
  Inv used o →
  NoDup (ids (task_queue o)) ∧ NoDup (co_ids o) ∧ NoDup (ids (completed_tasks o)).
Proof.
  intros HI. pose proof (inv_nodup _ _ HI) as Hnd. unfold all_ids in Hnd.
  apply NoDup_app in Hnd as (Hq & _ & Hnd). apply NoDup_app in Hnd as (Hc & _ & Hh).
  done.
Qed.

Lemma lookup_task_in_used used o i t :
  Inv used o → lookup_task o i = Some t → i ∈ used ∧ task_id t = i.
Proof.
  intros HI. unfold lookup_task.
  destruct (find_task i (completed_tasks o)) as [t'|] eqn:Hc.
  { intros [= ->]. apply find_task_Some in Hc as [Hin Hid]. split; [|done].
    apply (inv_used _ _ HI). unfold all_ids. rewrite !elem_of_app. right. right.
    rewrite <- Hid. by apply list_elem_of_fmap_2. }
  destruct (active_tasks o !! i) as [t'|] eqn:Ha.
  { intros [= ->]. assert (Hia : in_active o i) by (by exists t).
    apply (inv_active _ _ HI) in Ha. destruct Ha as (c & _ & _ & Hid). split; [|done].
    apply (inv_used _ _ HI). unfold all_ids. rewrite !elem_of_app. right. left.
    by apply (in_active_co_ids used). }
  intros Hq. apply find_task_Some in Hq as [Hin Hid]. split; [|done].
  apply (inv_used _ _ HI). unfold all_ids. rewrite !elem_of_app. left.
  rewrite <- Hid. by apply list_elem_of_fmap_2.
Qed.

Lemma terminal_rank s : terminal s = true → status_rank s = 2%nat.
Proof. by destruct s. Qed.

Lemma lookup_queue_head used o t queue :
  Inv used o → task_queue o = t :: queue →
  lookup_task o (task_id t) = Some t ∧ status t = PENDING.
Proof.
  intros HI Hq.
  assert (Hin : task_id t ∈ ids (task_queue o)) by (rewrite Hq; left).
  destruct (Inv_disjoint used o (task_id t) HI) as [Hd _].
  destruct (Hd Hin) as [Hco Hcomp].
  split; [|apply (inv_queue _ _ HI); rewrite Hq; left].
  unfold lookup_task. apply find_task_None in Hcomp. rewrite Hcomp.
  destruct (active_tasks o !! task_id t) as [t'|] eqn:Ha.
  { destruct Hco. apply (in_active_co_ids used); [done|by exists t']. }
  rewrite Hq. unfold find_task. simpl. by rewrite N.eqb_refl.
Qed.

Lemma find_task_cons_ne i t l : task_id t ≠ i → find_task i (t :: l) = find_task i l.
Proof. intros Hne. unfold find_task. simpl. by rewrite (proj2 (N.eqb_neq _ _) Hne). Qed.

Lemma find_task_snoc_ne i t l : task_id t ≠ i → find_task i (l ++ [t]) = find_task i l.
Proof.
  intros Hne. rewrite find_task_app, find_task_cons_ne by done.
  by destruct (find_task i l).
Qed.

Lemma lookup_dispatch used o now i :
  Inv used o → lookup_advance o (_task_processor now o) i.
Proof.
  intros HI. destruct (task_queue o) as [|t queue] eqn:Hq.
  { left. by rewrite task_processor_empty. }
  destruct (lookup_queue_head used o t queue HI Hq) as [Hlook Hst].
  assert (Hcomp : find_task (task_id t) (completed_tasks o) = None).
  { apply find_task_None.
    apply (proj1 (Inv_disjoint used o (task_id t) HI)). rewrite Hq. left. }
  destruct (select_pool_returns (agents o) t (pool_keys _ _ HI)) as [[[key a]|] Hsel].
  - rewrite (task_processor_agent now o t queue key a Hq Hsel).
    destruct (decide (task_id t = i)) as [<-|Hne].
    + right. right. exists t, (dispatched now a t). split; [done|].
      unfold lookup_task. simpl. rewrite Hcomp, lookup_insert_eq.
      split; [done|]. rewrite Hst. split; [done|]. simpl. lia.
    + left. unfold lookup_task. simpl. rewrite lookup_insert_ne by done.
      by rewrite Hq, find_task_cons_ne.
  - rewrite (task_processor_no_agent now o t queue Hq Hsel).
    destruct (decide (task_id t = i)) as [<-|Hne].
    + right. right. exists t, (routing_failed t). split; [done|].
      unfold lookup_task. simpl. rewrite find_task_app, Hcomp.
      unfold find_task at 1. simpl. rewrite N.eqb_refl.
      split; [done|]. rewrite Hst. split; [done|]. simpl. lia.
    + left. unfold lookup_task. simpl.
      rewrite find_task_snoc_ne by done. by rewrite Hq, find_task_cons_ne.
Qed.

Lemma lookup_finish used o i c a a' s now r j :
  Inv used o →
  coroutines o !! i = Some c →
  agents_get (agents o) (co_agent c) = Some a →
  agent_class a' = agent_class a → name a' = name a →
  (is_busy a' = true → a' = a ∧ co_phase c = Spawned) →
  lookup_advance o
    (_execute_task_finish s now (co_task c) (Returned r)
       (set_coroutines (delete i (coroutines o))
          (set_agents (agents_set (agents o) (co_agent c) a') o))) j.
Proof.
  intros HI Hc Ha Hcls Hname Hbusy.
  set (o1 := set_coroutines (delete i (coroutines o))
               (set_agents (agents_set (agents o) (co_agent c) a') o)).
  assert (HI' : Inv used (_execute_task_finish s now (co_task c) (Returned r) o1))
    by (by apply (Inv_finish _ _ _ _ a)).
  destruct (finish_completed_suffix s now (co_task c) (Returned r) o1) as [[old Hsuf] Hlast].
  change (completed_tasks o1) with (completed_tasks o) in Hsuf.
  assert (Hqueue : task_queue (_execute_task_finish s now (co_task c) (Returned r) o1)
                   = task_queue o) by (by rewrite finish_task_queue).
  assert (Hact : active_tasks (_execute_task_finish s now (co_task c) (Returned r) o1)
                 = delete (task_id (co_task c)) (active_tasks o))
    by (by rewrite finish_active_tasks).
  assert (Hftid : task_id (finished_task s now (co_task c) (Returned r))
                  = task_id (co_task c)) by apply finished_task_id.
  assert (Hftst : terminal (status (finished_task s now (co_task c) (Returned r))) = true)
    by apply finished_task_terminal.
  set (ft := finished_task s now (co_task c) (Returned r)) in *.
  set (o' := _execute_task_finish s now (co_task c) (Returned r) o1) in *.
  clearbody o' ft. clear o1.
  assert (Hcin : c ∈ coroutines o) by (by eapply list_elem_of_lookup_2).
  assert (Hactc : active_tasks o !! task_id (co_task c) = Some (co_task c))
    by (apply (inv_active _ _ HI); by exists c).
  assert (Hcoid : task_id (co_task c) ∈ co_ids o)
    by (apply (in_active_co_ids used); [done|by eexists]).
  destruct (Inv_NoDup_parts used o HI) as (_ & _ & HndC).
  destruct (Inv_NoDup_parts used o' HI') as (_ & _ & HndC').
  unfold lookup_advance, lookup_task. rewrite Hqueue, Hact.
  destruct (decide (j = task_id (co_task c))) as [->|Hne].
  - right. right. exists (co_task c), ft.
    assert (Hnone : find_task (task_id (co_task c)) (completed_tasks o) = None).
    { apply find_task_None. by apply (proj2 (Inv_disjoint used o _ HI)). }
    rewrite Hnone, Hactc. split; [done|].
    rewrite <- Hftid, (find_task_unique _ ft HndC') by (by apply last_Some_elem_of).
    split; [done|].
    destruct (inv_running _ _ HI c Hcin) as [Hst _]. rewrite Hst.
    split; [done|]. rewrite (terminal_rank _ Hftst). simpl. lia.
  - rewrite lookup_delete_ne by done.
    destruct (find_task j (completed_tasks o)) as [t|] eqn:Hfc.
    + destruct (find_task_Some _ _ _ Hfc) as [Htin Htid].
      assert (Hjc : j ∈ ids (completed_tasks o))
        by (rewrite <- Htid; by apply list_elem_of_fmap_2).
      destruct (find_task j (completed_tasks o')) as [t'|] eqn:Hfc'.
      * left. destruct (find_task_Some _ _ _ Hfc') as [Htin' Htid'].
        assert (Hin : t' ∈ completed_tasks o ++ [ft])
          by (rewrite Hsuf; apply elem_of_app; by right).
        apply elem_of_app in Hin as [Hin|Hin].
        -- pose proof (find_task_unique _ t' HndC Hin) as Hu.
           rewrite Htid', Hfc in Hu. by injection Hu as ->.
        -- apply list_elem_of_singleton in Hin. subst t'. congruence.
      * right. left. exists t. split; [done|].
        assert (Hna : active_tasks o !! j = None).
        { destruct (active_tasks o !! j) as [t'|] eqn:Haj; [|done].
          destruct (proj1 (Inv_partition used o j HI)). split; [by exists t'|done]. }
        rewrite Hna. apply find_task_None. intros Hjq.
        exact (proj2 (proj1 (Inv_disjoint used o j HI) Hjq) Hjc).
    + left. assert (Hfc' : find_task j (completed_tasks o') = None).
      { apply find_task_None. intros Hin. apply find_task_None in Hfc. apply Hfc.
        assert (Hin' : j ∈ ids (completed_tasks o ++ [ft])).
        { rewrite Hsuf. unfold ids. rewrite fmap_app. apply elem_of_app. by right. }
        unfold ids in Hin'. rewrite fmap_app in Hin'.
        apply elem_of_app in Hin' as [?|Hin']; [done|].
        apply list_elem_of_singleton in Hin'. congruence. }
      by rewrite Hfc'.
Qed.

Lemma lookup_step used o ev o' i :
  Inv used o → step o ev = Some o' → i ∉ submitted [ev] → lookup_advance o o' i.
Proof.
  intros HI Hstep Hi.
  destruct ev as [uuid now ty d prio pin|now|k now answer]; simpl in Hstep.
  - injection Hstep as <-. left. unfold lookup_task. simpl.
    rewrite find_task_snoc_ne; [done|]. simpl. intros ->. apply Hi. left.
  - injection Hstep as <-. by apply (lookup_dispatch used).
  - pattern o'. apply (resume_cases _ _ _ _ _ _ Hstep).
    + intros c a Hc Ha Hph _. by left.
    + intros c a a' s r Hc Ha Hcls Hname Hb. by apply (lookup_finish used o k c a).
Qed.

Lemma lookup_gone_run evs : ∀ used o o' i,
  Inv used o → NoDup (used ++ submitted evs) → run evs o = Some o' →
  i ∈ used → lookup_task o i = None → lookup_task o' i = None.
Proof.
  induction evs as [|ev evs IH]; intros used o o' i HI Hnd Hrun Hi Hnone; simpl in Hrun.
  - by injection Hrun as <-.
  - destruct (step o ev) as [o1|] eqn:Hstep; [|done]. simpl in Hrun.
    rewrite submitted_cons, app_assoc in Hnd.
    assert (Hfresh : ∀ x, x ∈ submitted [ev] → x ∉ used).
    { intros x Hx Hu. apply NoDup_app in Hnd as (Hnd & _ & _).
      apply NoDup_app in Hnd as (_ & Hdis & _). by apply (Hdis x). }
    apply (IH (used ++ submitted [ev]) o1); [by apply (Inv_step _ o)|done|done| |].
    + apply elem_of_app. by left.
    + destruct (lookup_step used o ev o1 i HI Hstep) as [Heq|[(t & Ht & _)|(t & t' & Ht & _)]];
        [intros Hx; by apply (Hfresh i)|congruence..].
Qed.

Lemma status_monotone_run evs : ∀ used o o' i t t',
  Inv used o → NoDup (used ++ submitted evs) → run evs o = Some o' →
  lookup_task o i = Some t → lookup_task o' i = Some t' →
  (status_rank (status t) ≤ status_rank (status t'))%nat ∧
  (terminal (status t) = true → t' = t).
Proof.
  induction evs as [|ev evs IH]; intros used o o' i t t' HI Hnd Hrun Ht Ht'; simpl in Hrun.
  - injection Hrun as <-. rewrite Ht in Ht'. injection Ht' as <-. done.
  - destruct (step o ev) as [o1|] eqn:Hstep; [|done]. simpl in Hrun.
    rewrite submitted_cons, app_assoc in Hnd.
    assert (Hfresh : ∀ x, x ∈ submitted [ev] → x ∉ used).
    { intros x Hx Hu. apply NoDup_app in Hnd as (Hnd' & _ & _).
      apply NoDup_app in Hnd' as (_ & Hdis & _). by apply (Hdis x). }
    destruct (lookup_task_in_used used o i t HI Ht) as [Hi _].
    pose proof (Inv_step used o ev o1 HI Hstep Hfresh) as HI1.
    assert (Hi1 : i ∈ used ++ submitted [ev]) by (apply elem_of_app; by left).
    destruct (lookup_step used o ev o1 i HI Hstep) as [Heq|[(t0 & Ht0 & Hn)|(t0 & t1 & Ht0 & Ht1 & Hnt & Hlt)]].
    + intros Hx. by apply (Hfresh i).
    + rewrite Ht in Heq. by apply (IH _ o1 o' i t t' HI1 Hnd Hrun).
    + pose proof (lookup_gone_run evs _ o1 o' i HI1 Hnd Hrun Hi1 Hn). congruence.
    + rewrite Ht in Ht0. injection Ht0 as <-.
      destruct (IH _ o1 o' i t1 t' HI1 Hnd Hrun Ht1 Ht') as [Hle _].
      split; [lia|congruence].
Qed.

Lemma lookup_task_status used o i t :
  Inv used o → lookup_task o i = Some t → status t ≠ CANCELLED.
Proof.
  intros HI. unfold lookup_task.
  destruct (find_task i (completed_tasks o)) as [t'|] eqn:Hc.
  { intros [= ->]. apply find_task_Some in Hc as [Hin _].
    pose proof (inv_history _ _ HI t Hin) as Hterm. intros Hs. by rewrite Hs in Hterm. }
  destruct (active_tasks o !! i) as [t'|] eqn:Ha.
  { intros [= ->]. apply (inv_active _ _ HI) in Ha. destruct Ha as (c & Hc' & <- & _).
    destruct (inv_running _ _ HI c Hc') as [Hst _]. by rewrite Hst. }
  intros Hq. apply find_task_Some in Hq as [Hin _].
  destruct (inv_queue _ _ HI t Hin) as [Hst _]. by rewrite Hst.
Qed.

(** C5.  Along every run the status found under a task id only moves
    forward in the order PENDING, IN_PROGRESS, terminal (a routing failure
    goes from PENDING to FAILED directly), CANCELLED never occurs, and once
    the status is COMPLETED or FAILED the task record, its status included,
    is never changed again for as long as the orchestrator holds it. *)
Theorem status_never_leaves_terminal (evs1 evs2 : list Event) (o1 o2 : Orchestrator)
  (i : N) (t1 t2 : Task) :
  NoDup (submitted (evs1 ++ evs2)) →
  run evs1 init_orchestrator = Some o1 →
  run evs2 o1 = Some o2 →
  lookup_task o1 i = Some t1 →
  lookup_task o2 i = Some t2 →
  (status_rank (status t1) ≤ status_rank (status t2))%nat ∧
  (terminal (status t1) = true → status t2 = status t1 ∧ t2 = t1) ∧
  status t1 ≠ CANCELLED ∧ status t2 ≠ CANCELLED.
Proof.
  intros Hnd Hrun1 Hrun2 Ht1 Ht2. rewrite submitted_app in Hnd.
  assert (HI1 : Inv ([] ++ submitted evs1) o1).
  { apply (Inv_run evs1 [] init_orchestrator); [apply Inv_init| |done].
    simpl. by apply NoDup_app in Hnd as [? _]. }
  simpl in HI1.
  pose proof (Inv_run evs2 _ o1 o2 HI1 Hnd Hrun2) as HI2.
  destruct (status_monotone_run evs2 _ o1 o2 i t1 t2 HI1 Hnd Hrun2 Ht1 Ht2) as [Hle Hterm].
  split; [done|]. split.
  - intros H. specialize (Hterm H). by subst.
  - split; [exact (lookup_task_status _ o1 i t1 HI1 Ht1)|
            exact (lookup_task_status _ o2 i t2 HI2 Ht2)].
Qed.

Lemma status_never_leaves_terminal_witness :
  lookup_task (state_after (trace_completed ++ trace_more)) 7 = Some completed_sample ∧
  status completed_sample = COMPLETED.
Proof.
  assert (Hnd : NoDup (submitted (trace_completed ++ trace_more)))
    by (apply (bool_decide_unpack _); vm_compute; reflexivity).
  assert (Hrun1 : run trace_completed init_orchestrator = Some (state_after trace_completed))
    by (vm_compute; reflexivity).
  assert (Hrun2 : run trace_more (state_after trace_completed)
                  = Some (state_after (trace_completed ++ trace_more)))
    by (vm_compute; reflexivity).
  assert (Ht1 : lookup_task (state_after trace_completed) 7 = Some completed_sample)
    by (vm_compute; reflexivity).
  assert (Ht2 : lookup_task (state_after (trace_completed ++ trace_more)) 7
                = Some completed_sample)
    by (vm_compute; reflexivity).
  destruct (status_never_leaves_terminal _ _ _ _ 7%N _ _ Hnd Hrun1 Hrun2 Ht1 Ht2)
    as (_ & Hterm & _).
  split; [exact Ht2|]. exact (proj1 (Hterm eq_refl)).
Defined.

(** ** Result retrieval *)

Lemma poll_once_spec i o t :
  poll_once i o = Some t ↔
  find_task i (completed_tasks o) = Some t ∨
  (find_task i (completed_tasks o) = None ∧ active_tasks o !! i = Some t ∧
   terminal (status t) = true).
Proof.
  unfold poll_once. destruct (find_task i (completed_tasks o)) as [t'|].
  { split; [by left|]. by intros [?|[? _]]. }
  destruct (active_tasks o !! i) as [t'|].
  - destruct (terminal (status t')) eqn:Hterm.
    + split; [intros [= ->]; by right|]. by intros [?|(_ & ? & _)].
    + split; [done|]. intros [?|(_ & [= ->] & ?)]; congruence.
  - split; [done|]. by intros [?|(_ & ? & _)].
Qed.

(** The record that a poll returns, without [find_task]: a record of the
    history with the id asked for, or else the entry of [active_tasks]
    under that id. *)
Lemma poll_once_Some i o t :
  poll_once i o = Some t →
  (t ∈ completed_tasks o ∧ task_id t = i) ∨
  (¬ in_completed o i ∧ active_tasks o !! i = Some t ∧
   terminal (status t) = true).
Proof.
  intros H. apply poll_once_spec in H as [H|(H & Ha & Ht)].
  - left. by apply find_task_Some.
  - right. split; [by apply find_task_None|done].
Qed.

Lemma poll_once_None i o :
  poll_once i o = None ↔
  ¬ in_completed o i ∧
  ∀ t, active_tasks o !! i = Some t → terminal (status t) = false.
Proof.
  unfold poll_once, in_completed. rewrite <- find_task_None.
  destruct (find_task i (completed_tasks o)) as [t'|].
  { split; [done|]. by intros [? _]. }
  destruct (active_tasks o !! i) as [t'|].
  - destruct (terminal (status t')) eqn:Hterm.
    + split; [done|]. intros [_ H]. specialize (H t' eq_refl). congruence.
    + split; [|done]. intros _. split; [done|]. by intros t [= <-].
  - split; [|done]. intros _. by split.
Qed.

(** In a reachable state a poll returns the one record of the history that
    has the id asked for. *)
Lemma poll_once_Inv used i o t :
  Inv used o → poll_once i o = Some t →
  t ∈ completed_tasks o ∧ task_id t = i ∧ terminal (status t) = true ∧
  ∀ t', t' ∈ completed_tasks o → task_id t' = i → t' = t.
Proof.
  intros HI H. apply poll_once_spec in H as [H|(_ & Ha & Ht)].
  - destruct (find_task_Some _ _ _ H) as [Hin Hid].
    split; [done|]. split; [done|]. split; [by apply (inv_history _ _ HI)|].
    intros t' Hin' Hid'. destruct (Inv_NoDup_parts used o HI) as (_ & _ & Hnd).
    pose proof (find_task_unique _ t' Hnd Hin') as Hu. rewrite Hid', H in Hu. congruence.
  - apply (inv_active _ _ HI) in Ha. destruct Ha as (c & Hc & <- & _).
    destruct (inv_running _ _ HI c Hc) as [Hst _]. rewrite Hst in Ht. done.
Qed.

(** The newest record of the history is found by a poll for its id. *)
Lemma poll_once_history_last used o t :
  Inv used o → last (completed_tasks o) = Some t → poll_once (task_id t) o = Some t.
Proof.
  intros HI Hlast. apply poll_once_spec. left.
  destruct (Inv_NoDup_parts used o HI) as (_ & _ & Hnd).
  apply find_task_unique; [done|]. by apply last_Some_elem_of.
Qed.

Lemma get_task_result_cons i timeout elapsed o later :
  get_task_result i timeout ((elapsed, o) :: later) =
    if elapsed <? timeout then
      match poll_once i o with
      | Some t => Found t
      | None => get_task_result i timeout later
      end
    else Absent.
Proof.
  simpl. unfold get_task_result_turn. destruct (elapsed <? timeout); [|done].
  by destruct (poll_once i o).
Qed.

Lemma get_task_result_skip i timeout before rest :
  Forall (λ eo : Z * Orchestrator, eo.1 < timeout ∧ poll_once i eo.2 = None) before →
  get_task_result i timeout (before ++ rest) = get_task_result i timeout rest.
Proof.
  induction 1 as [|[elapsed o] before [Hlt Hnone] _ IH]; [done|].
  rewrite <- app_comm_cons, get_task_result_cons. simpl in *.
  by rewrite (proj2 (Z.ltb_lt _ _) Hlt), Hnone.
Qed.

(** A record is returned by the first turn, within the timeout, that finds
    one. *)
Lemma get_task_result_Found i timeout observations t :
  get_task_result i timeout observations = Found t →
  ∃ earlier elapsed o later,
    observations = earlier ++ (elapsed, o) :: later ∧
    Forall (λ eo : Z * Orchestrator, eo.1 < timeout ∧ poll_once i eo.2 = None) earlier ∧
    elapsed < timeout ∧ poll_once i o = Some t.
Proof.
  induction observations as [|[e o] obs IH]; [done|].
  rewrite get_task_result_cons. destruct (Z.ltb_spec e timeout) as [Hlt|Hge]; [|done].
  destruct (poll_once i o) as [t'|] eqn:Hp.
  - intros [= ->]. by exists [], e, o, obs.
  - intros H. destruct (IH H) as (earlier & e' & o' & later & -> & HF & Hlt' & Hp').
    exists ((e, o) :: earlier), e', o', later. split; [done|].
    split; [by constructor|done].
Qed.

(** The absent signal is returned by the first turn that reads an elapsed
    time at or beyond the timeout, no turn before it having found a
    record. *)
Lemma get_task_result_Absent i timeout observations :
  get_task_result i timeout observations = Absent →
  ∃ earlier elapsed o later,
    observations = earlier ++ (elapsed, o) :: later ∧
    Forall (λ eo : Z * Orchestrator, eo.1 < timeout ∧ poll_once i eo.2 = None) earlier ∧
    timeout ≤ elapsed.
Proof.
  induction observations as [|[e o] obs IH]; [done|].
  rewrite get_task_result_cons. destruct (Z.ltb_spec e timeout) as [Hlt|Hge].
  - destruct (poll_once i o) as [t'|] eqn:Hp; [done|].
    intros H. destruct (IH H) as (earlier & e' & o' & later & -> & HF & Hge').
    exists ((e, o) :: earlier), e', o', later. split; [done|].
    split; [by constructor|done].
  - intros _. by exists [], e, o, obs.
Qed.

Lemma get_task_result_turn_Sleep i timeout elapsed o delay :
  get_task_result_turn i timeout elapsed o = Sleep delay ↔
  delay = poll_interval ∧ elapsed < timeout ∧ poll_once i o = None.
Proof.
  unfold get_task_result_turn. destruct (Z.ltb_spec elapsed timeout) as [Hlt|Hge].
  - destruct (poll_once i o) as [t|].
    + split; [done|]. by intros (_ & _ & ?).
    + split; [by intros [= <-]|]. by intros (-> & _).
  - split; [done|]. intros (_ & ? & _). lia.
Qed.

Lemma get_task_result_past i timeout observations eo :
  eo ∈ observations → timeout ≤ eo.1 →
  get_task_result i timeout observations ≠ StillPolling.
Proof.
  intros Hin Hge. induction observations as [|[e o] obs IH]; [inversion Hin|].
  rewrite get_task_result_cons. destruct (Z.ltb_spec e timeout) as [Hlt|Hge']; [|done].
  destruct (poll_once i o); [done|]. apply IH.
  apply elem_of_cons in Hin as [->|Hin]; [simpl in Hge; lia|done].
Qed.

Lemma slept_lookup observations : ∀ from k eo,
  slept from observations → observations !! k = Some eo →
  from + Z.of_nat k * poll_interval ≤ eo.1.
Proof.
  induction observations as [|[e o] obs IH]; intros from k eo Hs Hk; [done|].
  destruct Hs as [Hfrom Hs]. destruct k as [|k].
  - injection Hk as <-. simpl. lia.
  - simpl in Hk. pose proof (IH _ _ _ Hs Hk) as H. unfold poll_interval in *. lia.
Qed.

(** When every sleep lasts at least as long as asked, the caller has its
    answer after a bounded number of turns. *)
Lemma get_task_result_returns i timeout observations :
  slept 0 observations → (0 < length observations)%nat →
  timeout ≤ (Z.of_nat (length observations) - 1) * poll_interval →
  get_task_result i timeout observations ≠ StillPolling.
Proof.
  intros Hs Hlen Hbound.
  destruct (lookup_lt_is_Some_2 observations (length observations - 1)) as [eo Heo]; [lia|].
  apply (get_task_result_past i timeout observations eo).
  - by eapply list_elem_of_lookup_2.
  - pose proof (slept_lookup _ _ _ _ Hs Heo) as H.
    replace (Z.of_nat (length observations - 1)) with (Z.of_nat (length observations) - 1)
      in H by lia.
    lia.
Qed.

Lemma resume_awaiting_eq o i c a start_time now answer :
  coroutines o !! i = Some c →
  agents_get (agents o) (co_agent c) = Some a →
  co_phase c = Awaiting start_time →
  resume i now answer o =
    Some (_execute_task_finish start_time now (co_task c)
            (Returned (execute_task_result a (co_task c) answer))
            (set_coroutines (delete i (coroutines o))
               (set_agents
                  (agents_set (agents o) (co_agent c)
                     (execute_task_finally
                        (update_performance now
                           (execute_task_result a (co_task c) answer) a))) o))).
Proof.
  intros Hc Ha Hph. unfold resume. rewrite Hc. simpl. rewrite Ha. simpl.
  rewrite Hph. reflexivity.
Qed.

(** A suspended execution activity can always be resumed, and when it is,
    its task becomes the last entry of the history, with a terminal
    status. *)
Lemma resume_awaiting_completes o i c start_time now answer :
  coroutines o !! i = Some c → co_phase c = Awaiting start_time →
  is_Some (agents_get (agents o) (co_agent c)) →
  ∃ o' t', resume i now answer o = Some o' ∧
           last (completed_tasks o') = Some t' ∧
           task_id t' = task_id (co_task c) ∧ terminal (status t') = true.
Proof.
  intros Hc Hph [a Ha]. rewrite (resume_awaiting_eq o i c a start_time) by done.
  eexists _, _. split; [reflexivity|].
  split; [apply (proj2 (finish_completed_suffix _ _ _ _ _))|].
  split; [apply finished_task_id|apply finished_task_terminal].
Qed.

(** ** The task after the caller has given up *)

(** Reachable states are closed under the steps that submit nothing. *)
Lemma reachable_step_quiet o ev o' :
  reachable o → step o ev = Some o' → submitted [ev] = [] → reachable o'.
Proof.
  intros (evs & Hnd & Hrun) Hstep Hq. exists (evs ++ [ev]). split.
  - by rewrite submitted_app, Hq, app_nil_r.
  - rewrite run_app, Hrun. simpl. by rewrite Hstep.
Qed.

Lemma resume_total o k c now answer :
  coroutines o !! k = Some c → is_Some (agents_get (agents o) (co_agent c)) →
  is_Some (resume k now answer o).
Proof.
  intros Hc [a Ha]. unfold resume. rewrite Hc. simpl. rewrite Ha. simpl.
  destruct (co_phase c); [destruct (suspends (agent_class a))|]; simpl; eauto.
Qed.

(** Resuming an execution activity either takes it into an awaiting
    [execute_task], the history unchanged, or takes [_execute_task] to its
    end, and then the task is the newest record of the history, with a
    terminal status. *)
Lemma resume_suspends_or_lands o k c now answer o' :
  coroutines o !! k = Some c → resume k now answer o = Some o' →
  (co_phase c = Spawned ∧
   coroutines o' !! k = Some (mkCoroutine (co_agent c) (co_task c) (Awaiting now)) ∧
   completed_tasks o' = completed_tasks o)
  ∨ (∃ t', last (completed_tasks o') = Some t' ∧
           task_id t' = task_id (co_task c) ∧ terminal (status t') = true).
Proof.
  intros Hc Hres. apply resume_inv in Hres as (c' & a & Hc' & Ha & Hcase).
  rewrite Hc in Hc'. injection Hc' as <-.
  destruct Hcase as [(Hph & _ & ->)|(s & a' & r & _ & ->)].
  - left. split; [done|]. split; [|done]. simpl.
    apply list_lookup_insert_eq. by eapply lookup_lt_Some.
  - right. eexists. split; [apply (proj2 (finish_completed_suffix _ _ _ _ _))|].
    split; [apply finished_task_id|apply finished_task_terminal].
Qed.

(** An execution activity can always be taken to its end, whatever the
    other activities do: one or two resumptions put its task in the
    history. *)
Lemma activity_can_complete o k c :
  reachable o → coroutines o !! k = Some c →
  ∃ evs o' t', submitted evs = [] ∧ run evs o = Some o' ∧ reachable o' ∧
               last (completed_tasks o') = Some t' ∧
               task_id t' = task_id (co_task c) ∧ terminal (status t') = true.
Proof.
  intros Hr Hc. destruct (reachable_Inv o Hr) as [used HI].
  assert (Hag : is_Some (agents_get (agents o) (co_agent c))).
  { apply (inv_running _ _ HI). by eapply list_elem_of_lookup_2. }
  destruct (resume_total o k c 0 answer_ok Hc Hag) as [o1 H1].
  assert (Hr1 : reachable o1) by (by apply (reachable_step_quiet o (Resume k 0 answer_ok))).
  destruct (resume_suspends_or_lands o k c 0 answer_ok o1 Hc H1)
    as [(_ & Hc1 & _)|(t' & Hlast & Hid & Hterm)].
  - destruct (reachable_Inv o1 Hr1) as [used1 HI1].
    assert (Hag1 : is_Some (agents_get (agents o1)
                    (co_agent (mkCoroutine (co_agent c) (co_task c) (Awaiting 0))))).
    { apply (inv_running _ _ HI1). by eapply list_elem_of_lookup_2. }
    destruct (resume_total o1 k _ 0 answer_ok Hc1 Hag1) as [o2 H2].
    assert (Hr2 : reachable o2)
      by (by apply (reachable_step_quiet o1 (Resume k 0 answer_ok))).
    destruct (resume_suspends_or_lands o1 k _ 0 answer_ok o2 Hc1 H2)
      as [(Hph & _)|(t' & Hlast & Hid & Hterm)]; [done|].
    exists [Resume k 0 answer_ok; Resume k 0 answer_ok], o2, t'.
    split; [done|]. split; [simpl; rewrite H1; simpl; by rewrite H2|done].
  - exists [Resume k 0 answer_ok], o1, t'.
    split; [done|]. split; [simpl; by rewrite H1|done].
Qed.

Lemma task_processor_dequeues now o :
  task_queue (_task_processor now o) = tail (task_queue o).
Proof.
  destruct (task_queue o) as [|t queue] eqn:Hq.
  { by rewrite task_processor_empty, Hq. }
  destruct (_select_agent (agents o) t) as [[[key a]|]|msg] eqn:Hsel.
  - by rewrite (task_processor_agent now o t queue key a).
  - by rewrite (task_processor_no_agent now o t queue).
  - by rewrite (task_processor_raised now o t queue msg).
Qed.

(** A queued task can always be taken to the history: the dispatcher
    dequeues the tasks before it and then the task itself, which fails at
    routing or is executed to its end. *)
Lemma queued_can_complete pre : ∀ o t post,
  reachable o → task_queue o = pre ++ t :: post →
  ∃ evs o' t', submitted evs = [] ∧ run evs o = Some o' ∧ reachable o' ∧
               last (completed_tasks o') = Some t' ∧
               task_id t' = task_id t ∧ terminal (status t') = true.
Proof.
  induction pre as [|x pre IH]; intros o t post Hr Hq.
  - assert (Hr1 : reachable (_task_processor 0 o))
      by (by apply (reachable_step_quiet o (Dispatch 0))).
    destruct (reachable_Inv o Hr) as [used HI].
    destruct (select_pool_returns (agents o) t (pool_keys o used HI)) as [[[key a]|] Hsel].
    + pose proof (task_processor_agent 0 o t post key a Hq Hsel) as Ho1.
      assert (Hc : coroutines (_task_processor 0 o) !! length (coroutines o)
                   = Some (mkCoroutine key (dispatched 0 a t) Spawned)).
      { rewrite Ho1. simpl. by rewrite list_lookup_middle. }
      destruct (activity_can_complete _ _ _ Hr1 Hc)
        as (evs & o' & t' & Hsub & Hrun & Hr' & Hlast & Hid & Hterm).
      exists (Dispatch 0 :: evs), o', t'. split; [done|]. split; [done|]. done.
    + pose proof (task_processor_no_agent 0 o t post Hq Hsel) as Ho1.
      exists [Dispatch 0], (_task_processor 0 o), (routing_failed t).
      split; [done|]. split; [done|]. split; [done|].
      split; [rewrite Ho1; simpl; apply last_snoc|done].
  - assert (Hr1 : reachable (_task_processor 0 o))
      by (by apply (reachable_step_quiet o (Dispatch 0))).
    assert (Hq1 : task_queue (_task_processor 0 o) = pre ++ t :: post)
      by (by rewrite task_processor_dequeues, Hq).
    destruct (IH _ t post Hr1 Hq1)
      as (evs & o' & t' & Hsub & Hrun & Hr' & Hlast & Hid & Hterm).
    exists (Dispatch 0 :: evs), o', t'. split; [done|]. split; [done|]. done.
Qed.

(** Whatever task the orchestrator holds in its queue or in its active
    registry can still be completed, with no further submission, and is
    then found by a poll. *)
Lemma held_task_can_complete o i :
  reachable o → i ∈ ids (task_queue o) ∨ in_active o i →
  ∃ evs o' t', submitted evs = [] ∧ run evs o = Some o' ∧ reachable o' ∧
               poll_once i o' = Some t' ∧ task_id t' = i ∧ terminal (status t') = true.
Proof.
  intros Hr Hheld.
  assert (H : ∃ evs o' t', submitted evs = [] ∧ run evs o = Some o' ∧ reachable o' ∧
                last (completed_tasks o') = Some t' ∧
                task_id t' = i ∧ terminal (status t') = true).
  { destruct Hheld as [Hq|[t Ha]].
    - apply list_elem_of_fmap in Hq as (t & -> & Hin).
      apply list_elem_of_split in Hin as (pre & post & Hq).
      by apply (queued_can_complete pre o t post).
    - destruct (reachable_Inv o Hr) as [used HI].
      apply (inv_active _ _ HI) in Ha. destruct Ha as (c & Hc & <- & <-).
      apply list_elem_of_lookup in Hc as [k Hk].
      by apply (activity_can_complete o k c). }
  destruct H as (evs & o' & t' & Hsub & Hrun & Hr' & Hlast & Hid & Hterm).
  exists evs, o', t'. split; [done|]. split; [done|]. split; [done|].
  destruct (reachable_Inv o' Hr') as [used' HI'].
  split; [|done]. rewrite <- Hid. by apply (poll_once_history_last used').
Qed.

(** C9.  [get_task_result] goes through its polling turns in order.  As
    long as the clock is within the timeout and the task is neither in the
    history nor in the active registry with a terminal status, it sleeps
    for 0.1 s and polls again; the first turn that finds the task returns
    its full record, which is a record of the history with the id asked
    for, or else the entry of the active registry under that id; the first
    turn whose clock reading has reached the timeout returns the absent
    signal, which is no task record, also for an id that no partition ever
    holds.  Nothing else is ever returned, and when every sleep lasts at
    least as long as asked the caller has its answer after a bounded number
    of turns.  In a reachable state the record returned is the one record
    of the history with that id, and its status is terminal.

    The function only reads the orchestrator, so the task goes on after the
    caller has given up: whatever task is in the queue or in the active
    registry of a reachable state can still be completed, with no further
    submission, and is then found by a poll; and every resumption of an
    execution activity either suspends it in [execute_task] or puts its
    task in the history, where a poll finds it. *)
Theorem get_task_result_found_or_absent (i : N) (timeout : Z)
  (before : list (Z * Orchestrator)) :
  Forall (λ eo : Z * Orchestrator, eo.1 < timeout ∧ poll_once i eo.2 = None) before →
  get_task_result i timeout before = StillPolling ∧
  (∀ elapsed o later t, elapsed < timeout → poll_once i o = Some t →
     get_task_result i timeout (before ++ (elapsed, o) :: later) = Found t) ∧
  (∀ elapsed o later, timeout ≤ elapsed →
     get_task_result i timeout (before ++ (elapsed, o) :: later) = Absent) ∧
  (∀ t, Absent ≠ Found t) ∧
  (∀ o t, poll_once i o = Some t ↔
     find_task i (completed_tasks o) = Some t ∨
     (find_task i (completed_tasks o) = None ∧ active_tasks o !! i = Some t ∧
      terminal (status t) = true)) ∧
  (∀ o, ¬ in_active o i → ¬ in_completed o i → poll_once i o = None) ∧
  (∀ o k c start_time now answer,
     coroutines o !! k = Some c → co_phase c = Awaiting start_time →
     is_Some (agents_get (agents o) (co_agent c)) →
     ∃ o' t', resume k now answer o = Some o' ∧
              last (completed_tasks o') = Some t' ∧
              task_id t' = task_id (co_task c) ∧ terminal (status t') = true) ∧
  (∀ o t, poll_once i o = Some t →
     (t ∈ completed_tasks o ∧ task_id t = i) ∨
     (¬ in_completed o i ∧ active_tasks o !! i = Some t ∧
      terminal (status t) = true)) ∧
  (∀ o, poll_once i o = None ↔
     ¬ in_completed o i ∧
     ∀ t, active_tasks o !! i = Some t → terminal (status t) = false) ∧
  (∀ o t, reachable o → poll_once i o = Some t →
     t ∈ completed_tasks o ∧ task_id t = i ∧ terminal (status t) = true ∧
     ∀ t', t' ∈ completed_tasks o → task_id t' = i → t' = t) ∧
  (∀ observations t, get_task_result i timeout observations = Found t →
     ∃ earlier elapsed o later,
       observations = earlier ++ (elapsed, o) :: later ∧
       Forall (λ eo : Z * Orchestrator, eo.1 < timeout ∧ poll_once i eo.2 = None) earlier ∧
       elapsed < timeout ∧ poll_once i o = Some t) ∧
  (∀ observations, get_task_result i timeout observations = Absent →
     ∃ earlier elapsed o later,
       observations = earlier ++ (elapsed, o) :: later ∧
       Forall (λ eo : Z * Orchestrator, eo.1 < timeout ∧ poll_once i eo.2 = None) earlier ∧
       timeout ≤ elapsed) ∧
  (∀ elapsed o delay,
     get_task_result_turn i timeout elapsed o = Sleep delay ↔
     delay = 100000 ∧ elapsed < timeout ∧ poll_once i o = None) ∧
  (∀ observations,
     slept 0 observations → (0 < length observations)%nat →
     timeout ≤ (Z.of_nat (length observations) - 1) * 100000 →
     get_task_result i timeout observations ≠ StillPolling) ∧
  (∀ o, reachable o → i ∈ ids (task_queue o) ∨ in_active o i →
     ∃ evs o' t', submitted evs = [] ∧ run evs o = Some o' ∧ reachable o' ∧
                  poll_once i o' = Some t' ∧ task_id t' = i ∧
                  terminal (status t') = true) ∧
  (∀ o k c now answer o',
     reachable o → coroutines o !! k = Some c → resume k now answer o = Some o' →
     (co_phase c = Spawned ∧
      coroutines o' !! k = Some (mkCoroutine (co_agent c) (co_task c) (Awaiting now)) ∧
      completed_tasks o' = completed_tasks o)
     ∨ (∃ t', last (completed_tasks o') = Some t' ∧
              task_id t' = task_id (co_task c) ∧ terminal (status t') = true ∧
              poll_once (task_id (co_task c)) o' = Some t')).
Proof.
  intros Hbefore. split.
  { rewrite <- (app_nil_r before). by rewrite get_task_result_skip. }
  split.
  { intros elapsed o later t Hlt Hfound. rewrite get_task_result_skip by done.
    rewrite get_task_result_cons. by rewrite (proj2 (Z.ltb_lt _ _) Hlt), Hfound. }
  split.
  { intros elapsed o later Hge. rewrite get_task_result_skip by done.
    rewrite get_task_result_cons. by rewrite (proj2 (Z.ltb_ge _ _) Hge). }
  split; [done|]. split; [intros o t; apply poll_once_spec|]. split.
  { intros o Ha Hc. unfold poll_once.
    rewrite (proj2 (find_task_None i (completed_tasks o)) Hc).
    destruct (active_tasks o !! i) as [t|] eqn:Hact; [|done].
    destruct Ha. by exists t. }
  split; [intros o k c start_time now answer; apply resume_awaiting_completes|].
  split; [intros o t; apply poll_once_Some|].
  split; [intros o; apply poll_once_None|].
  split.
  { intros o t Hr Hp. destruct (reachable_Inv o Hr) as [used HI].
    by apply (poll_once_Inv used). }
  split; [intros obs t; apply get_task_result_Found|].
  split; [intros obs; apply get_task_result_Absent|].
  split; [intros elapsed o delay; apply get_task_result_turn_Sleep|].
  split; [intros obs; apply get_task_result_returns|].
  split; [intros o; apply held_task_can_complete|].
  intros o k c now answer o' Hr Hc Hres.
  destruct (resume_suspends_or_lands o k c now answer o' Hc Hres)
    as [?|(t' & Hlast & Hid & Hterm)]; [by left|right].
  exists t'. split; [done|]. split; [done|]. split; [done|].
  assert (Hr' : reachable o') by (by apply (reachable_step_quiet o (Resume k now answer))).
  destruct (reachable_Inv o' Hr') as [used' HI'].
  rewrite <- Hid. by apply (poll_once_history_last used').
Qed.

Lemma get_task_result_found_or_absent_witness :
  get_task_result 7 30000000 observations_found = Found completed_sample ∧
  get_task_result 7 150000 observations_found = Absent ∧
  ∃ t, get_task_result 8 30000000 [(0, state_after (trace_completed ++ trace_more))]
       = Found t ∧
       task_id t = 8%N ∧ status t = FAILED.
Proof.
  assert (H1 : Forall (λ eo : Z * Orchestrator, eo.1 < 30000000 ∧ poll_once 7 eo.2 = None)
                 [(0, state_after trace_pending); (100000, state_after trace_dispatched)]).
  { repeat constructor. }
  assert (H2 : Forall (λ eo : Z * Orchestrator, eo.1 < 150000 ∧ poll_once 7 eo.2 = None)
                 [(0, state_after trace_pending); (100000, state_after trace_dispatched)]).
  { repeat constructor. }
  split; [|split].
  - destruct (get_task_result_found_or_absent 7 30000000 _ H1) as (_ & Hfound & _).
    apply (Hfound 200000 (state_after trace_completed) []); [done|].
    vm_compute. reflexivity.
  - destruct (get_task_result_found_or_absent 7 150000 _ H2) as (_ & _ & Habs & _).
    apply (Habs 200000 (state_after trace_completed) []). done.
  - assert (Hr : reachable (state_after (trace_completed ++ trace_more)))
      by (apply reachable_state_after; vm_compute; reflexivity).
    destruct (get_task_result_found_or_absent 8 30000000 [] (Forall_nil_2 _))
      as (_ & Hfound & _ & _ & _ & _ & _ & _ & _ & Hrec & _).
    destruct (poll_once 8 (state_after (trace_completed ++ trace_more))) as [t|] eqn:Hp;
      [|vm_compute in Hp; discriminate].
    exists t. split; [by apply (Hfound 0 _ [] t)|].
    split; [by apply (Hrec _ t Hr)|].
    vm_compute in Hp. injection Hp as <-. reflexivity.
Defined.

(** * Further properties of the orchestrator *)

(** ** Induction along runs *)

Lemma run_snoc evs ev o : run (evs ++ [ev]) o = run evs o ≫= λ o', step o' ev.
Proof.
  rewrite run_app. destruct (run evs o) as [o1|]; simpl; [|done].
  by destruct (step o1 ev).
Qed.

(** A property of the trace and the state that holds initially and is kept
    by every step holds after every run. *)
Lemma run_invariant (P : list Event → Orchestrator → Prop) :
  P [] init_orchestrator →
  (∀ evs o ev o', P evs o → step o ev = Some o' → P (evs ++ [ev]) o') →
  ∀ evs o, run evs init_orchestrator = Some o → P evs o.
Proof.
  intros Hinit Hstep evs. induction evs as [|ev evs IH] using rev_ind; intros o Hrun.
  - simpl in Hrun. by injection Hrun as <-.
  - rewrite run_snoc in Hrun.
    destruct (run evs init_orchestrator) as [o1|] eqn:Hrun1; [|done]. simpl in Hrun.
    apply (Hstep evs o1); [by apply IH|done].
Qed.

(** The same for reachable states, where the invariant [Inv] is at hand. *)
Lemma reachable_invariant (P : Orchestrator → Prop) :
  P init_orchestrator →
  (∀ used o ev o', Inv used o → P o → step o ev = Some o' → P o') →
  ∀ o, reachable o → P o.
Proof.
  intros Hinit Hstep o (evs & Hnd & Hrun).
  assert (H : ∀ evs used o0 o', Inv used o0 → P o0 → NoDup (used ++ submitted evs) →
              run evs o0 = Some o' → P o').
  { clear evs Hnd Hrun. induction evs as [|ev evs IH]; intros used o0 o' HI HP Hnd' Hrun.
    - simpl in Hrun. by injection Hrun as <-.
    - simpl in Hrun. destruct (step o0 ev) as [o1|] eqn:Hs; [|done]. simpl in Hrun.
      rewrite submitted_cons, app_assoc in Hnd'.
      apply (IH (used ++ submitted [ev]) o1 o'); [|by apply (Hstep used o0 ev)|done|done].
      apply (Inv_step used o0); [done|done|].
      intros i Hi Hu. apply NoDup_app in Hnd' as (Hnd' & _ & _).
      apply NoDup_app in Hnd' as (_ & Hdis & _). by apply (Hdis i). }
  apply (H evs [] init_orchestrator o); [apply Inv_init|done|done|done].
Qed.

(** ** The queue is first in, first out *)






(** ** Accounting of the system metrics *)

Lemma task_processor_accounted now o : (accounted (_task_processor now o) ≤ accounted o)%nat.
Proof.
  unfold accounted. rewrite task_processor_metrics.
  destruct (task_queue o) as [|t queue] eqn:Hq.
  { rewrite task_processor_empty by done. rewrite Hq. simpl. lia. }
  destruct (_select_agent (agents o) t) as [[[key a]|]|msg] eqn:Hsel.
  - rewrite (task_processor_agent now o t queue key a) by done. simpl.
    rewrite length_app. simpl. lia.
  - rewrite (task_processor_no_agent now o t queue) by done. simpl. lia.
  - rewrite (task_processor_raised now o t queue msg) by done. simpl. lia.
Qed.

Lemma finish_metrics s now t r o :
  system_metrics (_execute_task_finish s now t (Returned r) o) =
    if success r then incr_completed (system_metrics o) else incr_failed (system_metrics o).
Proof. done. Qed.

Lemma resume_accounted i now answer o o' :
  resume i now answer o = Some o' →
  accounted o' = accounted o ∧ total_tasks (system_metrics o') = total_tasks (system_metrics o).
Proof.
  intros H. pattern o'. apply (resume_cases _ _ _ _ _ _ H).
  - intros c a Hc _ _ _. unfold accounted. simpl. by rewrite length_insert.
  - intros c a a' s r Hc _ _ _ _. unfold accounted.
    rewrite finish_task_queue, finish_coroutines, finish_metrics. simpl.
    rewrite length_delete by (by eexists).
    pose proof (lookup_lt_Some _ _ _ Hc).
    destruct (success r); simpl; split; lia.
Qed.

(** X2.  [total_tasks] counts the calls of [submit_task], and the queued
    tasks, the execution activities and the two outcome counters together
    never exceed it: no task is counted as completed or failed twice, and
    none that was not submitted. *)
Theorem metrics_account_for_submissions (evs : list Event) (o : Orchestrator) :
  run evs init_orchestrator = Some o →
  total_tasks (system_metrics o) = length (submitted evs) ∧
  (accounted o ≤ total_tasks (system_metrics o))%nat.
Proof.
  revert evs o.
  apply (run_invariant (λ evs o,
    total_tasks (system_metrics o) = length (submitted evs) ∧
    (accounted o ≤ total_tasks (system_metrics o))%nat)).
  { done. }
  intros evs o ev o' [Htot Hacc] Hstep. rewrite submitted_app, length_app.
  destruct ev as [uuid now ty d prio pin|now|i now answer]; simpl in Hstep.
  - injection Hstep as <-. unfold accounted in *. simpl. rewrite length_app. simpl. lia.
  - injection Hstep as <-. pose proof (task_processor_accounted now o).
    rewrite task_processor_metrics. simpl. lia.
  - destruct (resume_accounted _ _ _ _ _ Hstep) as [-> ->]. simpl. lia.
Qed.

Lemma metrics_account_for_submissions_witness :
  total_tasks (system_metrics (state_after (trace_completed ++ trace_more))) = 2%nat.
Proof.
  apply (metrics_account_for_submissions (trace_completed ++ trace_more)).
  vm_compute. reflexivity.
Defined.

(** ** The active registry and the execution activities *)

Lemma co_pairs_keys (cs : list Coroutine) :
  ((λ c, (task_id (co_task c), co_task c)) <$> cs).*1 = ids (co_task <$> cs).
Proof. unfold ids. induction cs as [|c cs IH]; csimpl; [done|]. by rewrite IH. Qed.

Lemma active_tasks_list used o :
  Inv used o →
  active_tasks o =
    list_to_map ((λ c, (task_id (co_task c), co_task c)) <$> coroutines o).
Proof.
  intros HI. destruct (Inv_NoDup_parts used o HI) as (_ & Hnd & _).
  assert (Hnd' : NoDup ((λ c, (task_id (co_task c), co_task c)) <$> coroutines o).*1).
  { by rewrite co_pairs_keys. }
  apply map_eq. intros i. apply option_eq. intros t.
  rewrite (inv_active _ _ HI), <- elem_of_list_to_map by done.
  rewrite list_elem_of_fmap. split.
  - intros (c & Hc & <- & <-). by exists c.
  - intros (c & [= -> ->] & Hc). by exists c.
Qed.

(** X3.  In every reachable state [active_tasks] has one entry per
    execution activity: its size, which [get_system_status] reports as
    [active_tasks], is the number of executions under way, and every entry
    is an IN_PROGRESS task stored under its own id. *)
Theorem active_tasks_are_the_executions (o : Orchestrator) :
  reachable o →
  size (active_tasks o) = length (coroutines o) ∧
  ∀ i t, active_tasks o !! i = Some t → task_id t = i ∧ status t = IN_PROGRESS.
Proof.
  intros Hr. destruct (reachable_Inv o Hr) as [used HI]. split.
  - rewrite (active_tasks_list used o HI), map_size_list_to_map, length_fmap; [done|].
    destruct (Inv_NoDup_parts used o HI) as (_ & Hnd & _). by rewrite co_pairs_keys.
  - intros i t Ht. apply (inv_active _ _ HI) in Ht. destruct Ht as (c & Hc & <- & Hid).
    split; [done|]. by apply (inv_running _ _ HI).
Qed.

Lemma active_tasks_are_the_executions_witness :
  size (active_tasks (state_after trace_overlap)) = 1%nat.
Proof.
  assert (Hr : reachable (state_after trace_overlap))
    by (apply reachable_state_after; vm_compute; reflexivity).
  rewrite (proj1 (active_tasks_are_the_executions _ Hr)). reflexivity.
Defined.

(** X4.  In every reachable state the tasks that the orchestrator holds in
    its queue, in its execution activities and in its history have
    pairwise distinct ids; in particular no task is recorded twice in the
    history. *)
Theorem held_task_ids_are_distinct (o : Orchestrator) :
  reachable o →
  NoDup (all_ids o) ∧ NoDup (ids (completed_tasks o)).
Proof.
  intros Hr. destruct (reachable_Inv o Hr) as [used HI].
  split; [apply HI|apply (Inv_NoDup_parts used o HI)].
Qed.

Lemma held_task_ids_are_distinct_witness :
  NoDup (ids (completed_tasks (state_after (trace_completed ++ trace_more)))).
Proof.
  assert (Hr : reachable (state_after (trace_completed ++ trace_more)))
    by (apply reachable_state_after; vm_compute; reflexivity).
  exact (proj2 (held_task_ids_are_distinct _ Hr)).
Defined.

(** X5.  In every reachable state [get_task_result] can only return a
    record of the history: the branch that reads [active_tasks] never
    returns, because an active task is never terminal.  The record it
    returns has the requested id and a terminal status. *)
Theorem poll_returns_history_records (o : Orchestrator) (i : N) :
  reachable o →
  poll_once i o = find_task i (completed_tasks o) ∧
  ∀ t, poll_once i o = Some t →
       t ∈ completed_tasks o ∧ task_id t = i ∧ terminal (status t) = true.
Proof.
  intros Hr. destruct (reachable_Inv o Hr) as [used HI].
  assert (Heq : poll_once i o = find_task i (completed_tasks o)).
  { unfold poll_once. destruct (find_task i (completed_tasks o)) as [t|]; [done|].
    destruct (active_tasks o !! i) as [t|] eqn:Ha; [|done].
    apply (inv_active _ _ HI) in Ha. destruct Ha as (c & Hc & <- & _).
    destruct (inv_running _ _ HI c Hc) as [-> _]. done. }
  split; [done|]. intros t. rewrite Heq. intros Ht.
  apply find_task_Some in Ht as [Hin Hid]. split; [done|]. split; [done|].
  by apply (inv_history _ _ HI).
Qed.

Lemma poll_returns_history_records_witness :
  poll_once 7 (state_after trace_dispatched) = None.
Proof.
  assert (Hr : reachable (state_after trace_dispatched))
    by (apply reachable_state_after; vm_compute; reflexivity).
  rewrite (proj1 (poll_returns_history_records _ 7%N Hr)). reflexivity.
Defined.

(** ** The agents that never change *)

Lemma pool_ident_get ags : ∀ ags0 k a,
  agent_ident <$> ags = agent_ident <$> ags0 → agents_get ags k = Some a →
  ∃ a0, agents_get ags0 k = Some a0 ∧ agent_class a0 = agent_class a ∧ name a0 = name a.
Proof.
  induction ags as [|[k1 a1] ags IH]; intros [|[k0 a0] ags0] k a Heq Hget;
    csimpl in *; try done.
  injection Heq as Hk Hc Hn Hrest. subst k0.
  destruct (String.eqb k1 k); [|by apply IH].
  injection Hget as <-. by exists a0.
Qed.

Lemma Inv_pool_class used o k a :
  Inv used o → agents_get (agents o) k = Some a → pool_class k = Some (agent_class a).
Proof.
  intros HI Hget.
  destruct (pool_ident_get _ _ k a (inv_pool _ _ HI) Hget) as (a0 & Hget0 & Hc & _).
  unfold pool_class. by rewrite Hget0, <- Hc.
Qed.

Lemma task_processor_coroutines now o c :
  c ∈ coroutines (_task_processor now o) → c ∈ coroutines o ∨ co_phase c = Spawned.
Proof.
  destruct (task_queue o) as [|t queue] eqn:Hq.
  { rewrite task_processor_empty by done. by left. }
  destruct (_select_agent (agents o) t) as [[[key a]|]|msg] eqn:Hsel.
  - rewrite (task_processor_agent now o t queue key a) by done. simpl.
    intros Hc. apply elem_of_app in Hc as [?|Hc]; [by left|].
    apply list_elem_of_singleton in Hc. subst c. by right.
  - rewrite (task_processor_no_agent now o t queue) by done. by left.
  - rewrite (task_processor_raised now o t queue msg) by done. by left.
Qed.

Lemma awaiting_classes_step used o ev o' :
  Inv used o → awaiting_only_in_awaiting_classes o → step o ev = Some o' →
  awaiting_only_in_awaiting_classes o'.
Proof.
  intros HI HQ Hstep c0 s0.
  destruct ev as [uuid now ty d prio pin|now|i now answer]; simpl in Hstep.
  - injection Hstep as <-. apply HQ.
  - injection Hstep as <-. intros Hc Hph.
    apply task_processor_coroutines in Hc as [Hc|Hc]; [by apply (HQ c0 s0)|congruence].
  - revert c0 s0. pattern o'. apply (resume_cases _ _ _ _ _ _ Hstep).
    + intros c a Hc Ha Hph Hs c0 s0. simpl.
      destruct (lookup_split _ _ _ Hc) as (l1 & l2 & Hco & _ & Hins). rewrite Hins.
      intros Hin Hph0. apply elem_of_app in Hin as [Hin|Hin].
      * apply (HQ c0 s0); [|done]. rewrite Hco. apply elem_of_app. by left.
      * apply elem_of_cons in Hin as [->|Hin].
        -- simpl. exists (agent_class a). split; [|done]. by apply (Inv_pool_class used o).
        -- apply (HQ c0 s0); [|done]. rewrite Hco. apply elem_of_app. right. by right.
    + intros c a a' s r Hc Ha _ _ _ c0 s0. rewrite finish_coroutines. simpl.
      destruct (lookup_split _ _ _ Hc) as (l1 & l2 & Hco & -> & _).
      intros Hin Hph0. apply (HQ c0 s0); [|done]. rewrite Hco.
      apply elem_of_app in Hin as [?|?]; apply elem_of_app; [by left|right; by right].
Qed.

Lemma constant_agents_step used o ev o' :
  Inv used o → awaiting_only_in_awaiting_classes o → constant_agents_untouched o →
  step o ev = Some o' → constant_agents_untouched o'.
Proof.
  intros HI HQ HP Hstep k a0 Hk0 Hs0.
  destruct ev as [uuid now ty d prio pin|now|i now answer]; simpl in Hstep.
  - injection Hstep as <-. by apply HP.
  - injection Hstep as <-. rewrite task_processor_agents. by apply HP.
  - apply resume_inv in Hstep as (c & a & Hc & Ha & [(Hph & Hs & ->)|Hfin]).
    + simpl. destruct (decide (co_agent c = k)) as [Heq|Hne].
      * rewrite Heq in Ha. rewrite (HP k a0 Hk0 Hs0) in Ha. injection Ha as <-. congruence.
      * rewrite agents_get_set_ne by done. by apply HP.
    + destruct Hfin as (s & a' & r & Hcase & ->). rewrite finish_agents. simpl.
      destruct (decide (co_agent c = k)) as [<-|Hne];
        [|rewrite agents_get_set_ne by done; by apply HP].
      rewrite (agents_get_set_eq _ _ a) by done.
      rewrite (HP (co_agent c) a0 Hk0 Hs0) in Ha. injection Ha as <-.
      destruct Hcase as [(_ & _ & _ & -> & _)|(Hph & _ & _)]; [done|].
      assert (Hin : c ∈ coroutines o) by (by eapply list_elem_of_lookup_2).
      destruct (HQ c s Hin Hph) as (cls & Hcls & Hsus).
      unfold pool_class in Hcls. rewrite Hk0 in Hcls. simpl in Hcls.
      injection Hcls as <-. congruence.
Qed.

Lemma constant_agents_reachable o :
  reachable o → awaiting_only_in_awaiting_classes o ∧ constant_agents_untouched o.
Proof.
  revert o. apply reachable_invariant.
  - split; [intros c s Hc; inversion Hc|by intros k a0 Hk _].
  - intros used o ev o' HI [HQ HP] Hstep. split.
    + by apply (awaiting_classes_step used o ev).
    + by apply (constant_agents_step used o ev).
Qed.

Lemma constant_agent_is_initial o k a :
  reachable o → agents_get (agents o) k = Some a → suspends (agent_class a) = false →
  agents_get init_agents k = Some a ∧ is_busy a = false ∧ current_task a = None ∧
  never_ran a.
Proof.
  intros Hr Hget Hs. destruct (reachable_Inv o Hr) as [used HI].
  destruct (pool_ident_get _ _ k a (inv_pool _ _ HI) Hget) as (a0 & Hget0 & Hc & _).
  destruct (constant_agents_reachable o Hr) as [_ HP].
  rewrite (HP k a0 Hget0) in Hget by congruence. injection Hget as <-.
  split; [done|]. clear -Hget0 Hs. simpl in Hget0.
  repeat (match type of Hget0 with
          | (if ?b then _ else _) = _ => destruct b
          end; [injection Hget0 as <-; by repeat split|]).
  discriminate.
Qed.

(** X6.  The coordinator and the monitor agent are never written: in every
    reachable state each of them is exactly as [__init__] built it, idle,
    with no current task and with performance metrics that record nothing,
    however many tasks it has executed. *)
Theorem constant_agents_never_change (o : Orchestrator) (k : string) (a : Agent) :
  reachable o →
  agents_get (agents o) k = Some a →
  agent_class a = CoordinatorAgent ∨ agent_class a = MonitorAgent →
  agents_get init_agents k = Some a ∧ is_busy a = false ∧ current_task a = None ∧
  tasks_completed a = 0%nat ∧ tasks_failed a = 0%nat ∧ last_activity a = None.
Proof.
  intros Hr Hget Hcls. apply (constant_agent_is_initial o k a Hr Hget).
  by destruct Hcls as [-> | ->].
Qed.

Lemma constant_agents_never_change_witness :
  agents_get (agents (state_after (trace_coordinator ++ [Resume 0 12 answer_ok])))
    "coordinator" = agents_get init_agents "coordinator".
Proof.
  assert (Hr : reachable (state_after (trace_coordinator ++ [Resume 0 12 answer_ok])))
    by (apply reachable_state_after; vm_compute; reflexivity).
  symmetry.
  eapply (constant_agents_never_change _ "coordinator" _ Hr);
    [vm_compute; reflexivity|left; reflexivity].
Defined.

(** ** Routing in reachable states *)

Lemma coordinator_is_idle o :
  reachable o →
  ∃ a, ("coordinator", a) ∈ agents o ∧ is_busy a = false.
Proof.
  intros Hr. destruct (constant_agents_reachable o Hr) as [_ HP].
  destruct (agents_get init_agents "coordinator") as [a0|] eqn:Hget0; [|done].
  exists a0. split.
  - apply agents_get_elem_of. apply HP; [done|]. by injection Hget0 as <-.
  - by injection Hget0 as <-.
Qed.

(** X7.  In every reachable state the dispatcher fails a task at routing
    exactly when the task is pinned to a non-empty name that is no key of
    the pool: an unpinned task always gets a worker, because the
    coordinator and the monitor agent are never busy. *)
Theorem routing_fails_only_for_unknown_pins (o : Orchestrator) (t : Task) :
  reachable o →
  _select_agent (agents o) t = Returned None ↔
  ∃ pin, pinned t = Some pin ∧ pin ∉ init_agents.*1.
Proof.
  intros Hr. destruct (reachable_Inv o Hr) as [used HI].
  pose proof (pool_keys _ _ HI) as Hkeys. split.
  - unfold _select_agent. destruct (pinned t) as [pin|] eqn:Hpin.
    { destruct (agents_get (agents o) pin) as [a|] eqn:Hget; [done|]. intros _.
      exists pin. split; [done|]. rewrite <- Hkeys. intros Hin.
      apply agents_get_is_Some in Hin as [a Ha]. congruence. }
    destruct (in_list _ template_types).
    { destruct (agents_index_pool (agents o) "template" Hkeys) as [a ->]; [|done].
      apply (bool_decide_unpack _). by vm_compute. }
    destruct (in_list _ server_types).
    { destruct (agents_index_pool (agents o) "server" Hkeys) as [a ->]; [|done].
      apply (bool_decide_unpack _). by vm_compute. }
    destruct (in_list _ coordinator_types).
    { destruct (agents_index_pool (agents o) "coordinator" Hkeys) as [a ->]; [|done].
      apply (bool_decide_unpack _). by vm_compute. }
    destruct (in_list _ monitor_types).
    { destruct (agents_index_pool (agents o) "monitor" Hkeys) as [a ->]; [|done].
      apply (bool_decide_unpack _). by vm_compute. }
    destruct (coordinator_is_idle o Hr) as (a & Hin & Hidle).
    assert (Hf : ("coordinator", a) ∈ List.filter (λ ka, negb (is_busy ka.2)) (agents o))
      by (by apply filter_idle_elem_of).
    destruct (List.filter _ (agents o)); [inversion Hf|done].
  - intros (pin & Hpin & Hout). unfold _select_agent. rewrite Hpin.
    destruct (agents_get (agents o) pin) as [a|] eqn:Hget; [|done].
    destruct Hout. rewrite <- Hkeys. apply agents_get_is_Some. by exists a.
Qed.

Lemma routing_fails_only_for_unknown_pins_witness :
  _select_agent (agents (state_after trace_overlap)) (task_of "bogus_type" None)
  ≠ Returned None.
Proof.
  assert (Hr : reachable (state_after trace_overlap))
    by (apply reachable_state_after; vm_compute; reflexivity).
  intros H.
  apply (routing_fails_only_for_unknown_pins _ (task_of "bogus_type" None) Hr) in H.
  destruct H as (pin & Hpin & _). discriminate.
Defined.

(** ** The type table against the agents' own dispatch *)

Lemma routing_table_None ty :
  routing_table ty = None →
  in_list ty template_types = false ∧ in_list ty server_types = false.
Proof.
  unfold routing_table. destruct (in_list ty template_types); [done|].
  by destruct (in_list ty server_types).
Qed.

Lemma agents_index_key ags key k a :
  agents_index ags key = Returned (Some (k, a)) → k = key.
Proof.
  unfold agents_index. destruct (agents_get ags key); [|discriminate].
  by intros [= <- _].
Qed.

(** X8.  The agent that the type table gives an unpinned task always
    recognises the task's type: its [execute_task] returns what the handler
    of that type returned.  A task of a type outside the table, given to
    the template or the server agent by the fallback, gets the failure
    result 'Unknown task type: ...' and ends FAILED. *)
Theorem table_routed_types_are_handled (o : Orchestrator) (t : Task) (key : string)
  (a : Agent) (r : Result) :
  reachable o →
  pinned t = None →
  _select_agent (agents o) t = Returned (Some (key, a)) →
  suspends (agent_class a) = true →
  (routing_table (task_type t) ≠ None → execute_task_result a t (Returned r) = r) ∧
  (routing_table (task_type t) = None →
     execute_task_result a t (Returned r) =
       mkResult false (Some (String.append "Unknown task type: " (task_type t))) ∧
     ∀ s now,
       status (finished_task s now t (Returned (execute_task_result a t (Returned r))))
       = FAILED).
Proof.
  intros Hr Hpin Hsel Hs. destruct (reachable_Inv o Hr) as [used HI].
  pose proof (pool_keys _ _ HI) as Hkeys.
  assert (Hnd : NoDup (agents o).*1) by (rewrite Hkeys; apply init_keys_NoDup).
  pose proof (select_Some_get _ _ _ _ Hnd Hsel) as Hget.
  pose proof (Inv_pool_class used o key a HI Hget) as Hcls.
  split.
  - intros Hty. unfold execute_task_result.
    unfold _select_agent in Hsel. rewrite Hpin in Hsel.
    unfold routing_table in Hty.
    destruct (in_list (task_type t) template_types) eqn:E1.
    { apply agents_index_key in Hsel as ->. change (pool_class "template") with (Some TemplateAgent) in Hcls. injection Hcls as Hcls.
      rewrite <- Hcls. cbn [handled_types]. by rewrite E1. }
    destruct (in_list (task_type t) server_types) eqn:E2.
    { apply agents_index_key in Hsel as ->. change (pool_class "server") with (Some ServerAgent) in Hcls. injection Hcls as Hcls.
      rewrite <- Hcls. cbn [handled_types]. by rewrite E2. }
    destruct (in_list (task_type t) coordinator_types) eqn:E3.
    { apply agents_index_key in Hsel as ->. change (pool_class "coordinator") with (Some CoordinatorAgent) in Hcls. injection Hcls as Hcls.
      by rewrite <- Hcls in Hs. }
    destruct (in_list (task_type t) monitor_types) eqn:E4; [|done].
    apply agents_index_key in Hsel as ->. change (pool_class "monitor") with (Some MonitorAgent) in Hcls. injection Hcls as Hcls.
    by rewrite <- Hcls in Hs.
  - intros Hty. destruct (routing_table_None _ Hty) as [E1 E2].
    assert (Hres : execute_task_result a t (Returned r) =
              mkResult false (Some (String.append "Unknown task type: " (task_type t)))).
    { unfold execute_task_result. destruct (agent_class a); cbn [handled_types];
        rewrite ?E1, ?E2; done. }
    split; [done|]. intros s now. by rewrite Hres.
Qed.

Lemma table_routed_types_are_handled_witness :
  execute_task_result
    (new_agent ServerAgent "ServerAgent"
       ["import_templates"; "export_workflows"; "activate_workflows";
        "deactivate_workflows"; "monitor_executions"; "manage_credentials"])
    (task_of "activate_workflow" None) (Returned (mkResult true None))
  = mkResult true None.
Proof.
  apply (table_routed_types_are_handled init_orchestrator
           (task_of "activate_workflow" None) "server" _ (mkResult true None)).
  - exists []. split; [constructor|reflexivity].
  - reflexivity.
  - reflexivity.
  - reflexivity.
  - discriminate.
Defined.

(** ** The agents' counters against the system's *)

Lemma pool_sum_set f ags key a a' :
  agents_get ags key = Some a →
  (pool_sum f (agents_set ags key a') + f a = pool_sum f ags + f a')%nat.
Proof.
  unfold pool_sum. induction ags as [|[k b] rest IH]; simpl; [done|].
  destruct (String.eqb k key); simpl.
  - intros [= ->]. lia.
  - intros H. specialize (IH H). lia.
Qed.

Lemma update_performance_counters now r a :
  tasks_completed (execute_task_finally (update_performance now r a))
    = (if success r then S (tasks_completed a) else tasks_completed a) ∧
  tasks_failed (execute_task_finally (update_performance now r a))
    = (if success r then tasks_failed a else S (tasks_failed a)).
Proof. unfold update_performance. by destruct (success r). Qed.

(** X9.  After every run the system counter [failed_tasks] is the sum of
    the agents' [tasks_failed] counters, and the sum of the agents'
    [tasks_completed] counters never exceeds the system counter
    [completed_tasks] (the coordinator and the monitor agent complete tasks
    without counting them). *)
Theorem agent_counters_match_system_metrics (evs : list Event) (o : Orchestrator) :
  run evs init_orchestrator = Some o →
  failed_count (system_metrics o) = pool_sum tasks_failed (agents o) ∧
  (pool_sum tasks_completed (agents o) ≤ completed_count (system_metrics o))%nat.
Proof.
  revert evs o.
  apply (run_invariant (λ _ o,
    failed_count (system_metrics o) = pool_sum tasks_failed (agents o) ∧
    (pool_sum tasks_completed (agents o) ≤ completed_count (system_metrics o))%nat)).
  { done. }
  intros _ o ev o' [Hf Hc] Hstep.
  destruct ev as [uuid now ty d prio pin|now|i now answer]; simpl in Hstep.
  - by injection Hstep as <-.
  - injection Hstep as <-. by rewrite task_processor_metrics, task_processor_agents.
  - apply resume_inv in Hstep as (c & a & Hco & Ha & [(Hph & Hs & ->)|Hfin]).
    + simpl.
      pose proof (pool_sum_set tasks_failed _ _ a (execute_task_enter (co_task c) a) Ha).
      pose proof (pool_sum_set tasks_completed _ _ a (execute_task_enter (co_task c) a) Ha).
      simpl in *. split; lia.
    + destruct Hfin as (s & a' & r & Hcase & ->).
      rewrite finish_agents, finish_metrics. simpl.
      pose proof (pool_sum_set tasks_failed _ _ a a' Ha) as Hsf.
      pose proof (pool_sum_set tasks_completed _ _ a a' Ha) as Hsc.
      destruct Hcase as [(_ & _ & _ & -> & ->)|(_ & -> & ->)].
      * simpl. split; lia.
      * destruct (update_performance_counters now
                    (execute_task_result a (co_task c) answer) a) as [Hc' Hf'].
        rewrite Hc' in Hsc. rewrite Hf' in Hsf.
        destruct (success (execute_task_result a (co_task c) answer)); simpl; split; lia.
Qed.

Lemma agent_counters_match_system_metrics_witness :
  failed_count (system_metrics (state_after (trace_completed ++ trace_more))) = 1%nat.
Proof.
  rewrite (proj1 (agent_counters_match_system_metrics (trace_completed ++ trace_more)
                    (state_after (trace_completed ++ trace_more))
                    ltac:(vm_compute; reflexivity))).
  reflexivity.
Defined.

(** ** The health sweep *)

Lemma agent_monitor_elem now ags n :
  n ∈ _agent_monitor now ags ↔
  ∃ k a last, (k, a) ∈ ags ∧ name a = n ∧ last_activity a = Some last ∧
              3600000000 < now - last.
Proof.
  unfold _agent_monitor. rewrite list_elem_of_fmap. split.
  - intros (a & -> & Hin). apply list_elem_of_In, filter_In in Hin as [Hin Hold].
    apply list_elem_of_In, list_elem_of_fmap in Hin as ([k a'] & -> & Hin).
    unfold inactive_over_an_hour in Hold. simpl in *.
    destruct (last_activity a') as [last|] eqn:Hl; [|done].
    exists k, a', last. repeat split; try done. by apply Z.ltb_lt.
  - intros (k & a & last & Hin & <- & Hl & Hlt). exists a. split; [done|].
    apply list_elem_of_In, filter_In. split.
    + apply list_elem_of_In, list_elem_of_fmap. by exists (k, a).
    + unfold inactive_over_an_hour. rewrite Hl. by apply Z.ltb_lt.
Qed.

(** X10.  In every reachable state a sweep of the health monitor warns only
    about the template agent and the server agent, and only when the last
    task the agent finished ended more than an hour ago: the coordinator
    and the monitor agent are never reported, however long they have been
    idle, and neither is an agent that has not finished a task yet. *)
Theorem agent_monitor_reports_only_awaiting_agents (o : Orchestrator) (now : Z)
  (n : string) :
  reachable o →
  n ∈ _agent_monitor now (agents o) →
  (n = "TemplateAgent" ∨ n = "ServerAgent") ∧
  ∃ k a last, agents_get (agents o) k = Some a ∧ name a = n ∧
              last_activity a = Some last ∧ 3600000000 < now - last.
Proof.
  intros Hr Hn. destruct (reachable_Inv o Hr) as [used HI].
  apply agent_monitor_elem in Hn as (k & a & last & Hin & Hname & Hl & Hlt).
  assert (Hget : agents_get (agents o) k = Some a).
  { apply elem_of_agents_get; [|done]. rewrite (pool_keys _ _ HI). apply init_keys_NoDup. }
  split; [|by exists k, a, last].
  destruct (suspends (agent_class a)) eqn:Hs.
  - destruct (pool_ident_get _ _ k a (inv_pool _ _ HI) Hget) as (a0 & Hget0 & Hc & Hn0).
    rewrite <- Hname, <- Hn0. rewrite <- Hc in Hs. clear -Hget0 Hs. simpl in Hget0.
    repeat (match type of Hget0 with
            | (if ?b then _ else _) = _ => destruct b
            end; [injection Hget0 as <-; (by left) || (by right) || done|]).
    discriminate.
  - destruct (constant_agent_is_initial o k a Hr Hget Hs) as (_ & _ & _ & _ & _ & Hnone).
    congruence.
Qed.

Lemma agent_monitor_reports_only_awaiting_agents_witness :
  _agent_monitor 3700000103 (agents (state_after trace_completed)) = ["TemplateAgent"] ∧
  _agent_monitor 3600000103 (agents (state_after trace_completed)) = [].
Proof.
  assert (Hr : reachable (state_after trace_completed))
    by (apply reachable_state_after; vm_compute; reflexivity).
  assert (Hin : "TemplateAgent" ∈ _agent_monitor 3700000103 (agents (state_after trace_completed)))
    by (vm_compute; left).
  destruct (agent_monitor_reports_only_awaiting_agents _ _ _ Hr Hin) as [_ _].
  split; reflexivity.
Defined.

(** * The thinking history *)

Lemma last_n_all {A : Type} (n : nat) (l : list A) : (length l ≤ n)%nat → last_n n l = l.
Proof. intros H. unfold last_n. by replace (length l - n)%nat with 0%nat by lia. Qed.

Lemma last_n_bound {A : Type} (n : nat) (l : list A) : (length (last_n n l) ≤ n)%nat.
Proof. unfold last_n. rewrite length_drop. lia. Qed.

Lemma last_n_trim {A : Type} (n : nat) (l : list A) :
  (if (n <? length l)%nat then last_n n l else l) = last_n n l.
Proof.
  destruct (Nat.ltb_spec n (length l)); [done|]. by rewrite last_n_all.
Qed.

(** Trimming before an append does not change what a later trimming
    keeps. *)
Lemma last_n_snoc_trimmed {A : Type} (n : nat) (l : list A) (x : A) :
  (0 < n)%nat → last_n n (last_n n l ++ [x]) = last_n n (l ++ [x]).
Proof.
  intros Hn. destruct (decide (length l ≤ n)%nat) as [Hle|Hgt].
  { by rewrite (last_n_all n l). }
  unfold last_n. rewrite !length_app, length_drop. simpl.
  replace (length l - (length l - n) + 1 - n)%nat with 1%nat by lia.
  rewrite !drop_app_le by (rewrite ?length_drop; lia).
  rewrite drop_drop. f_equal. f_equal. lia.
Qed.

Lemma store_thought_lookup {Thought : Type} (a b id : string) (th : Thought)
  (h : gmap string (list (string * Thought))) :
  _store_thought a id th h !! b =
    if decide (a = b)
    then Some (last_n thinking_history_cap (default [] (h !! a) ++ [(id, th)]))
    else h !! b.
Proof.
  unfold _store_thought. rewrite last_n_trim, lookup_insert. by destruct (decide (a = b)).
Qed.

Lemma store_thoughts_lookup {Thought : Type} (calls : list (string * string * Thought)) :
  ∀ (h : gmap string (list (string * Thought))) (a : string),
  store_thoughts calls h !! a =
    match entries_of a calls with
    | [] => h !! a
    | _ :: _ => Some (last_n thinking_history_cap (default [] (h !! a) ++ entries_of a calls))
    end.
Proof.
  induction calls as [|[[b id] th] calls IH] using rev_ind; intros h a; [done|].
  unfold store_thoughts, entries_of in *.
  rewrite foldl_app, List.filter_app, fmap_app. simpl.
  rewrite store_thought_lookup. destruct (decide (b = a)) as [->|Hne].
  - rewrite String.eqb_refl. simpl. rewrite IH.
    destruct ((λ call : string * string * Thought, (call.1.2, call.2)) <$>
              List.filter (λ call, String.eqb call.1.1 a) calls) as [|e es]; simpl.
    + done.
    + rewrite last_n_snoc_trimmed by (unfold thinking_history_cap; lia).
      by rewrite <- app_assoc.
  - rewrite (proj2 (String.eqb_neq b a) Hne). simpl. rewrite app_nil_r. apply IH.
Qed.

(** X11.  After any sequence of [_store_thought] calls on an empty thinking
    history, an agent has a history exactly when a thought was stored for
    it, and that history is the last 100 thoughts stored for it, in the
    order of the calls: at most 100 entries, the oldest ones evicted, and
    never the thoughts of another agent. *)
Theorem thinking_history_keeps_last_hundred {Thought : Type}
  (calls : list (string * string * Thought)) (a : string) :
  store_thoughts calls ∅ !! a =
    (if decide (entries_of a calls = []) then None
     else Some (last_n thinking_history_cap (entries_of a calls))) ∧
  (∀ l, store_thoughts calls ∅ !! a = Some l →
        (0 < length l ≤ thinking_history_cap)%nat ∧ l `suffix_of` entries_of a calls).
Proof.
  assert (Heq : store_thoughts calls ∅ !! a =
    (if decide (entries_of a calls = []) then None
     else Some (last_n thinking_history_cap (entries_of a calls)))).
  { rewrite store_thoughts_lookup, lookup_empty.
    by destruct (entries_of a calls) as [|e es]. }
  split; [done|]. intros l. rewrite Heq.
  destruct (decide (entries_of a calls = [])) as [|Hne]; [done|]. intros [= <-].
  split; [|apply last_n_suffix]. split; [|apply last_n_bound].
  unfold last_n. rewrite length_drop.
  destruct (entries_of a calls); [done|]. unfold thinking_history_cap. simpl. lia.
Qed.

(** * The memory service without redis *)

Lemma memory_put_lookup uid key item mem :
  default ∅ (memory_put uid key item mem !! uid)
  = <[key := item]> (default ∅ (mem !! uid)).
Proof. unfold memory_put. by rewrite lookup_insert_eq. Qed.

Lemma memory_put_lookup_ne uid uid' key item mem :
  uid ≠ uid' → memory_put uid key item mem !! uid' = mem !! uid'.
Proof. intros H. unfold memory_put. by rewrite lookup_insert_ne. Qed.

Lemma memory_get_put_live uid key item now mem :
  live item now = true →
  memory_get uid key now (memory_put uid key item mem)
  = (item_data item, memory_put uid key item mem).
Proof.
  intros Hlive. unfold memory_get. rewrite memory_put_lookup, lookup_insert_eq. simpl.
  by rewrite Hlive.
Qed.

Lemma memory_get_put_expired uid key item now mem :
  live item now = false →
  (memory_get uid key now (memory_put uid key item mem)).1 = PyNone ∧
  ∀ later,
    (memory_get uid key later
       (memory_get uid key now (memory_put uid key item mem)).2).1
    = PyNone.
Proof.
  intros Hdead. unfold memory_get at 1 3. rewrite memory_put_lookup, lookup_insert_eq. simpl.
  rewrite Hdead. simpl. split; [done|]. intros later.
  unfold memory_get. rewrite lookup_insert_eq. simpl. by rewrite lookup_delete_eq.
Qed.

Lemma memory_get_put_other uid key item uid' key' now mem :
  uid ≠ uid' ∨ key ≠ key' →
  (memory_get uid' key' now (memory_put uid key item mem)).1
  = (memory_get uid' key' now mem).1.
Proof.
  intros Hne. unfold memory_get. destruct (decide (uid = uid')) as [<-|Hu].
  - destruct Hne as [?|Hk]; [done|]. rewrite memory_put_lookup, lookup_insert_ne by done.
    destruct (default ∅ (mem !! uid) !! key') as [it|]; [|done].
    by destruct (live it now).
  - rewrite memory_put_lookup_ne by done.
    destruct (default ∅ (mem !! uid') !! key') as [it|]; [|done].
    by destruct (live it now).
Qed.

(** X12.  What [store_short_term] has stored, [get_short_term] returns
    unchanged, and leaves in place, as long as the stored expiry, the float
    sum of the timestamp of the storing and 3600, is greater than the
    timestamp of the reading.  The first reading for which it is not
    returns [None] and deletes the item, so that every later reading
    returns [None] whatever the clock says.  The sum is rounded: the bound
    is an hour up to the rounding of the sum, and not an exact one. *)
Theorem short_term_round_trip (uid : Z) (key : string) (d : PyVal) (now now' : Z)
  (mem : gmap Z (gmap string MemoryItem)) :
  (float_lt (timestamp now') (float_add (timestamp now) (float_of_int 3600)) = true →
     get_short_term uid key now' (store_short_term uid key d now mem).2
     = (d, (store_short_term uid key d now mem).2)) ∧
  (float_lt (timestamp now') (float_add (timestamp now) (float_of_int 3600)) = false →
     (get_short_term uid key now' (store_short_term uid key d now mem).2).1 = PyNone ∧
     ∀ later,
       (get_short_term uid key later
          (get_short_term uid key now' (store_short_term uid key d now mem).2).2).1
       = PyNone).
Proof.
  unfold get_short_term, store_short_term. simpl. split.
  - intros Hlive. by apply (memory_get_put_live uid key (mkMemoryItem d _)).
  - intros Hdead. by apply (memory_get_put_expired uid key (mkMemoryItem d _)).
Qed.

(** X13.  Storing under one user and key does not change what is read
    under another user or another key, for the short-term and the long-term
    memory alike, provided the two slots differ. *)
Theorem memory_slots_are_independent (uid uid' : Z) (key key' : string) (d : PyVal)
  (now now' : Z) (mem : gmap Z (gmap string MemoryItem)) :
  uid ≠ uid' ∨ key ≠ key' →
  (get_short_term uid' key' now' (store_short_term uid key d now mem).2).1
    = (get_short_term uid' key' now' mem).1 ∧
  (get_long_term uid' key' now' (store_long_term uid key d now mem).2).1
    = (get_long_term uid' key' now' mem).1.
Proof.
  intros Hne. unfold get_short_term, get_long_term, store_short_term, store_long_term.
  simpl. split; apply memory_get_put_other; [done|].
  destruct Hne as [?|Hk]; [by left|right]. intros Heq. apply Hk.
  by injection Heq.
Qed.

Lemma memory_slots_are_independent_witness :
  (get_short_term 7 "recent_tasks" 10
     (store_short_term 8 "recent_tasks" (PyInt 1) 0 ∅).2).1 = PyNone.
Proof.
  assert (Hne : (8 : Z) ≠ 7 ∨ "recent_tasks" ≠ "recent_tasks") by (left; discriminate).
  rewrite (proj1 (memory_slots_are_independent 8 7 _ _ (PyInt 1) 0 10 ∅ Hne)).
  reflexivity.
Defined.

(** X14.  The long-term memory lives in the short-term dict under the key
    prefixed with 'long_': a short-term reading of such a key reads the
    long-term item, and a short-term writing of such a key overwrites it,
    each item with the expiry that the method that wrote it computed. *)
Theorem long_term_shares_the_short_term_dict (uid : Z) (key : string) (d : PyVal)
  (now now' : Z) (mem : gmap Z (gmap string MemoryItem)) :
  (get_short_term uid (String.append "long_" key) now'
     (store_long_term uid key d now mem).2).1
    = (if float_lt (timestamp now')
            (float_add (timestamp now) (float_of_int (86400 * 30)))
       then d else PyNone) ∧
  (get_long_term uid key now'
     (store_short_term uid (String.append "long_" key) d now mem).2).1
    = (if float_lt (timestamp now') (float_add (timestamp now) (float_of_int 3600))
       then d else PyNone).
Proof.
  unfold get_short_term, get_long_term, store_short_term, store_long_term, memory_get.
  simpl. rewrite !memory_put_lookup, !lookup_insert_eq. simpl. unfold live. simpl.
  change (expiry now long_term_ttl)
    with (float_add (timestamp now) (float_of_int (86400 * 30))).
  change (expiry now short_term_ttl)
    with (float_add (timestamp now) (float_of_int 3600)).
  split.
  - by destruct (float_lt _ _).
  - by destruct (float_lt _ _).
Qed.

Lemma short_term_round_trip_witness :
  (get_short_term 7 "recent_tasks" (3109827036 + 3600000000)
     (store_short_term 7 "recent_tasks" (PyList [PyInt 1]) 3109827036 ∅).2).1
    = PyList [PyInt 1] ∧
  (get_short_term 7 "recent_tasks" (1762214400123456 + 3600000000)
     (store_short_term 7 "recent_tasks" (PyList [PyInt 1]) 1762214400123456 ∅).2).1
    = PyNone.
Proof.
  destruct (short_term_round_trip 7 "recent_tasks" (PyList [PyInt 1])
              3109827036 (3109827036 + 3600000000) ∅) as [Hlive _].
  destruct (short_term_round_trip 7 "recent_tasks" (PyList [PyInt 1])
              1762214400123456 (1762214400123456 + 3600000000) ∅) as [_ Hdead].
  split.
  - rewrite Hlive by (vm_compute; reflexivity). reflexivity.
  - apply Hdead. vm_compute. reflexivity.
Defined.

(** ** The conversation history *)

Lemma slice_last_length {A : Type} (limit : Z) (l : list A) :
  0 < limit → (length (slice_last limit l) ≤ Z.to_nat limit)%nat.
Proof.
  intros H. unfold slice_last. rewrite (proj2 (Z.ltb_lt _ _) H), length_drop. lia.
Qed.

Lemma slice_last_suffix {A : Type} (limit : Z) (l : list A) :
  slice_last limit l `suffix_of` l.
Proof. unfold slice_last. destruct (0 <? limit); apply suffix_drop. Qed.

Lemma slice_last_zero {A : Type} (l : list A) : slice_last 0 l = l.
Proof. done. Qed.

Lemma conversation_history_list uid now h mem l :
  get_conversation_history uid 10 now h mem = PyList l → (length l ≤ 10)%nat.
Proof.
  unfold get_conversation_history.
  destruct (truthy _ _); [|intros [= <-]; simpl; lia].
  destruct (match default ∅ (mem !! uid) !! "conversation" with
            | Some item => if live item now then item_data item else PyList []
            | None => PyList []
            end) as [| | | |l0|]; simpl; try (intros [= <-]; simpl; lia); try done.
  intros [= <-]. by apply (slice_last_length 10 l0).
Qed.

Lemma dict_get_set key v d : dict_get key (dict_set key v d) = Some v.
Proof.
  induction d as [|[k w] rest IH]; simpl; [by rewrite String.eqb_refl|].
  destruct (String.eqb k key) eqn:E; simpl; by rewrite E.
Qed.

Lemma dict_get_set_ne key key' v d :
  key ≠ key' → dict_get key' (dict_set key v d) = dict_get key' d.
Proof.
  intros Hne. induction d as [|[k w] rest IH]; simpl.
  - by rewrite (proj2 (String.eqb_neq _ _) Hne).
  - destruct (String.eqb k key) eqn:E; simpl.
    + apply String.eqb_eq in E. subst k.
      by rewrite (proj2 (String.eqb_neq _ _) Hne).
    + by rewrite IH.
Qed.

(** X15.  [store_conversation] reads the history back with the default
    limit of 10 before it appends, so the stored conversation never has
    more than 11 messages and the trimming to the last 50 never applies.
    A successful call was given a dict: it has written the timestamp into
    that very object, leaving its other keys and every other object as they
    were, and the slot holds the (at most 10) messages that
    [get_conversation_history] returned, followed by that object; the item
    expires at the float sum of the timestamp of the call and 604800.  A
    call that fails has written nothing to the memory; it may have stamped
    the message all the same. *)
Theorem stored_conversation_has_at_most_eleven_messages (isoformat : Z → string)
  (uid : Z) (message : PyVal) (read stamp now : Z) (h : Heap)
  (mem : gmap Z (gmap string MemoryItem)) :
  ((store_conversation isoformat uid message read stamp now h mem).1.1 = false →
     (store_conversation isoformat uid message read stamp now h mem).2 = mem ∧
     ((store_conversation isoformat uid message read stamp now h mem).1.2 = h ∨
      ∃ a d, message = PyRef a ∧ h !! a = Some d ∧
             (store_conversation isoformat uid message read stamp now h mem).1.2
             = <[a := dict_set "timestamp" (PyStr (isoformat stamp)) d]> h)) ∧
  ((store_conversation isoformat uid message read stamp now h mem).1.1 = true →
     ∃ a d l,
       message = PyRef a ∧ h !! a = Some d ∧
       (store_conversation isoformat uid message read stamp now h mem).1.2
       = <[a := dict_set "timestamp" (PyStr (isoformat stamp)) d]> h ∧
       dict_get "timestamp" (dict_set "timestamp" (PyStr (isoformat stamp)) d)
       = Some (PyStr (isoformat stamp)) ∧
       (∀ key, key ≠ "timestamp" →
          dict_get key (dict_set "timestamp" (PyStr (isoformat stamp)) d) = dict_get key d) ∧
       default ∅ ((store_conversation isoformat uid message read stamp now h mem).2 !! uid)
         !! "conversation"
       = Some (mkMemoryItem (PyList (l ++ [PyRef a]))
                 (float_add (timestamp now) (float_of_int (86400 * 7)))) ∧
       (length (l ++ [PyRef a]) ≤ 11)%nat ∧
       (truthy h (get_conversation_history uid 10 read h mem) = true →
        get_conversation_history uid 10 read h mem = PyList l) ∧
       (truthy h (get_conversation_history uid 10 read h mem) = false → l = [])).
Proof.
  unfold store_conversation.
  destruct message as [| | | | |a]; try (split; [intros _; split; [done|by left]|done]).
  destruct (h !! a) as [d|] eqn:Ha; [|split; [intros _; split; [done|by left]|done]].
  destruct (truthy h (get_conversation_history uid 10 read h mem)) eqn:Htruthy.
  - destruct (get_conversation_history uid 10 read h mem) as [| | | |l|] eqn:Hhist;
      try (split; [intros _; split; [done|right; by exists a, d]|done]).
    pose proof (conversation_history_list uid read h mem l Hhist) as Hlen.
    assert (Hshort : (50 <? length (l ++ [PyRef a]))%nat = false).
    { apply Nat.ltb_ge. rewrite length_app. simpl. lia. }
    rewrite Hshort. simpl. split; [done|]. intros _. exists a, d, l.
    split; [done|]. split; [done|]. split; [done|].
    split; [apply dict_get_set|].
    split; [intros key Hkey; apply dict_get_set_ne; congruence|].
    rewrite memory_put_lookup, lookup_insert_eq.
    split; [done|]. split; [rewrite length_app; simpl; lia|]. by split.
  - simpl. split; [done|]. intros _. exists a, d, [].
    split; [done|]. split; [done|]. split; [done|].
    split; [apply dict_get_set|].
    split; [intros key Hkey; apply dict_get_set_ne; congruence|].
    rewrite memory_put_lookup, lookup_insert_eq.
    split; [done|]. split; [simpl; lia|]. by split.
Qed.

(** The same dict object stored twice: the conversation holds the object
    twice, and both entries read the timestamp of the second call. *)
Lemma stored_conversation_has_at_most_eleven_messages_witness :
  default ∅ ((store_conversation (λ _, "later") 7 (PyRef 1) 4 5 6
                (store_conversation (λ _, "first") 7 (PyRef 1) 1 2 3
                   {[1%N := [("text", PyStr "hello")]]} ∅).1.2
                (store_conversation (λ _, "first") 7 (PyRef 1) 1 2 3
                   {[1%N := [("text", PyStr "hello")]]} ∅).2).2 !! 7) !! "conversation"
  = Some (mkMemoryItem (PyList [PyRef 1; PyRef 1])
            (float_add (timestamp 6) (float_of_int (86400 * 7)))) ∧
  (store_conversation (λ _, "later") 7 (PyRef 1) 4 5 6
     (store_conversation (λ _, "first") 7 (PyRef 1) 1 2 3
        {[1%N := [("text", PyStr "hello")]]} ∅).1.2
     (store_conversation (λ _, "first") 7 (PyRef 1) 1 2 3
        {[1%N := [("text", PyStr "hello")]]} ∅).2).1.2 !! 1%N
  = Some [("text", PyStr "hello"); ("timestamp", PyStr "later")].
Proof.
  destruct (stored_conversation_has_at_most_eleven_messages (λ _, "later") 7 (PyRef 1) 4 5 6
              (store_conversation (λ _, "first") 7 (PyRef 1) 1 2 3
                 {[1%N := [("text", PyStr "hello")]]} ∅).1.2
              (store_conversation (λ _, "first") 7 (PyRef 1) 1 2 3
                 {[1%N := [("text", PyStr "hello")]]} ∅).2) as [_ H].
  destruct (H ltac:(vm_compute; reflexivity))
    as (a & d & l & Hmsg & Hd & Hheap & _ & _ & Hslot & _ & Hhist & _).
  injection Hmsg as <-.
  assert (Hl : l = [PyRef 1]).
  { assert (Heq : PyList [PyRef 1] = PyList l)
      by (rewrite <- Hhist; vm_compute; reflexivity).
    by injection Heq. }
  subst l. split; [exact Hslot|].
  rewrite Hheap. vm_compute in Hd. injection Hd as <-. vm_compute. reflexivity.
Defined.

(** X16.  With a live conversation in the slot, [get_conversation_history]
    returns its last [limit] messages when [limit] is positive and the
    whole conversation when [limit] is 0; with an expired or missing
    conversation it returns the empty list.  It never returns more than
    what is stored. *)
Theorem conversation_history_limit (uid : Z) (limit now : Z) (h : Heap)
  (mem : gmap Z (gmap string MemoryItem)) (l : list PyVal) (expires : spec_float) :
  default ∅ (mem !! uid) !! "conversation" = Some (mkMemoryItem (PyList l) expires) →
  (float_lt (timestamp now) expires = true →
     get_conversation_history uid limit now h mem = PyList (slice_last limit l) ∧
     slice_last limit l `suffix_of` l ∧
     (0 < limit → (length (slice_last limit l) ≤ Z.to_nat limit)%nat) ∧
     (limit = 0 → slice_last limit l = l)) ∧
  (float_lt (timestamp now) expires = false →
     get_conversation_history uid limit now h mem = PyList []).
Proof.
  intros Hslot. unfold get_conversation_history. rewrite Hslot. unfold live. simpl. split.
  - intros Hlt. rewrite Hlt. simpl.
    split; [|split; [apply slice_last_suffix|split; [apply slice_last_length|by intros ->]]].
    destruct l as [|x l]; [|done]. simpl. unfold slice_last.
    by destruct (0 <? limit); rewrite drop_nil.
  - intros Hge. by rewrite Hge.
Qed.

Lemma conversation_history_limit_witness :
  get_conversation_history 7 0 5 ∅
    (memory_put 7 "conversation"
       (mkMemoryItem (PyList [PyInt 1; PyInt 2; PyInt 3]) (float_of_int 9)) ∅)
  = PyList [PyInt 1; PyInt 2; PyInt 3] ∧
  get_conversation_history 7 2 5 ∅
    (memory_put 7 "conversation"
       (mkMemoryItem (PyList [PyInt 1; PyInt 2; PyInt 3]) (float_of_int 9)) ∅)
  = PyList [PyInt 2; PyInt 3].
Proof.
  assert (Hslot : default ∅
            (memory_put 7 "conversation"
               (mkMemoryItem (PyList [PyInt 1; PyInt 2; PyInt 3]) (float_of_int 9)) ∅ !! 7)
            !! "conversation"
          = Some (mkMemoryItem (PyList [PyInt 1; PyInt 2; PyInt 3]) (float_of_int 9)))
    by (vm_compute; reflexivity).
  assert (Hlt : float_lt (timestamp 5) (float_of_int 9) = true) by (vm_compute; reflexivity).
  split.
  - exact (proj1 (proj1 (conversation_history_limit 7 0 5 ∅ _ _ _ Hslot) Hlt)).
  - exact (proj1 (proj1 (conversation_history_limit 7 2 5 ∅ _ _ _ Hslot) Hlt)).
Defined.

(** * The caller of the orchestrator *)

Lemma intent_get_elem_of d intent ty : intent_get d intent = Some ty → (intent, ty) ∈ d.
Proof.
  induction d as [|[k v] rest IH]; simpl; [done|].
  destruct (String.eqb k intent) eqn:E.
  - apply String.eqb_eq in E. intros [= ->]. subst. left.
  - intros H. right. auto.
Qed.

Lemma select_table_lookup ags t key a :
  pinned t = None → routing_table (task_type t) = Some key →
  agents_get ags key = Some a → _select_agent ags t = Returned (Some (key, a)).
Proof.
  intros Hpin Hty Hget. unfold _select_agent, routing_table, agents_index in *.
  rewrite Hpin.
  destruct (in_list (task_type t) template_types);
    [injection Hty as <-; by rewrite Hget|].
  destruct (in_list (task_type t) server_types);
    [injection Hty as <-; by rewrite Hget|].
  destruct (in_list (task_type t) coordinator_types);
    [injection Hty as <-; by rewrite Hget|].
  destruct (in_list (task_type t) monitor_types);
    [injection Hty as <-; by rewrite Hget|].
  discriminate.
Qed.

(** X17.  Every task that [orchestrate_agents] submits has a type of the
    static table of [_select_agent] and no pinned agent: in every reachable
    state it is given to the template, the server or the monitor agent,
    never to the fallback, and never fails at routing. *)
Theorem orchestrated_tasks_are_routed_by_the_table (intent : string) (uuid : N)
  (now : Z) (d : list (string * string)) (t : Task) (o : Orchestrator) :
  orchestrated_task intent uuid now d = Some t →
  reachable o →
  pinned t = None ∧
  ∃ key a, routing_table (task_type t) = Some key ∧
           key ∈ ["template"; "server"; "monitor"] ∧
           _select_agent (agents o) t = Returned (Some (key, a)).
Proof.
  unfold orchestrated_task. intros Ht Hr.
  destruct (intent_get intent_to_task intent) as [ty|] eqn:Hget; [|done].
  simpl in Ht. injection Ht as <-. split; [done|].
  destruct (reachable_Inv o Hr) as [used HI].
  pose proof (pool_keys _ _ HI) as Hkeys.
  assert (Hkey : ∃ key, routing_table ty = Some key ∧ key ∈ ["template"; "server"; "monitor"]).
  { apply intent_get_elem_of in Hget. unfold intent_to_task in Hget.
    repeat (apply elem_of_cons in Hget as [[= _ ->]|Hget];
            [eexists; split; [reflexivity|];
             apply (bool_decide_unpack _); vm_compute; reflexivity|]).
    inversion Hget. }
  destruct Hkey as (key & Hrt & Hin). exists key.
  assert (Hpool : key ∈ (agents o).*1).
  { rewrite Hkeys. clear -Hin.
    repeat (apply elem_of_cons in Hin as [->|Hin];
            [apply (bool_decide_unpack _); vm_compute; reflexivity|]).
    inversion Hin. }
  apply agents_get_is_Some in Hpool as [a Ha]. exists a.
  split; [done|]. split; [done|]. by apply select_table_lookup.
Qed.

Lemma orchestrated_tasks_are_routed_by_the_table_witness :
  ∃ a, _select_agent init_agents
         (mkTask 5 "system_health" [] MEDIUM None 0 PENDING None None None None None None)
       = Returned (Some ("monitor", a)).
Proof.
  assert (Hr : reachable init_orchestrator) by (exists []; split; [constructor|reflexivity]).
  destruct (orchestrated_tasks_are_routed_by_the_table "analyze_data" 5 0 [] _
              init_orchestrator eq_refl Hr) as (_ & key & a & Hrt & _ & Hsel).
  exists a. injection Hrt as <-. exact Hsel.
Defined.

(** * The task records *)

Lemma finished_task_shape s now t r :
  running_shape t → history_shape (finished_task s now t (Returned r)).
Proof.
  intros (Hst & Has & Hsa & Hres & Hca & Hex & Herr). left. exists r. simpl.
  repeat split; try done; eauto.
Qed.

Lemma routing_failed_shape t : queued_shape t → history_shape (routing_failed t).
Proof. intros (Hst & Has & Hsa & Hres & Hca & Hex & Herr). right. by repeat split. Qed.

Lemma dispatched_shape now a t : queued_shape t → running_shape (dispatched now a t).
Proof.
  intros (Hst & Has & Hsa & Hres & Hca & Hex & Herr). unfold running_shape. simpl.
  repeat split; try done; eauto.
Qed.

Lemma task_shapes_step o ev o' : task_shapes o → step o ev = Some o' → task_shapes o'.
Proof.
  intros HS Hstep. pose proof HS as (Hq & Hc & Hh).
  destruct ev as [uuid now ty d prio pin|now|i now answer]; simpl in Hstep.
  - injection Hstep as <-. split; [|done]. simpl. intros t Ht.
    apply elem_of_app in Ht as [Ht|Ht]; [by apply Hq|].
    apply list_elem_of_singleton in Ht. by subst.
  - injection Hstep as <-. destruct (task_queue o) as [|t queue] eqn:Hqueue.
    { by rewrite task_processor_empty. }
    assert (Hhead : queued_shape t) by (apply Hq; left).
    assert (Htail : ∀ t', t' ∈ queue → queued_shape t') by (intros t' Ht'; apply Hq; by right).
    destruct (_select_agent (agents o) t) as [[[key a]|]|msg] eqn:Hsel.
    + rewrite (task_processor_agent now o t queue key a) by done.
      split; [done|]. split; [|done]. simpl. intros c Hin.
      apply elem_of_app in Hin as [Hin|Hin]; [by apply Hc|].
      apply list_elem_of_singleton in Hin. subst c. by apply dispatched_shape.
    + rewrite (task_processor_no_agent now o t queue) by done.
      split; [done|]. split; [done|]. simpl. intros t' Hin.
      apply elem_of_app in Hin as [Hin|Hin]; [by apply Hh|].
      apply list_elem_of_singleton in Hin. subst t'. by apply routing_failed_shape.
    + by rewrite (task_processor_raised now o t queue msg).
  - pattern o'. apply (resume_cases _ _ _ _ _ _ Hstep).
    + intros c a Hco _ _ _. split; [done|]. split; [|done]. simpl.
      destruct (lookup_split _ _ _ Hco) as (l1 & l2 & Hl & _ & Hins). rewrite Hins.
      intros c' Hin. rewrite Hl in Hc. apply elem_of_app in Hin as [Hin|Hin].
      * apply Hc. apply elem_of_app. by left.
      * apply elem_of_cons in Hin as [->|Hin].
        -- simpl. apply (Hc c). apply elem_of_app. right. left.
        -- apply Hc. apply elem_of_app. right. by right.
    + intros c a a' s r Hco _ _ _ _.
      destruct (lookup_split _ _ _ Hco) as (l1 & l2 & Hl & Hdel & _).
      assert (Hcin : c ∈ coroutines o) by (by eapply list_elem_of_lookup_2).
      split; [by rewrite finish_task_queue|]. split.
      * rewrite finish_coroutines. simpl. rewrite Hdel. intros c' Hin. apply Hc.
        rewrite Hl. apply elem_of_app in Hin as [?|?]; apply elem_of_app;
          [by left|right; by right].
      * intros t Hin.
        destruct (finish_completed_suffix s now (co_task c) (Returned r)
                    (set_coroutines (delete i (coroutines o))
                       (set_agents (agents_set (agents o) (co_agent c) a') o)))
          as [[old Hsuf] _].
        eassert (Hin' : t ∈ _ ++ [_]) by (rewrite Hsuf; apply elem_of_app; by right).
        apply elem_of_app in Hin' as [Hin'|Hin']; [by apply Hh|].
        apply list_elem_of_singleton in Hin'. subst t.
        apply finished_task_shape. by apply Hc.
Qed.

Lemma task_shapes_reachable o : reachable o → task_shapes o.
Proof.
  revert o. apply reachable_invariant.
  - split; [|split]; intros x Hx; inversion Hx.
  - intros used o ev o' _ HP Hstep. by apply (task_shapes_step o ev).
Qed.

(** X18.  Every record of the history of a reachable state is of one of
    two kinds.  A task that an agent executed carries the agent's result,
    its status is COMPLETED or FAILED as the success flag of that result
    says, and it has no ['error'] key: the reason of a failure is inside
    the result.  A task that failed at routing has the error
    'No suitable agent found' and neither result, assigned agent nor start
    time. *)
Theorem history_records_have_two_shapes (o : Orchestrator) (t : Task) :
  reachable o →
  t ∈ completed_tasks o →
  (∃ r, result t = Some r ∧
        status t = (if success r then COMPLETED else FAILED) ∧
        is_Some (assigned_agent t) ∧ is_Some (started_at t) ∧
        is_Some (completed_at t) ∧ is_Some (execution_time t) ∧ error t = None)
  ∨ (status t = FAILED ∧ error t = Some "No suitable agent found" ∧ result t = None ∧
     assigned_agent t = None ∧ started_at t = None ∧ completed_at t = None).
Proof.
  intros Hr Hin. destruct (task_shapes_reachable o Hr) as (_ & _ & Hh). by apply Hh.
Qed.

Lemma history_records_have_two_shapes_witness :
  error <$> completed_tasks (state_after (trace_completed ++ trace_more)) = [None; None] ∧
  status <$> completed_tasks (state_after (trace_completed ++ trace_more))
    = [COMPLETED; FAILED].
Proof.
  assert (Hr : reachable (state_after (trace_completed ++ trace_more)))
    by (apply reachable_state_after; vm_compute; reflexivity).
  assert (Hin : completed_sample ∈ completed_tasks (state_after (trace_completed ++ trace_more)))
    by (vm_compute; left).
  destruct (history_records_have_two_shapes _ _ Hr Hin) as [_|(Hst & _)];
    [split; vm_compute; reflexivity|discriminate].
Defined.

(** ** The current task of an agent *)

Lemma task_processor_coroutines_mono now o c :
  c ∈ coroutines o → c ∈ coroutines (_task_processor now o).
Proof.
  intros Hc. destruct (task_queue o) as [|t queue] eqn:Hq.
  { by rewrite task_processor_empty. }
  destruct (_select_agent (agents o) t) as [[[key a]|]|msg] eqn:Hsel.
  - rewrite (task_processor_agent now o t queue key a) by done. simpl.
    apply elem_of_app. by left.
  - by rewrite (task_processor_no_agent now o t queue).
  - by rewrite (task_processor_raised now o t queue msg).
Qed.

Lemma current_tasks_step o ev o' :
  current_tasks_are_executing o → step o ev = Some o' → current_tasks_are_executing o'.
Proof.
  intros HJ Hstep k b.
  destruct ev as [uuid now ty d prio pin|now|i now answer]; simpl in Hstep.
  - injection Hstep as <-. apply HJ.
  - injection Hstep as <-. rewrite task_processor_agents. intros Hk.
    destruct (HJ k b Hk) as [?|(Hb & c & s & Hc & Hrest)]; [by left|right].
    split; [done|]. exists c, s. split; [by apply task_processor_coroutines_mono|done].
  - apply resume_inv in Hstep as (c & a & Hco & Ha & Hcase).
    destruct (lookup_split _ _ _ Hco) as (l1 & l2 & Hl & Hdel & Hins).
    assert (Hkeep : ∀ c0 s0 (l : list Coroutine), c0 ∈ coroutines o → co_phase c0 = Awaiting s0 →
              (co_agent c0 ≠ co_agent c ∨ co_phase c = Spawned) →
              (∀ x, x ∈ l1 ++ l2 → x ∈ l) → c0 ∈ l).
    { intros c0 s0 l Hc0 Hph0 Hdiff Hsub. apply Hsub. rewrite Hl in Hc0.
      apply elem_of_app in Hc0 as [?|Hc0]; [apply elem_of_app; by left|].
      apply elem_of_cons in Hc0 as [->|?]; [|apply elem_of_app; by right].
      destruct Hdiff as [?|Hsp]; [done|congruence]. }
    destruct Hcase as [(Hph & Hs & ->)|(s & a' & r & Hcase & ->)].
    + simpl. rewrite Hins. destruct (decide (co_agent c = k)) as [<-|Hne].
      * rewrite (agents_get_set_eq _ _ a) by done. intros [= <-]. right.
        split; [done|]. eexists _, now. split; [apply elem_of_app; right; left|done].
      * rewrite agents_get_set_ne by done. intros Hk.
        destruct (HJ k b Hk) as [?|(Hb & c0 & s0 & Hc0 & Hk0 & Hph0 & Hcur)]; [by left|right].
        split; [done|]. exists c0, s0. split; [|done].
        apply (Hkeep c0 s0); [done|done|left; congruence|].
        intros x Hx. apply elem_of_app in Hx as [?|?]; apply elem_of_app;
          [by left|right; by right].
    + rewrite finish_agents, finish_coroutines. simpl. rewrite Hdel.
      destruct (decide (co_agent c = k)) as [<-|Hne].
      * rewrite (agents_get_set_eq _ _ a) by done. intros [= <-].
        destruct Hcase as [(Hph & _ & _ & -> & _)|(_ & -> & _)].
        -- destruct (HJ (co_agent c) a Ha) as [?|(Hb & c0 & s0 & Hc0 & Hk0 & Hph0 & Hcur)];
             [by left|right].
           split; [done|]. exists c0, s0. split; [|done].
           by apply (Hkeep c0 s0); [| |right|].
        -- left. unfold update_performance. by destruct (success _).
      * rewrite agents_get_set_ne by done. intros Hk.
        destruct (HJ k b Hk) as [?|(Hb & c0 & s0 & Hc0 & Hk0 & Hph0 & Hcur)]; [by left|right].
        split; [done|]. exists c0, s0. split; [|done].
        apply (Hkeep c0 s0); [done|done|left; congruence|done].
Qed.

Lemma current_tasks_reachable o : reachable o → current_tasks_are_executing o.
Proof.
  revert o. apply reachable_invariant.
  - intros k a Hget. left. simpl in Hget.
    repeat (match type of Hget with
            | (if ?b then _ else _) = _ => destruct b
            end; [injection Hget as <-; done|]).
    discriminate.
  - intros used o ev o' _ HJ Hstep. by apply (current_tasks_step o ev).
Qed.

(** X19.  In every reachable state an idle agent has no current task, and
    the current task of a busy agent is a task that is being executed: it
    is in [active_tasks] under its id, IN_PROGRESS. *)
Theorem current_task_is_an_active_task (o : Orchestrator) (k : string) (a : Agent) :
  reachable o →
  agents_get (agents o) k = Some a →
  (is_busy a = false → current_task a = None) ∧
  (is_busy a = true →
     ∃ t, current_task a = Some t ∧ active_tasks o !! task_id t = Some t ∧
          status t = IN_PROGRESS).
Proof.
  intros Hr Hget. destruct (reachable_Inv o Hr) as [used HI].
  destruct (current_tasks_reachable o Hr k a Hget)
    as [[Hb Hcur]|(Hb & c & s & Hc & Hk & Hph & Hcur)].
  - split; [done|]. intros ?. congruence.
  - split; [intros ?; congruence|]. intros _. exists (co_task c). split; [done|]. split.
    + apply (inv_active _ _ HI). by exists c.
    + by apply (inv_running _ _ HI).
Qed.

Lemma current_task_is_an_active_task_witness :
  ∃ a, agents_get (agents (state_after (trace_dispatched ++ [Resume 0 102 answer_ok])))
         "template" = Some a ∧
       task_id <$> current_task a = Some 7%N.
Proof.
  assert (Hr : reachable (state_after (trace_dispatched ++ [Resume 0 102 answer_ok])))
    by (apply reachable_state_after; vm_compute; reflexivity).
  destruct (agents_get (agents (state_after (trace_dispatched ++ [Resume 0 102 answer_ok])))
              "template") as [a|] eqn:Hget; [|vm_compute in Hget; discriminate].
  destruct (current_task_is_an_active_task _ "template" a Hr Hget) as [_ Hbusy].
  exists a. split; [done|].
  vm_compute in Hget. injection Hget as <-. reflexivity.
Defined.

(** ** How far the history can exceed its cap *)

Lemma history_excess_step o ev o' :
  history_within_cap_up_to_routing_failures o → step o ev = Some o' →
  history_within_cap_up_to_routing_failures o'.
Proof.
  intros HK Hstep. pose proof HK as (pre & tail & Hsplit & Hlen & Htail).
  destruct ev as [uuid now ty d prio pin|now|i now answer]; simpl in Hstep.
  - injection Hstep as <-. by exists pre, tail.
  - injection Hstep as <-. destruct (task_queue o) as [|t queue] eqn:Hqueue.
    { by rewrite task_processor_empty. }
    destruct (_select_agent (agents o) t) as [[[key a]|]|msg] eqn:Hsel.
    + rewrite (task_processor_agent now o t queue key a) by done. by exists pre, tail.
    + rewrite (task_processor_no_agent now o t queue) by done.
      exists pre, (tail ++ [routing_failed t]). simpl. rewrite Hsplit, <-app_assoc.
      split; [done|]. split; [done|]. intros t' Hin.
      apply elem_of_app in Hin as [Hin|Hin]; [by apply Htail|].
      apply list_elem_of_singleton in Hin. by subst t'.
    + rewrite (task_processor_raised now o t queue msg) by done. by exists pre, tail.
  - pattern o'. apply (resume_cases _ _ _ _ _ _ Hstep).
    + intros c a _ _ _ _. by exists pre, tail.
    + intros c a a' s r _ _ _ _ _. eexists _, []. rewrite app_nil_r.
      split; [done|]. split; [apply finish_returned_within_cap|].
      intros t Hin. inversion Hin.
Qed.

Lemma history_excess_reachable o :
  reachable o → history_within_cap_up_to_routing_failures o.
Proof.
  revert o. apply reachable_invariant.
  - exists [], []. split; [done|]. split; [simpl; lia|]. intros t Hin. inversion Hin.
  - intros used o ev o' _ HK Hstep. by apply (history_excess_step o ev).
Qed.

(** X20.  In every reachable state the history exceeds the cap of 1000
    records only by routing failures: it is a list of at most 1000 records
    followed by records that failed with 'No suitable agent found'.  So a
    history with no such record has at most 1000 records. *)
Theorem history_exceeds_cap_only_by_routing_failures (o : Orchestrator) :
  reachable o →
  (∃ pre tail, completed_tasks o = pre ++ tail ∧ (length pre ≤ history_cap)%nat ∧
     ∀ t, t ∈ tail → status t = FAILED ∧ error t = Some "No suitable agent found") ∧
  ((∀ t, t ∈ completed_tasks o → error t ≠ Some "No suitable agent found") →
   (length (completed_tasks o) ≤ history_cap)%nat).
Proof.
  intros Hr. pose proof (history_excess_reachable o Hr) as HK.
  split; [exact HK|]. destruct HK as (pre & tail & Hsplit & Hlen & Htail).
  intros Hno. destruct tail as [|t tail].
  - by rewrite Hsplit, app_nil_r.
  - exfalso. apply (Hno t).
    + rewrite Hsplit. apply elem_of_app. right. left.
    + apply Htail. left.
Qed.

Lemma history_exceeds_cap_only_by_routing_failures_witness :
  (length (completed_tasks (state_after (trace_completed ++ trace_more))) ≤ history_cap)%nat.
Proof.
  assert (Hr : reachable (state_after (trace_completed ++ trace_more)))
    by (apply reachable_state_after; vm_compute; reflexivity).
  apply (history_exceeds_cap_only_by_routing_failures _ Hr).
  intros t Hin. vm_compute in Hin.
  apply elem_of_cons in Hin as [->|Hin]; [discriminate|].
  apply elem_of_cons in Hin as [->|Hin]; [discriminate|].
  inversion Hin.
Defined.
